(** * Restaurant: semaphores and shared memory

    A verification model of the three process sources of the restaurant
    problem: [semSharedMemGroup.c], [semSharedMemReceptionist.c] and
    [semSharedMemWaiter.c].

    Every C function is transcribed statement by statement into a small
    flowchart ([prog]): each node carries the source line it comes from and
    the effect of that statement on the private variables of the process and
    on the shared region [sh->fSt].  One step function gives the meaning of a
    node; it is used both to run one process on its own (with the other
    processes seen as interference on the shared region) and to interleave
    all processes over System V style counting semaphores.

    C [int] values are modelled by [Z]: every counter of these sources is
    bounded by twice the number of groups, so no wrap-around is involved.
    An array access outside the array, whose behaviour C leaves undefined,
    is marked [Crash OutOfBounds], and the model follows the run no
    further: it does not say what the compiled program does next. *)

From stdpp Require Import base numbers list strings functions relations.
From Stdlib Require Import ZArith Lia.

Open Scope Z_scope.

(** ** Constants of probConst.h named by the sources *)

(** Status values stored in [sh->fSt.st].  The sources only ever assign
    them, they never branch on them.  [GOING] and [WAITING] are the two
    group states that no source file mentions. *)
Inductive status : Set :=
| GOING | ATRECEPTION | WAITING | FOOD_REQUEST | WAIT_FOR_FOOD | EAT
| CHECKOUT | LEAVING
| WAIT_FOR_REQUEST | ASSIGNTABLE | RECVPAY
| INFORM_CHEF | TAKE_TO_TABLE.

(** Request identifiers. *)
Inductive reqKind : Set := TABLEREQ | BILLREQ | FOODREQ | FOODREADY.

#[global] Instance status_eq_dec : EqDecision status.
Proof. solve_decision. Defined.
#[global] Instance reqKind_eq_dec : EqDecision reqKind.
Proof. solve_decision. Defined.

(** constants for groupRecord (semSharedMemReceptionist.c, lines 46-49) *)
Definition TOARRIVE : Z := 0.
Definition WAIT : Z := 1.
Definition ATTABLE : Z := 2.
Definition DONE : Z := 3.

(** ** The shared region *)

Record request : Set := mkRequest { reqType : reqKind; reqGroup : Z }.

Record STAT : Set := mkSTAT {
  groupStat : list status;
  receptionistStat : status;
  waiterStat : status
}.

Record FULL_STAT : Set := mkFULL_STAT {
  st : STAT;
  nGroups : Z;
  assignedTable : list Z;
  groupsWaiting : Z;
  receptionistRequest : request;
  waiterRequest : request;
  foodOrder : Z;
  foodGroup : Z
}.

(** Field updates, one per assignment form found in the sources. *)
Definition set_groupStat (v : list status) (m : FULL_STAT) : FULL_STAT :=
  mkFULL_STAT (mkSTAT v (receptionistStat (st m)) (waiterStat (st m)))
    (nGroups m) (assignedTable m) (groupsWaiting m) (receptionistRequest m)
    (waiterRequest m) (foodOrder m) (foodGroup m).
Definition set_receptionistStat (v : status) (m : FULL_STAT) : FULL_STAT :=
  mkFULL_STAT (mkSTAT (groupStat (st m)) v (waiterStat (st m)))
    (nGroups m) (assignedTable m) (groupsWaiting m) (receptionistRequest m)
    (waiterRequest m) (foodOrder m) (foodGroup m).
Definition set_waiterStat (v : status) (m : FULL_STAT) : FULL_STAT :=
  mkFULL_STAT (mkSTAT (groupStat (st m)) (receptionistStat (st m)) v)
    (nGroups m) (assignedTable m) (groupsWaiting m) (receptionistRequest m)
    (waiterRequest m) (foodOrder m) (foodGroup m).
Definition set_assignedTable (v : list Z) (m : FULL_STAT) : FULL_STAT :=
  mkFULL_STAT (st m) (nGroups m) v (groupsWaiting m) (receptionistRequest m)
    (waiterRequest m) (foodOrder m) (foodGroup m).
Definition set_groupsWaiting (v : Z) (m : FULL_STAT) : FULL_STAT :=
  mkFULL_STAT (st m) (nGroups m) (assignedTable m) v (receptionistRequest m)
    (waiterRequest m) (foodOrder m) (foodGroup m).
Definition set_receptionistRequest (v : request) (m : FULL_STAT) : FULL_STAT :=
  mkFULL_STAT (st m) (nGroups m) (assignedTable m) (groupsWaiting m) v
    (waiterRequest m) (foodOrder m) (foodGroup m).
Definition set_waiterRequest (v : request) (m : FULL_STAT) : FULL_STAT :=
  mkFULL_STAT (st m) (nGroups m) (assignedTable m) (groupsWaiting m)
    (receptionistRequest m) v (foodOrder m) (foodGroup m).
Definition set_foodOrder (v : Z) (m : FULL_STAT) : FULL_STAT :=
  mkFULL_STAT (st m) (nGroups m) (assignedTable m) (groupsWaiting m)
    (receptionistRequest m) (waiterRequest m) v (foodGroup m).
Definition set_foodGroup (v : Z) (m : FULL_STAT) : FULL_STAT :=
  mkFULL_STAT (st m) (nGroups m) (assignedTable m) (groupsWaiting m)
    (receptionistRequest m) (waiterRequest m) (foodOrder m) v.

(** The semaphore identifiers kept in [SHARED_DATA] beside [fSt]. *)
Module sh.
Inductive sem : Set :=
| mutex
| receptionistReq
| receptionistRequestPossible
| waiterRequest
| waiterRequestPossible
| waitOrder
| orderReceived
| waitForTable (g : Z)
| requestReceived (t : Z)
| foodArrived (t : Z)
| tableDone (t : Z).

#[global] Instance sem_eq_dec : EqDecision sem.
Proof. solve_decision. Defined.
End sh.

(** ** Arrays indexed by a C int *)

Inductive crash : Set := AssertionFailed | OutOfBounds | ExitFailure.

Inductive outcome (A : Type) : Type :=
| Ok (a : A)
| Crash (c : crash).
Arguments Ok {A} a.
Arguments Crash {A} c.

Definition obind {A B} (o : outcome A) (f : A -> outcome B) : outcome B :=
  match o with
  | Ok a => f a
  | Crash c => Crash c
  end.

(** [a[i]].  C does not check the index; outside the array the model
    gives no value and marks the access. *)
Definition aget {A} (a : list A) (i : Z) : outcome A :=
  if 0 <=? i then
    match a !! Z.to_nat i with
    | Some v => Ok v
    | None => Crash OutOfBounds
    end
  else Crash OutOfBounds.

(** [a[i] = v].  C does not check the index, and leaves the behaviour of
    a store outside the array undefined: the compiled program may well run
    on, with some other object overwritten.  The model does not say what
    happens then: it marks the store with [Crash OutOfBounds] and follows
    the run no further.  So [Crash OutOfBounds] says that the program
    reaches an access outside an array, not that the process stops. *)
Definition aset {A} (a : list A) (i : Z) (v : A) : outcome (list A) :=
  if (0 <=? i) && (i <? Z.of_nat (length a)) then Ok (<[Z.to_nat i := v]> a)
  else Crash OutOfBounds.

Arguments aget : simpl never.
Arguments aset : simpl never.

(** ** Flowcharts *)

(** What a statement touches; recorded in the trace of a run. *)
Inductive field : Set :=
| f_groupStat (g : Z)
| f_receptionistStat
| f_waiterStat
| f_assignedTable (g : Z)
| f_groupsWaiting
| f_receptionistRequest
| f_waiterRequest
| f_foodOrder
| f_foodGroup
| f_startTime (g : Z)
| f_eatTime (g : Z).

Inductive access : Set :=
| Load (f : field)          (* a read of the shared region *)
| Store (f : field)         (* a write to the shared region *)
| Private                   (* private variables of the process only *)
| Scan.                     (* decideTableOrWait / decideNextGroup *)

Inductive event : Set :=
| Edown (s : sh.sem)
| Eup (s : sh.sem)
| Esave (m : FULL_STAT)     (* saveState (nFic, &sh->fSt) *)
| Eacc (a : access)
| Esleep.

Section Prog.
(** [L]: the private variables of the process. *)
Context {L : Type}.

Inductive prog : Type :=
| Return
| SemDown (line : positive) (s : L -> sh.sem) (k : prog)
| SemUp (line : positive) (s : L -> sh.sem) (k : prog)
| SaveState (line : positive) (k : prog)
| Stmt (line : positive) (a : L -> access)
       (f : L -> FULL_STAT -> outcome (L * FULL_STAT)) (k : prog)
| Usleep (line : positive) (k : prog)
| If (line : positive) (c : L -> FULL_STAT -> bool) (p q : prog)
| While (line : positive) (c : L -> FULL_STAT -> bool) (body k : prog).

(** [p ;; q]: [q] takes over where [p] returns. *)
Fixpoint pseq (p q : prog) : prog :=
  match p with
  | Return => q
  | SemDown n s k => SemDown n s (pseq k q)
  | SemUp n s k => SemUp n s (pseq k q)
  | SaveState n k => SaveState n (pseq k q)
  | Stmt n a f k => Stmt n a f (pseq k q)
  | Usleep n k => Usleep n (pseq k q)
  | If n c p1 p2 => If n c (pseq p1 q) (pseq p2 q)
  | While n c b k => While n c b (pseq k q)
  end.

(** Source line of the next statement; 1 when the program has returned. *)
Definition line_of (p : prog) : positive :=
  match p with
  | Return => 1%positive
  | SemDown n _ _ | SemUp n _ _ | SaveState n _ | Stmt n _ _ _
  | Usleep n _ | If n _ _ _ | While n _ _ _ => n
  end.

(** What one step does. *)
Inductive action : Set :=
| Adown (s : sh.sem)
| Aup (s : sh.sem)
| Aevent (e : event)
| Atest.                    (* evaluation of a loop or branch condition *)

(** One statement.  [None]: the program has returned. *)
Definition step (p : prog) (l : L) (m : FULL_STAT)
  : option (action * outcome (prog * L * FULL_STAT)) :=
  match p with
  | Return => None
  | SemDown _ s k => Some (Adown (s l), Ok (k, l, m))
  | SemUp _ s k => Some (Aup (s l), Ok (k, l, m))
  | SaveState _ k => Some (Aevent (Esave m), Ok (k, l, m))
  | Stmt _ a f k =>
      Some (Aevent (Eacc (a l)),
            match f l m with
            | Ok (l', m') => Ok (k, l', m')
            | Crash c => Crash c
            end)
  | Usleep _ k => Some (Aevent Esleep, Ok (k, l, m))
  | If _ c p q => Some (Atest, Ok (if c l m then p else q, l, m))
  | While n c b k =>
      Some (Atest, Ok (if c l m then pseq b (While n c b k) else k, l, m))
  end.

Definition event_of (a : action) : list event :=
  match a with
  | Adown s => [Edown s]
  | Aup s => [Eup s]
  | Aevent e => [e]
  | Atest => []
  end.

Definition is_sem_op (a : action) : bool :=
  match a with
  | Adown _ | Aup _ => true
  | _ => false
  end.

(** *** One process on its own

    The other processes are an environment: before the [i]-th step of the
    process the shared region is changed by [interference i], and
    [sem_fails i] tells whether a semaphore operation issued at that step
    returns -1, in which case the sources call [exit (EXIT_FAILURE)]. *)
Record env : Type := mkEnv {
  interference : nat -> FULL_STAT -> FULL_STAT;
  sem_fails : nat -> bool
}.

Record result : Type := mkResult {
  r_end : outcome (L * FULL_STAT);   (* how the run ended *)
  r_trace : list event;              (* what it did, in order *)
  r_steps : nat                      (* number of the next step *)
}.

Fixpoint run (E : env) (fuel : nat) (i : nat) (p : prog) (l : L)
    (m : FULL_STAT) : option result :=
  match fuel with
  | O => None
  | S fuel' =>
      match step p l (interference E i m) with
      | None => Some (mkResult (Ok (l, m)) [] i)
      | Some (a, o) =>
          if is_sem_op a && sem_fails E i
          then Some (mkResult (Crash ExitFailure) [] i)
          else
            match o with
            | Crash c => Some (mkResult (Crash c) (event_of a) (S i))
            | Ok (p', l', m') =>
                match run E fuel' (S i) p' l' m' with
                | Some (mkResult e tr j) =>
                    Some (mkResult e (event_of a ++ tr) j)
                | None => None
                end
            end
      end
  end.

(** No interference and no failing semaphore operation: the situation
    inside a critical region. *)
Definition quiet : env := mkEnv (fun _ m => m) (fun _ => false).
End Prog.

Arguments prog L : clear implicits.
Arguments env : clear implicits.
Arguments result L : clear implicits.

Declare Scope prog_scope.
Delimit Scope prog_scope with prog.
Notation "p ;; q" := (pseq p q)
  (at level 100, q at level 200, right associativity) : prog_scope.

(** Single statements, to be chained with [;;]. *)
Definition semDown {L} (line : positive) (s : L -> sh.sem) : prog L :=
  SemDown line s Return.
Definition semUp {L} (line : positive) (s : L -> sh.sem) : prog L :=
  SemUp line s Return.
Definition saveState {L} (line : positive) : prog L := SaveState line Return.
Definition stmt {L} (line : positive) (a : L -> access)
    (f : L -> FULL_STAT -> outcome (L * FULL_STAT)) : prog L :=
  Stmt line a f Return.
Definition usleep {L} (line : positive) : prog L := Usleep line Return.

Open Scope prog_scope.

(** ** semSharedMemReceptionist.c *)

Module Receptionist.
Section Source.

(** [NUMTABLES] of probConst.h. *)
Variable NUMTABLES : Z.

(** Private variables of the receptionist process: the static array
    [groupRecord] and the locals of [main], [waitForGroup],
    [provideTableOrWaitingRoom] and [receivePayment]. *)
Record rvars : Set := mkRvars {
  groupRecord : list Z;
  g : Z;                 (* main *)
  nReq : Z;              (* main *)
  req : request;         (* main *)
  ret : request;         (* waitForGroup *)
  group_id : Z;          (* parameter of the two operations *)
  table_id : Z;
  new_group_id : Z       (* receivePayment *)
}.

Definition set_groupRecord (v : list Z) (l : rvars) : rvars :=
  mkRvars v (g l) (nReq l) (req l) (ret l) (group_id l) (table_id l)
    (new_group_id l).
Definition set_g (v : Z) (l : rvars) : rvars :=
  mkRvars (groupRecord l) v (nReq l) (req l) (ret l) (group_id l) (table_id l)
    (new_group_id l).
Definition set_nReq (v : Z) (l : rvars) : rvars :=
  mkRvars (groupRecord l) (g l) v (req l) (ret l) (group_id l) (table_id l)
    (new_group_id l).
Definition set_req (v : request) (l : rvars) : rvars :=
  mkRvars (groupRecord l) (g l) (nReq l) v (ret l) (group_id l) (table_id l)
    (new_group_id l).
Definition set_ret (v : request) (l : rvars) : rvars :=
  mkRvars (groupRecord l) (g l) (nReq l) (req l) v (group_id l) (table_id l)
    (new_group_id l).
Definition set_group_id (v : Z) (l : rvars) : rvars :=
  mkRvars (groupRecord l) (g l) (nReq l) (req l) (ret l) v (table_id l)
    (new_group_id l).
Definition set_table_id (v : Z) (l : rvars) : rvars :=
  mkRvars (groupRecord l) (g l) (nReq l) (req l) (ret l) (group_id l) v
    (new_group_id l).
Definition set_new_group_id (v : Z) (l : rvars) : rvars :=
  mkRvars (groupRecord l) (g l) (nReq l) (req l) (ret l) (group_id l)
    (table_id l) v.

(** *** decideTableOrWait (lines 149-165) *)

(** The inner loop
    [for (group = 0; group < nGroups; group++)
       if (assignedTable[group] == table) break;]
    started at [group] with [todo] iterations left; the result is the value
    of [group] when the loop is left. *)
Fixpoint scanGroups (m : FULL_STAT) (table group : Z) (todo : nat)
    : outcome Z :=
  match todo with
  | O => Ok group
  | S todo' =>
      obind (aget (assignedTable m) group) (fun held =>
        if held =? table then Ok group
        else scanGroups m table (group + 1) todo')
  end.

(** The outer loop [for (table = 0; table < NUMTABLES; table++)] and the
    final [return -1]. *)
Fixpoint scanTables (m : FULL_STAT) (table : Z) (todo : nat) : outcome Z :=
  match todo with
  | O => Ok (-1)
  | S todo' =>
      obind (scanGroups m table 0 (Z.to_nat (nGroups m))) (fun group =>
        if negb (group =? nGroups m) then scanTables m (table + 1) todo'
        else Ok table)
  end.

Definition decideTableOrWait (record : list Z) (m : FULL_STAT)
    (group_id : Z) : outcome Z :=
  obind (aget record group_id) (fun r =>
    if r <? 2 then scanTables m 0 (Z.to_nat NUMTABLES)
    else Crash AssertionFailed).

(** *** decideNextGroup (lines 176-187) *)

Fixpoint scanWaiting (record : list Z) (group_id : Z) (todo : nat)
    : outcome Z :=
  match todo with
  | O => Ok (-1)
  | S todo' =>
      obind (aget record group_id) (fun r =>
        if r =? WAIT then Ok group_id
        else scanWaiting record (group_id + 1) todo')
  end.

Definition decideNextGroup (record : list Z) (m : FULL_STAT) : outcome Z :=
  if groupsWaiting m <=? 0 then Ok (-1)
  else scanWaiting record 0 (Z.to_nat (nGroups m)).

(** *** waitForGroup (lines 198-247) *)

Definition waitForGroup : prog rvars :=
  semDown 202 (fun _ => sh.mutex) ;;
  stmt 209 (fun _ => Store f_receptionistStat)
    (fun l m => Ok (l, set_receptionistStat WAIT_FOR_REQUEST m)) ;;
  saveState 210 ;;
  semUp 212 (fun _ => sh.mutex) ;;
  semDown 219 (fun _ => sh.receptionistReq) ;;
  semDown 225 (fun _ => sh.mutex) ;;
  stmt 233 (fun _ => Load f_receptionistRequest)
    (fun l m => Ok (set_ret (receptionistRequest m) l, m)) ;;
  semUp 235 (fun _ => sh.mutex) ;;
  semUp 241 (fun _ => sh.receptionistRequestPossible).

(** *** provideTableOrWaitingRoom (lines 258-290) *)

Definition provideTableOrWaitingRoom : prog rvars :=
  semDown 260 (fun _ => sh.mutex) ;;
  stmt 266 (fun _ => Store f_receptionistStat)
    (fun l m => Ok (l, set_receptionistStat ASSIGNTABLE m)) ;;
  saveState 267 ;;
  stmt 269 (fun _ => Scan)
    (fun l m =>
       obind (decideTableOrWait (groupRecord l) m (group_id l)) (fun t =>
         Ok (set_table_id t l, m))) ;;
  If 272 (fun l _ => table_id l <? 0)
    (stmt 273 (fun _ => Store f_groupsWaiting)
       (fun l m => Ok (l, set_groupsWaiting (groupsWaiting m + 1) m)) ;;
     stmt 274 (fun _ => Private)
       (fun l m =>
          obind (aset (groupRecord l) (group_id l) WAIT) (fun r =>
            Ok (set_groupRecord r l, m))))
    (stmt 278 (fun _ => Private)
       (fun l m =>
          obind (aset (groupRecord l) (group_id l) ATTABLE) (fun r =>
            Ok (set_groupRecord r l, m))) ;;
     stmt 279 (fun l => Store (f_assignedTable (group_id l)))
       (fun l m =>
          obind (aset (assignedTable m) (group_id l) (table_id l)) (fun a =>
            Ok (l, set_assignedTable a m))) ;;
     semUp 280 (fun l => sh.waitForTable (group_id l))) ;;
  semUp 286 (fun _ => sh.mutex).

(** *** receivePayment (lines 302-339) *)

Definition receivePayment : prog rvars :=
  semDown 304 (fun _ => sh.mutex) ;;
  stmt 309 (fun _ => Store f_receptionistStat)
    (fun l m => Ok (l, set_receptionistStat RECVPAY m)) ;;
  saveState 310 ;;
  stmt 311 (fun _ => Private)
    (fun l m =>
       obind (aset (groupRecord l) (group_id l) DONE) (fun r =>
         Ok (set_groupRecord r l, m))) ;;
  stmt 313 (fun l => Load (f_assignedTable (group_id l)))
    (fun l m =>
       obind (aget (assignedTable m) (group_id l)) (fun t =>
         Ok (set_table_id t l, m))) ;;
  stmt 314 (fun l => Store (f_assignedTable (group_id l)))
    (fun l m =>
       obind (aset (assignedTable m) (group_id l) (-1)) (fun a =>
         Ok (l, set_assignedTable a m))) ;;
  If 317 (fun _ m => groupsWaiting m >? 0)
    (stmt 318 (fun _ => Scan)
       (fun l m =>
          obind (decideNextGroup (groupRecord l) m) (fun n =>
            Ok (set_new_group_id n l, m))) ;;
     If 319 (fun l _ => new_group_id l >? -1)
       (stmt 320 (fun _ => Private)
          (fun l m =>
             obind (aset (groupRecord l) (new_group_id l) ATTABLE) (fun r =>
               Ok (set_groupRecord r l, m))) ;;
        semUp 321 (fun l => sh.waitForTable (new_group_id l)) ;;
        stmt 325 (fun _ => Store f_groupsWaiting)
          (fun l m => Ok (l, set_groupsWaiting (groupsWaiting m - 1) m)) ;;
        stmt 326 (fun l => Store (f_assignedTable (new_group_id l)))
          (fun l m =>
             obind (aset (assignedTable m) (new_group_id l) (table_id l))
               (fun a => Ok (l, set_assignedTable a m))))
       Return)
    Return ;;
  semUp 330 (fun _ => sh.mutex) ;;
  semUp 335 (fun l => sh.tableDone (table_id l)).

(** *** main (lines 109-129) *)

(** One turn of the service loop: lines 119-128. *)
Definition turn : prog rvars :=
  waitForGroup ;;
  stmt 119 (fun _ => Private) (fun l m => Ok (set_req (ret l) l, m)) ;;
  If 121 (fun l _ => bool_decide (reqType (req l) = TABLEREQ))
    (stmt 122 (fun _ => Private)
       (fun l m => Ok (set_group_id (reqGroup (req l)) l, m)) ;;
     provideTableOrWaitingRoom)
    (If 124 (fun l _ => bool_decide (reqType (req l) = BILLREQ))
       (stmt 125 (fun _ => Private)
          (fun l m => Ok (set_group_id (reqGroup (req l)) l, m)) ;;
        receivePayment)
       Return) ;;
  stmt 128 (fun _ => Private) (fun l m => Ok (set_nReq (nReq l + 1) l, m)).

(** The life cycle of the receptionist: lines 116-129. *)
Definition service_loop : prog rvars :=
  stmt 116 (fun _ => Private) (fun l m => Ok (set_nReq 0 l, m)) ;;
  While 118 (fun l m => nReq l <? nGroups m * 2) turn Return.

(** Lines 110-129: the initialisation of [groupRecord], then the loop. *)
Definition main : prog rvars :=
  stmt 110 (fun _ => Private) (fun l m => Ok (set_g 0 l, m)) ;;
  While 111 (fun l m => g l <? nGroups m)
    (stmt 112 (fun _ => Private)
       (fun l m =>
          obind (aset (groupRecord l) (g l) TOARRIVE) (fun r =>
            Ok (set_g (g l + 1) (set_groupRecord r l), m))))
    service_loop.

End Source.
End Receptionist.

(** ** semSharedMemWaiter.c *)

Module Waiter.

Record wvars : Set := mkWvars {
  nReq : Z;              (* main *)
  req : request;         (* main *)
  ret : request;         (* [req] of waitForClientOrChef *)
  group_id : Z;          (* parameter of the two operations *)
  table_id : Z
}.

Definition set_nReq (v : Z) (l : wvars) : wvars :=
  mkWvars v (req l) (ret l) (group_id l) (table_id l).
Definition set_req (v : request) (l : wvars) : wvars :=
  mkWvars (nReq l) v (ret l) (group_id l) (table_id l).
Definition set_ret (v : request) (l : wvars) : wvars :=
  mkWvars (nReq l) (req l) v (group_id l) (table_id l).
Definition set_group_id (v : Z) (l : wvars) : wvars :=
  mkWvars (nReq l) (req l) (ret l) v (table_id l).
Definition set_table_id (v : Z) (l : wvars) : wvars :=
  mkWvars (nReq l) (req l) (ret l) (group_id l) v.

(** *** waitForClientOrChef (lines 135-184) *)

Definition waitForClientOrChef : prog wvars :=
  semDown 137 (fun _ => sh.mutex) ;;
  stmt 144 (fun _ => Store f_waiterStat)
    (fun l m => Ok (l, set_waiterStat WAIT_FOR_REQUEST m)) ;;
  saveState 145 ;;
  semUp 147 (fun _ => sh.mutex) ;;
  semDown 153 (fun _ => sh.waiterRequest) ;;
  semDown 161 (fun _ => sh.mutex) ;;
  stmt 168 (fun _ => Load f_waiterRequest)
    (fun l m => Ok (set_ret (waiterRequest m) l, m)) ;;
  semUp 170 (fun _ => sh.mutex) ;;
  semUp 178 (fun _ => sh.waiterRequestPossible).

(** *** informChef (lines 195-234) *)

Definition informChef : prog wvars :=
  semDown 197 (fun _ => sh.mutex) ;;
  stmt 203 (fun _ => Store f_waiterStat)
    (fun l m => Ok (l, set_waiterStat INFORM_CHEF m)) ;;
  saveState 204 ;;
  stmt 206 (fun _ => Store f_foodOrder)
    (fun l m => Ok (l, set_foodOrder 1 m)) ;;
  stmt 207 (fun _ => Store f_foodGroup)
    (fun l m => Ok (l, set_foodGroup (group_id l) m)) ;;
  stmt 209 (fun l => Load (f_assignedTable (group_id l)))
    (fun l m =>
       obind (aget (assignedTable m) (group_id l)) (fun t =>
         Ok (set_table_id t l, m))) ;;
  semUp 211 (fun _ => sh.mutex) ;;
  semUp 218 (fun l => sh.requestReceived (table_id l)) ;;
  semUp 223 (fun _ => sh.waitOrder) ;;
  semDown 230 (fun _ => sh.orderReceived).

(** *** takeFoodToTable (lines 245-269) *)

Definition takeFoodToTable : prog wvars :=
  semDown 246 (fun _ => sh.mutex) ;;
  stmt 253 (fun _ => Store f_waiterStat)
    (fun l m => Ok (l, set_waiterStat TAKE_TO_TABLE m)) ;;
  saveState 254 ;;
  stmt 259 (fun l => Load (f_assignedTable (group_id l)))
    (fun l m =>
       obind (aget (assignedTable m) (group_id l)) (fun t =>
         Ok (set_table_id t l, m))) ;;
  semUp 260 (fun l => sh.foodArrived (table_id l)) ;;
  semUp 265 (fun _ => sh.mutex).

(** *** main (lines 100-113) *)

Definition turn : prog wvars :=
  waitForClientOrChef ;;
  stmt 103 (fun _ => Private) (fun l m => Ok (set_req (ret l) l, m)) ;;
  If 105 (fun l _ => bool_decide (reqType (req l) = FOODREQ))
    (stmt 106 (fun _ => Private)
       (fun l m => Ok (set_group_id (reqGroup (req l)) l, m)) ;;
     informChef)
    (If 108 (fun l _ => bool_decide (reqType (req l) = FOODREADY))
       (stmt 109 (fun _ => Private)
          (fun l m => Ok (set_group_id (reqGroup (req l)) l, m)) ;;
        takeFoodToTable)
       Return) ;;
  stmt 112 (fun _ => Private) (fun l m => Ok (set_nReq (nReq l + 1) l, m)).

(** The life cycle of the waiter: lines 100-113. *)
Definition main : prog wvars :=
  stmt 100 (fun _ => Private) (fun l m => Ok (set_nReq 0 l, m)) ;;
  While 102 (fun l m => nReq l <? nGroups m * 2) turn Return.

End Waiter.

(** ** semSharedMemGroup.c *)

Module Group.

Record gvars : Set := mkGvars {
  n : Z;                 (* main; the [id] / [group_id] of every operation *)
  req : request;
  table_id : Z
}.

Definition set_req (v : request) (l : gvars) : gvars :=
  mkGvars (n l) v (table_id l).
Definition set_table_id (v : Z) (l : gvars) : gvars :=
  mkGvars (n l) (req l) v.

(** [sh->fSt.st.groupStat[group_id] = v] *)
Definition store_groupStat (v : status) (l : gvars) (m : FULL_STAT)
    : outcome (gvars * FULL_STAT) :=
  obind (aset (groupStat (st m)) (n l) v) (fun a => Ok (l, set_groupStat a m)).

(** [int table_id = sh->fSt.assignedTable[group_id]] *)
Definition load_table (l : gvars) (m : FULL_STAT)
    : outcome (gvars * FULL_STAT) :=
  obind (aget (assignedTable m) (n l)) (fun t => Ok (set_table_id t l, m)).

(** *** goToRestaurant (lines 150-156) and eat (lines 165-171)

    The delay is [startTime[id]] (resp. [eatTime[id]]) plus a random term;
    only the read of the shared region and the pause are kept. *)
Definition goToRestaurant : prog gvars :=
  stmt 151 (fun l => Load (f_startTime (n l))) (fun l m => Ok (l, m)) ;;
  usleep 154.

Definition eat : prog gvars :=
  stmt 166 (fun l => Load (f_eatTime (n l))) (fun l m => Ok (l, m)) ;;
  usleep 169.

(** *** checkInAtReception (lines 185-230) *)

Definition checkInAtReception : prog gvars :=
  semDown 189 (fun _ => sh.receptionistRequestPossible) ;;
  semDown 197 (fun _ => sh.mutex) ;;
  stmt 203 (fun l => Store (f_groupStat (n l))) (store_groupStat ATRECEPTION) ;;
  saveState 204 ;;
  stmt 207 (fun _ => Private)
    (fun l m => Ok (set_req (mkRequest TABLEREQ (reqGroup (req l))) l, m)) ;;
  stmt 208 (fun _ => Private)
    (fun l m => Ok (set_req (mkRequest (reqType (req l)) (n l)) l, m)) ;;
  stmt 211 (fun _ => Store f_receptionistRequest)
    (fun l m => Ok (l, set_receptionistRequest (req l) m)) ;;
  semUp 215 (fun _ => sh.receptionistReq) ;;
  semUp 220 (fun _ => sh.mutex) ;;
  semDown 226 (fun l => sh.waitForTable (n l)).

(** *** orderFood (lines 242-288) *)

Definition orderFood : prog gvars :=
  semDown 246 (fun _ => sh.waiterRequestPossible) ;;
  semDown 254 (fun _ => sh.mutex) ;;
  stmt 261 (fun _ => Private)
    (fun l m => Ok (set_req (mkRequest (reqType (req l)) (n l)) l, m)) ;;
  stmt 262 (fun _ => Private)
    (fun l m => Ok (set_req (mkRequest FOODREQ (reqGroup (req l))) l, m)) ;;
  stmt 265 (fun _ => Store f_waiterRequest)
    (fun l m => Ok (l, set_waiterRequest (req l) m)) ;;
  semUp 266 (fun _ => sh.waiterRequest) ;;
  stmt 272 (fun l => Store (f_groupStat (n l))) (store_groupStat FOOD_REQUEST) ;;
  saveState 273 ;;
  stmt 276 (fun l => Load (f_assignedTable (n l))) load_table ;;
  semUp 278 (fun _ => sh.mutex) ;;
  semDown 284 (fun l => sh.requestReceived (table_id l)).

(** *** waitFood (lines 299-339) *)

Definition waitFood : prog gvars :=
  semDown 300 (fun _ => sh.mutex) ;;
  stmt 306 (fun l => Store (f_groupStat (n l))) (store_groupStat WAIT_FOR_FOOD) ;;
  saveState 307 ;;
  stmt 310 (fun l => Load (f_assignedTable (n l))) load_table ;;
  semUp 312 (fun _ => sh.mutex) ;;
  semDown 319 (fun l => sh.foodArrived (table_id l)) ;;
  semDown 324 (fun _ => sh.mutex) ;;
  stmt 332 (fun l => Store (f_groupStat (n l))) (store_groupStat EAT) ;;
  saveState 333 ;;
  semUp 335 (fun _ => sh.mutex).

(** *** checkOutAtReception (lines 352-411) *)

Definition checkOutAtReception : prog gvars :=
  semDown 357 (fun _ => sh.receptionistRequestPossible) ;;
  semDown 365 (fun _ => sh.mutex) ;;
  stmt 371 (fun l => Store (f_groupStat (n l))) (store_groupStat CHECKOUT) ;;
  saveState 372 ;;
  stmt 377 (fun l => Load (f_assignedTable (n l))) load_table ;;
  stmt 378 (fun _ => Private)
    (fun l m => Ok (set_req (mkRequest (reqType (req l)) (n l)) l, m)) ;;
  stmt 379 (fun _ => Private)
    (fun l m => Ok (set_req (mkRequest BILLREQ (reqGroup (req l))) l, m)) ;;
  stmt 382 (fun _ => Store f_receptionistRequest)
    (fun l m => Ok (l, set_receptionistRequest (req l) m)) ;;
  semUp 383 (fun _ => sh.receptionistReq) ;;
  semUp 388 (fun _ => sh.mutex) ;;
  semDown 394 (fun l => sh.tableDone (table_id l)) ;;
  semDown 399 (fun _ => sh.mutex) ;;
  stmt 404 (fun l => Store (f_groupStat (n l))) (store_groupStat LEAVING) ;;
  saveState 405 ;;
  semUp 407 (fun _ => sh.mutex).

(** *** main (lines 60-122) *)

(** The life cycle of the group: lines 106-111. *)
Definition life : prog gvars :=
  goToRestaurant ;;
  checkInAtReception ;;
  orderFood ;;
  waitFood ;;
  eat ;;
  checkOutAtReception.

Inductive exit_status : Set := EXIT_SUCCESS | EXIT_FAILURE.

(** How the connection calls of sharedMemory.h and semaphore.h turn out;
    [true]: the call does not return -1. *)
Record ipc : Set := mkIpc {
  semConnect : bool;
  shmemConnect : bool;
  shmemAttach : bool;
  shmemDettach : bool
}.

(** The conversion [(unsigned int)] of a [long], stored into an [int]. *)
Definition to_int (v : Z) : Z := (v + 2 ^ 31) mod 2 ^ 32 - 2 ^ 31.

Section Source.

(** [MAXGROUPS] of probConst.h. *)
Variable MAXGROUPS : Z.

(** [strtol (s, &tinp, 0)] of the C library: the value read and the part
    of [s] left unread, to which [tinp] points. *)
Variable strtol : string -> Z * string.

(** Lines 66-100: the outcome is the group identification [n] when every
    check passes, and nothing when [main] returns [EXIT_FAILURE]. *)
Definition startup (argv : list string) (os : ipc) : option Z :=
  if bool_decide (length argv = 5%nat) then
    let '(v, tinp) := strtol (default EmptyString (argv !! 1%nat)) in
    let n := to_int v in
    if negb (bool_decide (tinp = EmptyString)) || (n >=? MAXGROUPS) then None
    else
      let '(_, tinp) := strtol (default EmptyString (argv !! 3%nat)) in
      if negb (bool_decide (tinp = EmptyString)) then None
      else if negb (semConnect os) then None
      else if negb (shmemConnect os) then None
      else if negb (shmemAttach os) then None
      else Some n
  else None.

(** How the process ends, and what it did on the shared region and on the
    semaphores. *)
Inductive ending : Set :=
| Exit (s : exit_status)
| Abort (c : crash).

Definition main (E : env) (fuel : nat) (argv : list string) (os : ipc)
    (m : FULL_STAT) : option (ending * list event) :=
  match startup argv os with
  | None => Some (Exit EXIT_FAILURE, [])
  | Some n =>
      match run E fuel 0 life (mkGvars n (mkRequest TABLEREQ 0) 0) m with
      | None => None
      | Some r =>
          Some (match r_end r with
                | Ok _ =>
                    Exit (if shmemDettach os then EXIT_SUCCESS
                          else EXIT_FAILURE)
                | Crash ExitFailure => Exit EXIT_FAILURE
                | Crash c => Abort c
                end, r_trace r)
      end
  end.

End Source.
End Group.

(** ** Reading a trace *)

(** [e1] occurs in [tr] at an earlier position than [e2]. *)
Definition precedes (e1 e2 : event) (tr : list event) : Prop :=
  exists i j : nat, (i < j)%nat /\ tr !! i = Some e1 /\ tr !! j = Some e2.

(** The values of [groupStat[g]] in the snapshots saved along [tr]. *)
Fixpoint persisted (g : nat) (tr : list event) : list status :=
  match tr with
  | [] => []
  | Esave m :: tr' =>
      match groupStat (st m) !! g with
      | Some v => v :: persisted g tr'
      | None => persisted g tr'
      end
  | _ :: tr' => persisted g tr'
  end.

(** Number of completed [semDown] on [s] along [tr]. *)
Fixpoint downs (s : sh.sem) (tr : list event) : nat :=
  match tr with
  | [] => 0%nat
  | Edown s' :: tr' =>
      if decide (s' = s) then S (downs s tr') else downs s tr'
  | _ :: tr' => downs s tr'
  end.

(** ** All the processes together *)

(** The program points a process started at [p] can be at. *)
Fixpoint conts {L} (p : prog L) : list (prog L) :=
  p ::
  match p with
  | Return => []
  | SemDown _ _ k | SemUp _ _ k | SaveState _ k | Stmt _ _ _ k
  | Usleep _ k => conts k
  | If _ _ p1 p2 => conts p1 ++ conts p2
  | While n c b k => map (fun b' => pseq b' (While n c b k)) (conts b) ++ conts k
  end.

Module System.

(** A process is at some point of its program with some values of its
    private variables, or it has been ended by a crash. *)
Inductive pstate (L : Type) : Type :=
| Live (c : prog L) (l : L)
| Dead (x : crash).
Arguments Live {L} c l.
Arguments Dead {L} x.

Record state : Type := mkState {
  mem : FULL_STAT;                         (* sh->fSt *)
  sems : sh.sem -> Z;                      (* value of every semaphore *)
  receptionist : pstate Receptionist.rvars;
  waiter : pstate Waiter.wvars;
  groups : Z -> pstate Group.gvars          (* group process [i], 0 <= i < nGroups *)
}.

(** [semDown] waits until the semaphore is positive. *)
Definition enabled (v : sh.sem -> Z) (a : action) : bool :=
  match a with
  | Adown s => 0 <? v s
  | _ => true
  end.

Definition after (v : sh.sem -> Z) (a : action) : sh.sem -> Z :=
  match a with
  | Adown s => <[s := v s - 1]> v
  | Aup s => <[s := v s + 1]> v
  | _ => v
  end.

(** One statement of one process. *)
Definition move {L} (p : pstate L) (m : FULL_STAT) (v : sh.sem -> Z)
    : option (pstate L * FULL_STAT * (sh.sem -> Z)) :=
  match p with
  | Dead _ => None
  | Live c l =>
      match step c l m with
      | None => None
      | Some (a, o) =>
          if enabled v a then
            Some (match o with
                  | Ok (c', l', m') => (Live c' l', m', after v a)
                  | Crash x => (Dead x, m, v)
                  end)
          else None
      end
  end.

(** Semaphores the chef operates on. *)
Definition chef_sem (s : sh.sem) : bool :=
  match s with
  | sh.mutex | sh.waiterRequest | sh.waiterRequestPossible | sh.waitOrder
  | sh.orderReceived => true
  | _ => false
  end.

(** Modelled from the spec: the chef process, whose source is not part of
    the repository.  Section 6 of the specification has it consume
    [foodOrder], [foodGroup] and the order-waiting signal and produce the
    order-received signal and a FOODREADY request in the mailbox of the
    waiter.  A move of the chef is any change confined to those fields and
    to the semaphores it shares with the waiter, the lock included. *)
Definition chef (s s' : state) : Prop :=
  receptionist s' = receptionist s /\
  waiter s' = waiter s /\
  groups s' = groups s /\
  st (mem s') = st (mem s) /\
  nGroups (mem s') = nGroups (mem s) /\
  assignedTable (mem s') = assignedTable (mem s) /\
  groupsWaiting (mem s') = groupsWaiting (mem s) /\
  receptionistRequest (mem s') = receptionistRequest (mem s) /\
  forall x, chef_sem x = false -> sems s' x = sems s x.

Inductive sys_step (s : state) : state -> Prop :=
| receptionist_moves p' m' v' :
    move (receptionist s) (mem s) (sems s) = Some (p', m', v') ->
    sys_step s (mkState m' v' p' (waiter s) (groups s))
| waiter_moves p' m' v' :
    move (waiter s) (mem s) (sems s) = Some (p', m', v') ->
    sys_step s (mkState m' v' (receptionist s) p' (groups s))
| group_moves i p' m' v' :
    0 <= i < nGroups (mem s) ->
    move (groups s i) (mem s) (sems s) = Some (p', m', v') ->
    sys_step s (mkState m' v' (receptionist s) (waiter s)
                  (<[i := p']> (groups s)))
| chef_moves s' :
    chef s s' ->
    sys_step s s'.

Section Start.

Variables (NUMTABLES MAXGROUPS : Z).

(** Modelled from the spec: the state left by the initialiser, whose source
    is not part of the repository.  Section 3 of the specification: every
    group unseated ([assignedTable] is -1), no group waiting, the lock and
    the two slot-available semaphores at 1, every other semaphore at 0.
    [groupRecord] is a static array, hence all zero, and the group
    processes carry the identifications 0 .. nGroups-1. *)
Definition initial (s : state) : Prop :=
  0 <= nGroups (mem s) <= MAXGROUPS /\
  Z.of_nat (length (assignedTable (mem s))) = MAXGROUPS /\
  Z.of_nat (length (groupStat (st (mem s)))) = MAXGROUPS /\
  (forall t, t ∈ assignedTable (mem s) -> t = -1) /\
  groupsWaiting (mem s) = 0 /\
  (forall x, sems s x =
     match x with
     | sh.mutex | sh.receptionistRequestPossible
     | sh.waiterRequestPossible => 1
     | _ => 0
     end) /\
  (exists l, receptionist s = Live (Receptionist.main NUMTABLES) l /\
             Receptionist.groupRecord l = replicate (Z.to_nat MAXGROUPS) 0) /\
  (exists l, waiter s = Live Waiter.main l) /\
  (forall i, 0 <= i < nGroups (mem s) ->
     exists l, groups s i = Live Group.life l /\ Group.n l = i).

Definition reachable (s : state) : Prop :=
  exists s0, initial s0 /\ rtc sys_step s0 s.

End Start.
End System.

Import System.

(* ================================================================== *)
(** * Notions used in the statements and in the invariants *)

(** ** Arrays at an index of type Z *)

(** Arrays read and written at an index of type Z *)
Definition sel {A} (a : list A) (i : Z) : option A :=
  if decide (0 <= i) then a !! Z.to_nat i else None.

Definition upd {A} (a : list A) (i : Z) (v : A) : list A :=
  <[Z.to_nat i := v]> a.

(** ** The protocol between the groups and the receptionist *)

(** Where a group is in its dealings with the receptionist: before its
    request for a table ([Arriving]), holding the request slot ([Asking]),
    with the request written ([Asked]) and posted ([Queued], until it has a
    table), at its table ([Seated]), and the same for the bill ([Paying],
    [Billed], [Leaving]). *)
Inductive phase : Set :=
| Arriving | Asking | Asked | Queued | Seated | Paying | Billed | Leaving.

(** The phase of a group whose next statement is at [line] of
    semSharedMemGroup.c. *)
Definition phase_of (line : positive) : phase :=
  match line with
  | 151 | 154 | 189 => Arriving
  | 197 | 203 | 204 | 207 | 208 | 211 => Asking
  | 215 => Asked
  | 220 | 226 => Queued
  | 365 | 371 | 372 | 377 | 378 | 379 | 382 => Paying
  | 383 => Billed
  | 388 | 394 | 399 | 404 | 405 | 407 | 1 => Leaving
  | _ => Seated
  end%positive.

(** A group that has crashed counts as one that never came; the
    invariant shows that no group crashes. *)
Definition gphase (p : pstate Group.gvars) : phase :=
  match p with
  | Live c _ => phase_of (line_of c)
  | Dead _ => Arriving
  end.

(** Has the group taken [receptionistRequestPossible] and not yet posted
    its request? *)
Definition holds_slot (ph : phase) : bool :=
  match ph with
  | Asking | Asked | Paying | Billed => true
  | _ => false
  end.

(** Has the receptionist taken [receptionistReq] and not yet given the
    slot back (lines 225-241 of waitForGroup)? *)
Definition rslot (line : positive) : bool :=
  match line with
  | 225 | 233 | 235 | 241 => true
  | _ => false
  end%positive.

(** Is the request still to be read from the mailbox (lines 225-233)? *)
Definition reading (line : positive) : bool :=
  match line with
  | 225 | 233 => true
  | _ => false
  end%positive.

(** The request the receptionist is working on, from the moment it has
    read it until it has recorded its effect in [groupRecord]. *)
Definition handling (line : positive) (l : Receptionist.rvars) : option request :=
  match line with
  | 235 | 241 | 119 => Some (Receptionist.ret l)
  | 121 | 122 | 124 | 125 => Some (Receptionist.req l)
  | 260 | 266 | 267 | 269 | 272 | 273 | 274 | 278 =>
      Some (mkRequest TABLEREQ (Receptionist.group_id l))
  | 304 | 309 | 310 | 311 => Some (mkRequest BILLREQ (Receptionist.group_id l))
  | _ => None
  end%positive.

(** The group the receptionist has recorded as ATTABLE and is about to
    signal. *)
Definition signalling (line : positive) (l : Receptionist.rvars) : option Z :=
  match line with
  | 279 | 280 => Some (Receptionist.group_id l)
  | 321 => Some (Receptionist.new_group_id l)
  | _ => None
  end%positive.

(** What is known of the request a group is composing. *)
Definition gassert (line : positive) (l : Group.gvars) (i : Z) (m : FULL_STAT)
    : Prop :=
  match line with
  | 208 => reqType (Group.req l) = TABLEREQ
  | 211 => Group.req l = mkRequest TABLEREQ i
  | 215 => receptionistRequest m = mkRequest TABLEREQ i
  | 379 => reqGroup (Group.req l) = i
  | 382 => Group.req l = mkRequest BILLREQ i
  | 383 => receptionistRequest m = mkRequest BILLREQ i
  | _ => True
  end%positive.

(** What is known of the private variables of the receptionist at some
    lines; [N] is [nGroups]. *)
Definition rassert (line : positive) (l : Receptionist.rvars) (N : Z) : Prop :=
  let R := Receptionist.groupRecord l in
  let gid := Receptionist.group_id l in
  let new := Receptionist.new_group_id l in
  let zero := forall j v, sel R j = Some v -> v = 0 in
  match line with
  | 110 => zero
  | 111 => zero /\ (0 <= Receptionist.g l)%Z
  | 112 => zero /\ (0 <= Receptionist.g l < N)%Z
  | 122 => reqType (Receptionist.req l) = TABLEREQ
  | 124 => reqType (Receptionist.req l) <> TABLEREQ
  | 125 => reqType (Receptionist.req l) = BILLREQ
  | 313 | 314 => (0 <= gid < N)%Z
  | 319 => (new > -1)%Z -> (0 <= new < N)%Z /\ sel R new = Some WAIT
  | 320 => (0 <= new < N)%Z /\ sel R new = Some WAIT
  | 325 | 326 => (0 <= new < N)%Z
  | _ => True
  end%positive.

(** A request as the protocol lets it be when posted: the first of its
    kind from a group of the day, whose record is still the one from
    before. *)
Definition valid (ph : Z -> phase) (R : list Z) (N : Z) (r : request) : Prop :=
  0 <= reqGroup r < N /\
  match reqType r with
  | TABLEREQ => ph (reqGroup r) = Queued /\ sel R (reqGroup r) = Some TOARRIVE
  | BILLREQ => ph (reqGroup r) = Leaving /\ sel R (reqGroup r) = Some ATTABLE
  | _ => False
  end.

(** The record the receptionist keeps of a group, against the phase the
    group is in and its table semaphore. *)
Definition grel (ph : phase) (r : option Z) (w : Z) (sig : Prop) : Prop :=
  match ph with
  | Arriving | Asking | Asked => r = Some TOARRIVE /\ w = 0
  | Queued =>
      (r = Some TOARRIVE /\ w = 0) \/ (r = Some WAIT /\ w = 0) \/
      (r = Some ATTABLE /\ ((w = 1 /\ ~ sig) \/ (w = 0 /\ sig)))
  | Seated | Paying | Billed => r = Some ATTABLE /\ w = 0
  | Leaving => (r = Some ATTABLE \/ r = Some DONE) /\ w = 0
  end.

(** The protocol between the groups and the receptionist, on what it
    depends on: the phase of every group, the two request semaphores, the
    table semaphores, the mailbox, and the point and variables of the
    receptionist. *)
Record Core (N : Z) (ph : Z -> phase) (rrp rr : Z) (wft : Z -> Z)
    (mbox : request) (line : positive) (rl : Receptionist.rvars) : Prop :=
  mkCore {
  c_len : 0 <= N <= Z.of_nat (length (Receptionist.groupRecord rl));
  c_rass : rassert line rl N;
  c_tok0 : 0 <= rrp /\ 0 <= rr /\
           rrp + rr + (if rslot line then 1 else 0) <= 1;
  c_tok1 : forall i, 0 <= i < N -> holds_slot (ph i) = true ->
           rrp = 0 /\ rr = 0 /\ rslot line = false;
  c_tok2 : forall i j, 0 <= i < N -> 0 <= j < N ->
           holds_slot (ph i) = true -> holds_slot (ph j) = true -> i = j;
  c_mbox : rr = 1 \/ reading line = true ->
           valid ph (Receptionist.groupRecord rl) N mbox;
  c_hand : forall r, handling line rl = Some r ->
           valid ph (Receptionist.groupRecord rl) N r /\
           (rr = 1 -> reqGroup mbox <> reqGroup r);
  c_sig : forall i, signalling line rl = Some i ->
          0 <= i < N /\ ph i = Queued /\
          sel (Receptionist.groupRecord rl) i = Some ATTABLE /\ wft i = 0;
  c_rel : forall i, 0 <= i < N ->
          grel (ph i) (sel (Receptionist.groupRecord rl) i) (wft i)
            (signalling line rl = Some i)
}.

Section Protocol.

Variable NT : Z.

(** The invariant of the protocol on a state: every process is at a point
    of its program and no group or receptionist has crashed, the arrays
    are long enough, and [Core] holds of the reception side. *)
Record Proto (s : state) (rc : prog Receptionist.rvars)
    (rl : Receptionist.rvars) : Prop := mkProto {
  p_rec : receptionist s = Live rc rl;
  p_rc : rc ∈ conts (Receptionist.main NT);
  p_wtr : match waiter s with
          | Live c _ => c ∈ conts Waiter.main
          | Dead _ => True
          end;
  p_N : nGroups (mem s) <= Z.of_nat (length (assignedTable (mem s))) /\
        nGroups (mem s) <= Z.of_nat (length (groupStat (st (mem s))));
  p_grp : forall i, 0 <= i < nGroups (mem s) ->
          exists c l, groups s i = Live c l /\ c ∈ conts Group.life /\
                      Group.n l = i /\ gassert (line_of c) l i (mem s);
  p_core : Core (nGroups (mem s)) (fun i => gphase (groups s i))
             (sems s sh.receptionistRequestPossible)
             (sems s sh.receptionistReq)
             (fun i => sems s (sh.waitForTable i))
             (receptionistRequest (mem s)) (line_of rc) rl
}.

Definition Inv (s : state) : Prop := exists rc rl, Proto s rc rl.

End Protocol.

(** ** Steps that leave the reception side alone *)

(** The part of the shared region that the steps of a group leave as it
    is. *)
Definition frame (m m' : FULL_STAT) : Prop :=
  nGroups m' = nGroups m /\ assignedTable m' = assignedTable m /\
  groupsWaiting m' = groupsWaiting m /\
  length (groupStat (st m')) = length (groupStat (st m)).

(** What one step of group [i] does to the reception side: nothing
    ([gm_quiet]), or one of the four steps of the request protocol, or
    the step by which it sits down. *)
Inductive gmove (i : Z) (m : FULL_STAT) (v : sh.sem -> Z) (ph : phase)
  : phase -> FULL_STAT -> (sh.sem -> Z) -> Prop :=
| gm_quiet m' v' :
    receptionistRequest m' = receptionistRequest m ->
    v' sh.receptionistRequestPossible = v sh.receptionistRequestPossible ->
    v' sh.receptionistReq = v sh.receptionistReq ->
    (forall j, v' (sh.waitForTable j) = v (sh.waitForTable j)) ->
    gmove i m v ph ph m' v'
| gm_take ph' :
    (ph = Arriving /\ ph' = Asking) \/ (ph = Seated /\ ph' = Paying) ->
    0 < v sh.receptionistRequestPossible ->
    gmove i m v ph ph' m
      (<[sh.receptionistRequestPossible :=
           v sh.receptionistRequestPossible - 1]> v)
| gm_write ph' k :
    (ph = Asking /\ ph' = Asked /\ k = TABLEREQ) \/
    (ph = Paying /\ ph' = Billed /\ k = BILLREQ) ->
    gmove i m v ph ph' (set_receptionistRequest (mkRequest k i) m) v
| gm_post ph' k :
    (ph = Asked /\ ph' = Queued /\ k = TABLEREQ) \/
    (ph = Billed /\ ph' = Leaving /\ k = BILLREQ) ->
    receptionistRequest m = mkRequest k i ->
    gmove i m v ph ph' m
      (<[sh.receptionistReq := v sh.receptionistReq + 1]> v)
| gm_sit :
    ph = Queued ->
    0 < v (sh.waitForTable i) ->
    gmove i m v ph Seated m
      (<[sh.waitForTable i := v (sh.waitForTable i) - 1]> v).

(** The waiter and the chef leave the reception side alone. *)
Definition same_reception (s s' : state) : Prop :=
  receptionist s' = receptionist s /\
  groups s' = groups s /\
  nGroups (mem s') = nGroups (mem s) /\
  assignedTable (mem s') = assignedTable (mem s) /\
  groupsWaiting (mem s') = groupsWaiting (mem s) /\
  receptionistRequest (mem s') = receptionistRequest (mem s) /\
  length (groupStat (st (mem s'))) = length (groupStat (st (mem s))) /\
  sems s' sh.receptionistRequestPossible = sems s sh.receptionistRequestPossible /\
  sems s' sh.receptionistReq = sems s sh.receptionistReq /\
  forall j, sems s' (sh.waitForTable j) = sems s (sh.waitForTable j).

(** ** What the two scans return *)

(** Table [t] is held by one of the groups 0 .. nGroups-1. *)
Definition taken (m : FULL_STAT) (t : Z) : Prop :=
  exists j, 0 <= j < nGroups m /\ sel (assignedTable m) j = Some t.

(** What decideTableOrWait returns: the lowest table nobody holds, or -1
    when every table is held. *)
Definition lowest_free (NT : Z) (m : FULL_STAT) (t : Z) : Prop :=
  (t = -1 /\ forall t', 0 <= t' < NT -> taken m t') \/
  (0 <= t < NT /\ ~ taken m t /\ forall t', 0 <= t' < t -> taken m t').

(** What decideNextGroup returns: the lowest group recorded as waiting, or
    -1 when nobody waits. *)
Definition lowest_waiting (R : list Z) (m : FULL_STAT) (w : Z) : Prop :=
  (w = -1 /\
   (groupsWaiting m <= 0 \/
    forall j, 0 <= j < nGroups m -> sel R j <> Some WAIT)) \/
  (0 < groupsWaiting m /\ 0 <= w < nGroups m /\ sel R w = Some WAIT /\
   forall j, 0 <= j < w -> sel R j <> Some WAIT).

(** A mark on the cases of a proof by cases on the line of the
    receptionist. *)
Definition at_line (p : positive) : Prop := True.

(** ** Tables and waiting count *)

(** No table is held by two groups. *)
Definition exclusive (N : Z) (a : list Z) : Prop :=
  forall i j t, 0 <= i < N -> 0 <= j < N ->
    sel a i = Some t -> sel a j = Some t -> t <> -1 -> i = j.

(** Table [t] is held by nobody. *)
Definition unheld (N : Z) (a : list Z) (t : Z) : Prop :=
  forall j, 0 <= j < N -> sel a j = Some t -> t = -1.

(** Number of entries of groupRecord equal to WAIT. *)
Definition countW (R : list Z) : Z :=
  Z.of_nat (length (filter (fun x => x = WAIT) R)).

(** Lines at which the receptionist has changed one of [groupsWaiting]
    and [groupRecord] and not yet the other. *)
Definition updating (line : positive) : bool :=
  match line with
  | 274 | 321 | 325 => true
  | _ => false
  end%positive.

(** What is known of [table_id] while the receptionist assigns a table. *)
Definition tassert (line : positive) (l : Receptionist.rvars) (N : Z)
    (a : list Z) : Prop :=
  match line with
  | 272 | 278 | 279 => unheld N a (Receptionist.table_id l)
  | 314 => sel a (Receptionist.group_id l) = Some (Receptionist.table_id l)
  | 317 | 318 | 319 | 320 | 321 | 325 | 326 =>
      unheld N a (Receptionist.table_id l)
  | _ => True
  end%positive.

(** The invariant of the tables and of the waiting count, on top of the
    protocol invariant. *)
Record Aux (N : Z) (a : list Z) (gw : Z) (line : positive)
    (l : Receptionist.rvars) : Prop := mkAux {
  x_excl : exclusive N a;
  x_tab : tassert line l N a;
  x_cnt : countW (Receptionist.groupRecord l) =
          gw - (if updating line then 1 else 0)
}.

(** What holds of every reachable state: the protocol invariant and, on
    top of it, the invariant of the tables and of the waiting count. *)
Definition Full (NT : Z) (s : state) : Prop :=
  exists rc rl, Proto NT s rc rl /\
    Aux (nGroups (mem s)) (assignedTable (mem s)) (groupsWaiting (mem s))
      (line_of rc) rl.

(** Is the receptionist inside a critical region, that is between a
    [semDown] and the next [semUp] of the lock?  [line] is the line of its
    next statement. *)
Definition critical (line : positive) : bool :=
  match line with
  | 209 | 210 | 212 | 233 | 235
  | 266 | 267 | 269 | 272 | 273 | 274 | 278 | 279 | 280 | 286
  | 309 | 310 | 311 | 313 | 314 | 317 | 318 | 319 | 320 | 321 | 325 | 326
  | 330 => true
  | _ => false
  end%positive.

(** ** Schedules *)

(** Which process moves. *)
Inductive actor : Set := TheReceptionist | TheWaiter | TheGroup (i : Z).

(** One move of the process [a], when it can move. *)
Definition fire (a : actor) (s : state) : option state :=
  match a with
  | TheReceptionist =>
      match move (receptionist s) (mem s) (sems s) with
      | Some (p', m', v') => Some (mkState m' v' p' (waiter s) (groups s))
      | None => None
      end
  | TheWaiter =>
      match move (waiter s) (mem s) (sems s) with
      | Some (p', m', v') => Some (mkState m' v' (receptionist s) p' (groups s))
      | None => None
      end
  | TheGroup i =>
      if bool_decide (0 <= i < nGroups (mem s)) then
        match move (groups s i) (mem s) (sems s) with
        | Some (p', m', v') =>
            Some (mkState m' v' (receptionist s) (waiter s)
                    (<[i := p']> (groups s)))
        | None => None
        end
      else None
  end.

(** The state after the moves of a schedule; a move that is not possible
    is skipped. *)
Fixpoint fires (sched : list actor) (s : state) : state :=
  match sched with
  | [] => s
  | a :: sched => fires sched (default s (fire a s))
  end.

(** Line, variables and program point of a process. *)
Definition line_at {L} (p : pstate L) : positive :=
  match p with Live c _ => line_of c | Dead _ => 1 end.

Definition vars_at {L} (d : L) (p : pstate L) : L :=
  match p with Live _ l => l | Dead _ => d end.

Definition prog_at {L} (p : pstate L) : prog L :=
  match p with Live c _ => c | Dead _ => Return end.

(** ** Runs of one process that end *)

(** The run ends within the fuel, and [Q] holds of where it ends and of
    what it did unless it ends in a crash. *)
Definition finishes {L} (E : env) (f i : nat) (p : prog L) (l : L)
    (m : FULL_STAT) (Q : L -> FULL_STAT -> list event -> Prop) : Prop :=
  exists res, run E f i p l m = Some res /\
    forall l' m', r_end res = Ok (l', m') -> Q l' m' (r_trace res).

(** The run ends within the fuel and without a crash, and [Q] holds of
    where it ends and of what it did. *)
Definition completes {L} (E : env) (f i : nat) (p : prog L) (l : L)
    (m : FULL_STAT) (Q : L -> FULL_STAT -> list event -> Prop) : Prop :=
  exists res l' m', run E f i p l m = Some res /\
    r_end res = Ok (l', m') /\ Q l' m' (r_trace res).

(** Number of [semUp] on [s] along [tr]. *)
Fixpoint ups (s : sh.sem) (tr : list event) : nat :=
  match tr with
  | [] => 0%nat
  | Eup s' :: tr' => if decide (s' = s) then S (ups s tr') else ups s tr'
  | _ :: tr' => ups s tr'
  end.

(** ** The lock *)

(** Is a group inside a critical region?  [line] is the line of its next
    statement in semSharedMemGroup.c. *)
Definition group_critical (line : positive) : bool :=
  match line with
  | 203 | 204 | 207 | 208 | 211 | 215 | 220
  | 261 | 262 | 265 | 266 | 272 | 273 | 276 | 278
  | 306 | 307 | 310 | 312 | 332 | 333 | 335
  | 371 | 372 | 377 | 378 | 379 | 382 | 383 | 388
  | 404 | 405 | 407 => true
  | _ => false
  end%positive.

(** Is the waiter inside a critical region?  [line] is the line of its
    next statement in semSharedMemWaiter.c. *)
Definition waiter_critical (line : positive) : bool :=
  match line with
  | 144 | 145 | 147 | 168 | 170
  | 203 | 204 | 206 | 207 | 209 | 211
  | 253 | 254 | 259 | 260 | 265 => true
  | _ => false
  end%positive.

(** A process that has crashed is inside nothing. *)
Definition inside {L} (crit : positive -> bool) (p : pstate L) : bool :=
  match p with
  | Live c _ => crit (line_of c)
  | Dead _ => false
  end.

(** What a step of a process does to the lock: it takes it and enters a
    critical region, or releases it and leaves the region, or leaves the
    lock alone and stays where it is. *)
Definition lock_move (before after_ : bool) (v v' : sh.sem -> Z) : Prop :=
  (before = false /\ after_ = true /\ 0 < v sh.mutex /\
   v' sh.mutex = v sh.mutex - 1) \/
  (before = true /\ after_ = false /\ v' sh.mutex = v sh.mutex + 1) \/
  (after_ = before /\ v' sh.mutex = v sh.mutex).

(** Who can hold the lock. *)
Inductive holder : Set := HReceptionist | HWaiter | HGroup (i : Z) | HChef.

(** Is [x] inside a critical region?  [chef_in] tells it of the chef. *)
Definition holds (s : state) (chef_in : bool) (x : holder) : bool :=
  match x with
  | HReceptionist => inside critical (receptionist s)
  | HWaiter => inside waiter_critical (waiter s)
  | HGroup i =>
      bool_decide (0 <= i < nGroups (mem s)) &&
      inside group_critical (groups s i)
  | HChef => chef_in
  end.

(** Modelled from the spec: a chef that keeps to the locking convention of
    Sections 2 and 3 of the specification (all mutable shared state is
    guarded by one lock, and its holders never nest it).  The source of
    the chef is not part of the repository.  The flag tells whether the
    chef is inside a critical region: it enters by a down of the lock,
    which has to be positive, it leaves by an up, and no other move of the
    chef touches the lock.  The three processes of the repository move as
    in [sys_step]. *)
Inductive polite_step : state * bool -> state * bool -> Prop :=
| process_moves s h a s' :
    fire a s = Some s' ->
    polite_step (s, h) (s', h)
| chef_locks s s' :
    chef s s' ->
    0 < sems s sh.mutex ->
    sems s' sh.mutex = sems s sh.mutex - 1 ->
    polite_step (s, false) (s', true)
| chef_unlocks s s' :
    chef s s' ->
    sems s' sh.mutex = sems s sh.mutex + 1 ->
    polite_step (s, true) (s', false)
| chef_works s h s' :
    chef s s' ->
    sems s' sh.mutex = sems s sh.mutex ->
    polite_step (s, h) (s', h).

Definition polite_reachable (NUMTABLES MAXGROUPS : Z) (s : state)
    (chef_in : bool) : Prop :=
  exists s0, initial NUMTABLES MAXGROUPS s0 /\
             rtc polite_step (s0, false) (s, chef_in).

(** The lock is free or taken; taken when somebody is inside; and nobody
    is inside with somebody else. *)
Definition Mx (s : state) (h : bool) : Prop :=
  (sems s sh.mutex = 0 \/ sems s sh.mutex = 1) /\
  (forall x, holds s h x = true -> sems s sh.mutex = 0) /\
  (forall x y, holds s h x = true -> holds s h y = true -> x = y).

(** ** Tables of the restaurant *)

(** No table, or one of the tables 0 .. NT-1. *)
Definition in_range (NT t : Z) : Prop := t = -1 \/ 0 <= t < NT.

(** What is known of [table_id] of the receptionist, line by line. *)
Definition trange (NT : Z) (line : positive) (l : Receptionist.rvars)
    : Prop :=
  match line with
  | 278 | 279 => (0 <= Receptionist.table_id l < NT)%Z
  | 272 | 314 | 317 | 318 | 319 | 320 | 321 | 325 | 326 =>
      in_range NT (Receptionist.table_id l)
  | _ => True
  end%positive.

(** Every entry of [assignedTable] is no table or a table of the
    restaurant, and so is the table the receptionist is about to write. *)
Definition Rng (NT N : Z) (a : list Z) (line : positive)
    (l : Receptionist.rvars) : Prop :=
  (forall i t, 0 <= i < N -> sel a i = Some t -> in_range NT t) /\
  trange NT line l.

(** The tables held by the groups of the day. *)
Definition tables_held (m : FULL_STAT) : list Z :=
  filter (fun t => t <> -1) (take (Z.to_nat (nGroups m)) (assignedTable m)).

(** The group the receptionist has recorded as ATTABLE and whose entry of
    [assignedTable] it is still to write. *)
Definition pending (line : positive) (l : Receptionist.rvars) : option Z :=
  match line with
  | 279 => Some (Receptionist.group_id l)
  | 321 | 325 | 326 => Some (Receptionist.new_group_id l)
  | _ => None
  end%positive.

(** The lines at which the receptionist uses [table_id]: it writes it into
    [assignedTable] in provideTableOrWaitingRoom and in receivePayment, and
    it signals the semaphore of the table that is free again. *)
Definition uses_table (line : positive) : Prop :=
  line = 279%positive \/ line = 326%positive \/ line = 335%positive.

(** Group [i] has one of the tables 0 .. NT-1. *)
Definition seated (NT : Z) (a : list Z) (i : Z) : Prop :=
  exists t, sel a i = Some t /\ 0 <= t < NT.

(** What is known of the table that is given back, line by line of
    receivePayment. *)
Definition tknown (NT : Z) (a : list Z) (line : positive)
    (l : Receptionist.rvars) : Prop :=
  let gid := Receptionist.group_id l in
  match line with
  | 313 => seated NT a gid /\ sel (Receptionist.groupRecord l) gid = Some DONE
  | 314 => (0 <= Receptionist.table_id l < NT)%Z /\
           sel (Receptionist.groupRecord l) gid = Some DONE
  | 317 | 318 | 319 | 320 | 321 | 325 | 326 | 330 | 335 =>
      (0 <= Receptionist.table_id l < NT)%Z
  | _ => True
  end%positive.

(** Every group recorded as ATTABLE has a table, but for the one whose
    table is about to be written. *)
Definition Seat (NT N : Z) (a : list Z) (line : positive)
    (l : Receptionist.rvars) : Prop :=
  (forall i, 0 <= i < N ->
     sel (Receptionist.groupRecord l) i = Some ATTABLE ->
     pending line l <> Some i -> seated NT a i) /\
  tknown NT a line l.

(** ** The table of a group *)

(** The three lines at which a group reads its entry of [assignedTable]:
    in orderFood, in waitFood and in checkOutAtReception. *)
Definition reads_table (line : positive) : Prop :=
  line = 276%positive \/ line = 310%positive \/ line = 377%positive.

(** Has the group read its table, in orderFood (line 276)?  [line] is the
    line of its next statement. *)
Definition knows_table (line : positive) : bool :=
  match line with
  | 278 | 284
  | 300 | 306 | 307 | 310 | 312 | 319 | 324 | 332 | 333 | 335
  | 166 | 169
  | 357 | 365 | 371 | 372 | 377 | 378 | 379 | 382 | 383 | 388 | 394 | 399
  | 404 | 405 | 407 | 1 => true
  | _ => false
  end%positive.

(** Every group that has read its table has read a table of the
    restaurant. *)
Definition GT (NT : Z) (s : state) : Prop :=
  forall i c l, 0 <= i < nGroups (mem s) -> groups s i = Live c l ->
    knows_table (line_of c) = true -> 0 <= Group.table_id l < NT.

(** ** Disciplines of a trace *)

(** A discipline is a rule that reads a trace event by event, from a state
    [q]; [observe] gives the state after the trace, and nothing when some
    event breaks the rule. *)
Fixpoint observe {Q} (rule : Q -> event -> option Q) (q : Q)
    (tr : list event) : option Q :=
  match tr with
  | [] => Some q
  | e :: tr' =>
      match rule q e with
      | Some q' => observe rule q' tr'
      | None => None
      end
  end.

(** Accesses to what the processes share and change.  The start and eat
    times are read only. *)
Definition shared (a : access) : bool :=
  match a with
  | Load (f_startTime _) | Load (f_eatTime _) => false
  | Load _ | Store _ | Scan => true
  | Private => false
  end.

(** The discipline of the lock; the state tells whether the process holds
    it.  The lock is taken when free and released when held; the shared
    region is read, written and saved under the lock only; the process
    neither waits on another semaphore nor sleeps while it holds the
    lock. *)
Definition lock_rule (held : bool) (e : event) : option bool :=
  match e with
  | Edown s => if held then None else Some (bool_decide (s = sh.mutex))
  | Eup s =>
      if bool_decide (s = sh.mutex) then (if held then Some false else None)
      else Some held
  | Esave _ => if held then Some true else None
  | Eacc a => if shared a && negb held then None else Some held
  | Esleep => if held then None else Some false
  end.

(** The discipline of the log; the state tells whether a status has been
    written and not yet saved.  The write of a status is followed at once
    by [saveState]. *)
Definition log_rule (dirty : bool) (e : event) : option bool :=
  match e with
  | Esave _ => Some false
  | Eacc (Store (f_groupStat _)) | Eacc (Store f_receptionistStat)
  | Eacc (Store f_waiterStat) => if dirty then None else Some true
  | _ => if dirty then None else Some false
  end.

(** Every run of [p], in every environment and however it ends, follows
    the rule from [q]; a run that ends without a crash ends in [qf]. *)
Definition follows {Q L} (rule : Q -> event -> option Q) (p : prog L)
    (q qf : Q) : Prop :=
  forall E (f i : nat) l m res,
    run E f i p l m = Some res ->
    exists q', observe rule q (r_trace res) = Some q' /\
      forall l' m', r_end res = Ok (l', m') -> q' = qf.

(** ** The initialisation of the receptionist *)

(** Lines 110-113 of the receptionist: the initialisation of
    [groupRecord], on its own. *)
Definition init_groupRecord : prog Receptionist.rvars :=
  stmt 110 (fun _ => Private) (fun l m => Ok (Receptionist.set_g 0 l, m)) ;;
  While 111 (fun l m => Receptionist.g l <? nGroups m)
    (stmt 112 (fun _ => Private)
       (fun l m =>
          obind (aset (Receptionist.groupRecord l) (Receptionist.g l) TOARRIVE)
            (fun r =>
               Ok (Receptionist.set_g (Receptionist.g l + 1)
                     (Receptionist.set_groupRecord r l), m))))
    Return.

(** ** Executions of the system and their counts *)


#[global] Instance actor_eq_dec : EqDecision actor.
Proof. solve_decision. Defined.























(** ** A chef at work, and scripts *)





(** ** Messages of the start of a group process *)

(** What a process writes when it gives up at its start: a line written
    with [fprintf] on [stderr], which may have been reopened on a file, or
    a call of [perror], which writes its argument followed by the reason
    of the failure. *)
Inductive complaint : Set :=
| Fprintf (reopened_on : option string) (text : string)
| Perror (text : string).

(** The end of a line. *)
Definition nl : string := String (Ascii.ascii_of_nat 10) EmptyString.

(** Lines 66-100 of semSharedMemGroup.c, for what they write: nothing
    when every check passes, and else the message of the first check that
    fails.  [freopen] at line 67 reopens [stderr] on the file error_GR
    before the message on the number of arguments is written. *)
Definition startup_complaint (MAXGROUPS : Z) (strtol : string -> Z * string)
    (argv : list string) (os : Group.ipc) : option complaint :=
  if bool_decide (length argv = 5%nat) then
    let '(v, tinp) := strtol (default EmptyString (argv !! 1%nat)) in
    let n := Group.to_int v in
    if negb (bool_decide (tinp = EmptyString)) || (n >=? MAXGROUPS) then
      Some (Fprintf None
              (String.append "Group process identification is wrong!" nl))
    else
      let '(_, tinp) := strtol (default EmptyString (argv !! 3%nat)) in
      if negb (bool_decide (tinp = EmptyString)) then
        Some (Fprintf None
                (String.append "Error on the access key communication!" nl))
      else if negb (Group.semConnect os) then
        Some (Perror "error on connecting to the semaphore set")
      else if negb (Group.shmemConnect os) then
        Some (Perror "error on connecting to the shared memory region")
      else if negb (Group.shmemAttach os) then
        Some (Perror
                "error on mapping the shared region on the process address space")
      else None
  else
    Some (Fprintf (Some "error_GR")
            (String.append "Number of parameters is incorrect!" nl)).

(** ** Conditions *)

(** The condition that is evaluated next, when the next step is the test
    of a branch or of a loop. *)
Definition test_of {L} (p : prog L) : option (L -> FULL_STAT -> bool) :=
  match p with
  | If _ c _ _ | While _ c _ _ => Some c
  | _ => None
  end.

(** A condition reads the shared region when its value depends on it. *)
Definition reads_shared {L} (c : L -> FULL_STAT -> bool) : Prop :=
  exists l m m', c l m <> c l m'.

(** ** States and inputs of the examples *)

(** A waiter serving group 0, seated at table 0. *)
Definition waiter_at_work : Waiter.wvars :=
  Waiter.mkWvars 1 (mkRequest FOODREADY 0) (mkRequest FOODREADY 0) 0 0.

Definition one_group_seated : FULL_STAT :=
  mkFULL_STAT (mkSTAT [WAIT_FOR_FOOD] WAIT_FOR_REQUEST WAIT_FOR_REQUEST)
    1 [0] 0 (mkRequest TABLEREQ 0) (mkRequest FOODREADY 0) 0 0.

(** Group 0, seated at table 0, about to order. *)
Definition group_seated : Group.gvars :=
  Group.mkGvars 0 (mkRequest TABLEREQ 0) 0.

Definition one_group_at_reception : FULL_STAT :=
  mkFULL_STAT (mkSTAT [ATRECEPTION] ASSIGNTABLE WAIT_FOR_REQUEST)
    1 [0] 0 (mkRequest TABLEREQ 0) (mkRequest FOODREADY 0) 0 0.

(** Two groups and one table. *)
Definition opening : state :=
  mkState
    (mkFULL_STAT (mkSTAT [GOING; GOING] WAIT_FOR_REQUEST WAIT_FOR_REQUEST)
       2 [-1; -1] 0 (mkRequest TABLEREQ 0) (mkRequest FOODREQ 0) 0 0)
    (fun x => match x with
              | sh.mutex | sh.receptionistRequestPossible
              | sh.waiterRequestPossible => 1
              | _ => 0
              end)
    (Live (Receptionist.main 1)
       (Receptionist.mkRvars [0; 0] 0 0 (mkRequest TABLEREQ 0)
          (mkRequest TABLEREQ 0) 0 0 0))
    (Live Waiter.main
       (Waiter.mkWvars 0 (mkRequest FOODREQ 0) (mkRequest FOODREQ 0) 0 0))
    (fun i => Live Group.life (Group.mkGvars i (mkRequest TABLEREQ 0) 0)).

Definition no_vars : Receptionist.rvars :=
  Receptionist.mkRvars [] 0 0 (mkRequest TABLEREQ 0) (mkRequest TABLEREQ 0)
    0 0 0.

(** The receptionist initialises and waits; group 0 asks for a table; the
    receptionist takes the request and is about to call
    [decideTableOrWait]. *)
Definition deciding : state :=
  fires (replicate 40 TheReceptionist ++ replicate 40 (TheGroup 0) ++
         replicate 11 TheReceptionist) opening.

(** Group 0 has been seated at the only table and group 1, who asked next,
    has been told to wait. *)
Definition one_queued : state :=
  fires (replicate 40 TheReceptionist ++ replicate 40 (TheGroup 0) ++
         replicate 40 TheReceptionist ++ replicate 40 (TheGroup 1) ++
         replicate 40 TheReceptionist) opening.

(** [strtol] on unsigned decimal numerals: the digits read so far are worth
    [acc]. *)
Fixpoint read_digits (s : string) (acc : Z) : Z * string :=
  match s with
  | EmptyString => (acc, s)
  | String c s' =>
      let d := Z.of_nat (Ascii.nat_of_ascii c) - 48 in
      if (0 <=? d) && (d <=? 9) then read_digits s' (acc * 10 + d)
      else (acc, s)
  end.

Definition strtol_decimal (s : string) : Z * string := read_digits s 0.

(** A restaurant laid out for ten groups ([MAXGROUPS]) on a day with one
    group. *)
Definition day_of_one_group : FULL_STAT :=
  mkFULL_STAT (mkSTAT (replicate 10 GOING) WAIT_FOR_REQUEST WAIT_FOR_REQUEST)
    1 (replicate 10 (-1)) 0 (mkRequest TABLEREQ 0) (mkRequest FOODREQ 0) 0 0.

(** Every connection call succeeds. *)
Definition all_connected : Group.ipc := Group.mkIpc true true true true.

(** The other processes on a day with one group, as the receptionist and
    the waiter see them: a request is in each mailbox whenever they look,
    first the request for a table and the order, later the bill and the
    food. *)
Definition one_group_served : env :=
  mkEnv
    (fun i m =>
       if (i <? 27)%nat then
         set_waiterRequest (mkRequest FOODREQ 0)
           (set_receptionistRequest (mkRequest TABLEREQ 0) m)
       else
         set_waiterRequest (mkRequest FOODREADY 0)
           (set_receptionistRequest (mkRequest BILLREQ 0) m))
    (fun _ => false).

(** The three kinds of process at their start, on a day with one group
    and nobody seated. *)
Definition receptionist_at_start : Receptionist.rvars :=
  Receptionist.mkRvars [0] 1 0 (mkRequest TABLEREQ 0) (mkRequest TABLEREQ 0)
    0 0 0.

Definition waiter_at_start : Waiter.wvars :=
  Waiter.mkWvars 0 (mkRequest FOODREQ 0) (mkRequest FOODREQ 0) 0 0.

Definition one_group_going : FULL_STAT :=
  mkFULL_STAT (mkSTAT [GOING] WAIT_FOR_REQUEST WAIT_FOR_REQUEST)
    1 [-1] 0 (mkRequest TABLEREQ 0) (mkRequest FOODREQ 0) 0 0.

Definition group_at_start : Group.gvars :=
  Group.mkGvars 0 (mkRequest TABLEREQ 0) 0.

(** Group 0 pays while group 1 waits for the only table. *)
Definition receptionist_billing : Receptionist.rvars :=
  Receptionist.mkRvars [ATTABLE; WAIT] 2 3 (mkRequest BILLREQ 0)
    (mkRequest BILLREQ 0) 0 0 0.

Definition one_group_queued : FULL_STAT :=
  mkFULL_STAT (mkSTAT [CHECKOUT; ATRECEPTION] WAIT_FOR_REQUEST WAIT_FOR_REQUEST)
    2 [0; -1] 1 (mkRequest BILLREQ 0) (mkRequest FOODREADY 0) 0 0.

(** The receptionist is about to write the table of group 0 into
    [assignedTable]. *)
Definition seating : state :=
  fires (replicate 40 TheReceptionist ++ replicate 40 (TheGroup 0) ++
         replicate 14 TheReceptionist) opening.

(** Group 0 has been given table 0 and is about to read it, in
    orderFood. *)
Definition reading_table : state :=
  fires (replicate 40 TheReceptionist ++ replicate 40 (TheGroup 0) ++
         replicate 40 TheReceptionist ++ replicate 9 (TheGroup 0)) opening.

(** Group 0 has placed its order and waits for the waiter at its table. *)
Definition order_placed : state :=
  fires (replicate 40 TheReceptionist ++ replicate 40 (TheGroup 0) ++
         replicate 40 TheReceptionist ++ replicate 40 (TheGroup 0)) opening.

(** Group 0 has written its request for a table into the mailbox and is
    about to signal it. *)
Definition posting : state :=
  fires (replicate 40 TheReceptionist ++ replicate 9 (TheGroup 0)) opening.

(** The receptionist has taken the first request of the day, that of group
    0, and is about to read it from the mailbox. *)
Definition reading_request : state :=
  fires (replicate 40 TheReceptionist ++ replicate 40 (TheGroup 0) ++
         replicate 2 TheReceptionist) opening.

(** A request for food in the mailbox of the receptionist. *)
Definition stray_order : FULL_STAT :=
  set_receptionistRequest (mkRequest FOODREQ 0) one_group_going.

(** A bill in the mailbox of the waiter. *)
Definition stray_bill : FULL_STAT :=
  set_waiterRequest (mkRequest BILLREQ 0) one_group_going.




(* ================================================================== *)
(** * Properties *)

Set Warnings "-clear-no-such-hyp".

Section RunFacts.

Context {L : Type}.

Implicit Types (p q : prog L) (E : env) (l : L) (m : FULL_STAT).

(** More fuel does not change a result. *)
Lemma run_fuel_mono E (f f' : nat) i p l m r :
  run E f i p l m = Some r -> (f <= f')%nat -> run E f' i p l m = Some r.
Proof.
  revert f' i p l m r.
  induction f as [|f IH]; intros f' i p l m r H Hle; [done|].
  destruct f' as [|f']; [lia|]. simpl in *.
  destruct (step p l (interference E i m)) as [[a o]|]; [|done].
  destruct (is_sem_op a && sem_fails E i); [done|].
  destruct o as [[[p' l'] m']|c]; [|done].
  destruct (run E f (S i) p' l' m') as [[e tr j]|] eqn:Hr; [|done].
  rewrite (IH f' _ _ _ _ _ Hr); [done|lia].
Qed.

(** One more statement in front of a run. *)
Lemma run_cons E (f : nat) i p l m a p' l' m' r :
  step p l (interference E i m) = Some (a, Ok (p', l', m')) ->
  is_sem_op a && sem_fails E i = false ->
  run E f (S i) p' l' m' = Some r ->
  run E (S f) i p l m =
    Some (mkResult (r_end r) (event_of a ++ r_trace r) (r_steps r)).
Proof. intros Hs Hf Hr. simpl. rewrite Hs, Hf, Hr. by destruct r. Qed.

(** A program that has returned. *)
Lemma run_return E (f : nat) i l m :
  run E (S f) i Return l m = Some (mkResult (Ok (l, m)) [] i).
Proof. done. Qed.

(** [;;] is a monoid on programs. *)
Lemma seq_Return_r p : pseq p Return = p.
Proof. induction p; simpl; congruence. Qed.

Lemma seq_assoc p q k : pseq (pseq p q) k = pseq p (pseq q k).
Proof. induction p; simpl; congruence. Qed.

(** A step of [p ;; q] is a step of [p] as long as [p] has not returned. *)
Lemma step_seq p q l m :
  step (pseq p q) l m =
    match step p l m with
    | None => step q l m
    | Some (a, Ok (p', l', m')) => Some (a, Ok (pseq p' q, l', m'))
    | Some (a, Crash c) => Some (a, Crash c)
    end.
Proof.
  destruct p; simpl; try done.
  - destruct (f l m) as [[??]|]; done.
  - destruct (c l m); done.
  - destruct (c l m); [|done]. by rewrite seq_assoc.
Qed.

(** A run of [p ;; q] is a run of [p] followed by a run of [q]. *)
Lemma run_seq E (f1 f2 : nat) i p q l m r1 l1 m1 r2 :
  run E f1 i p l m = Some r1 ->
  r_end r1 = Ok (l1, m1) ->
  run E f2 (r_steps r1) q l1 m1 = Some r2 ->
  run E (f1 + f2) i (pseq p q) l m =
    Some (mkResult (r_end r2) (r_trace r1 ++ r_trace r2) (r_steps r2)).
Proof.
  revert i p l m r1.
  induction f1 as [|f1 IH]; intros i p l m r1 H1 He H2; [done|].
  simpl in H1. destruct (step p l (interference E i m)) as [[a o]|] eqn:Hs.
  - destruct (is_sem_op a && sem_fails E i) eqn:Hf.
    { simplify_eq/=. }
    destruct o as [[[p' l'] m']|c]; [|by simplify_eq/=].
    destruct (run E f1 (S i) p' l' m') as [[e tr j]|] eqn:Hr; [|done].
    simplify_eq/=. rewrite step_seq, Hs, Hf.
    erewrite IH; [|done..]. simpl. by rewrite app_assoc.
  - simplify_eq/=. destruct p; simplify_eq/=.
    eapply run_fuel_mono in H2; [|apply (Nat.le_add_l _ (S f1))].
    replace (S f1 + f2)%nat with (S (f1 + f2)) in H2 by lia.
    destruct r2; simpl in *. done.
Qed.

(** A run that crashes in [p] crashes in [p ;; q] in the same way. *)
Lemma run_seq_crash E (f : nat) i p q l m r c :
  run E f i p l m = Some r ->
  r_end r = Crash c ->
  run E f i (pseq p q) l m = Some r.
Proof.
  revert i p l m r.
  induction f as [|f IH]; intros i p l m r H He; [done|].
  simpl in *. rewrite step_seq.
  destruct (step p l (interference E i m)) as [[a o]|] eqn:Hs.
  - destruct o as [[[p' l'] m']|c']; simpl;
      destruct (is_sem_op a && sem_fails E i); try done.
    destruct (run E f (S i) p' l' m') as [[e tr j]|] eqn:Hr; [|done].
    simplify_eq/=. by erewrite IH; [|done..].
  - simplify_eq/=.
Qed.

End RunFacts.

(** Reads and writes within the bounds of an array succeed. *)
Lemma aset_ok {A} (a : list A) (i : Z) (v : A) :
  0 <= i < Z.of_nat (length a) -> aset a i v = Ok (<[Z.to_nat i := v]> a).
Proof.
  intros [H1 H2]. unfold aset.
  by rewrite (proj2 (Z.leb_le _ _) H1), (proj2 (Z.ltb_lt _ _) H2).
Qed.

Lemma aset_Ok_inv {A} (a b : list A) (i : Z) (v : A) :
  aset a i v = Ok b ->
  0 <= i < Z.of_nat (length a) /\ b = <[Z.to_nat i := v]> a.
Proof.
  unfold aset. destruct (0 <=? i) eqn:H1; [|done].
  destruct (i <? Z.of_nat (length a)) eqn:H2; [|done].
  intros [= <-]. split; [lia|done].
Qed.

Lemma aget_Ok {A} (a : list A) (i : Z) (v : A) :
  aget a i = Ok v <-> 0 <= i /\ a !! Z.to_nat i = Some v.
Proof.
  unfold aget. destruct (0 <=? i) eqn:H1.
  - destruct (a !! Z.to_nat i) as [w|].
    + split; [intros [= ->]; split; [lia|done] | by intros [_ [= ->]]].
    + split; [done | by intros [_ ?]].
  - split; [done|lia].
Qed.

Lemma aget_ok {A} (a : list A) (i : Z) :
  0 <= i < Z.of_nat (length a) -> exists v, aget a i = Ok v.
Proof.
  intros [H1 H2]. destruct (lookup_lt_is_Some_2 a (Z.to_nat i)) as [v Hv];
    [lia|].
  exists v. apply aget_Ok. split; [lia|done].
Qed.

(** The snapshots of a trace in two parts. *)
Lemma persisted_app g tr1 tr2 :
  persisted g (tr1 ++ tr2) = persisted g tr1 ++ persisted g tr2.
Proof.
  induction tr1 as [|e tr1 IH]; [done|].
  destruct e; simpl; try done.
  destruct (groupStat (st m) !! g); simpl; congruence.
Qed.

(** ** The waiter takes the food to the table *)

(** C7, as the code has it: under the state lock the waiter sets its status
    to TAKE_TO_TABLE, persists the state and reads the table of the group;
    it signals the food-arrived semaphore of that table while it still holds
    the lock, and releases the lock last. *)
Theorem C7_takeFoodToTable_steps (l : Waiter.wvars) (m : FULL_STAT) (t : Z) :
  aget (assignedTable m) (Waiter.group_id l) = Ok t ->
  run quiet 7 0 Waiter.takeFoodToTable l m =
    Some {| r_end := Ok (Waiter.set_table_id t l,
                         set_waiterStat TAKE_TO_TABLE m);
            r_trace :=
              [ Edown sh.mutex;
                Eacc (Store f_waiterStat);
                Esave (set_waiterStat TAKE_TO_TABLE m);
                Eacc (Load (f_assignedTable (Waiter.group_id l)));
                Eup (sh.foodArrived t);
                Eup sh.mutex ];
            r_steps := 6 |}.
Proof. intros H. cbn. rewrite H. reflexivity. Qed.

(** C7 for the waiter [waiter_at_work]. *)
Lemma C7_takeFoodToTable_steps_witness :
  r_trace <$> run quiet 7 0 Waiter.takeFoodToTable waiter_at_work
                one_group_seated =
  Some [ Edown sh.mutex;
         Eacc (Store f_waiterStat);
         Esave (set_waiterStat TAKE_TO_TABLE one_group_seated);
         Eacc (Load (f_assignedTable 0));
         Eup (sh.foodArrived 0);
         Eup sh.mutex ].
Proof.
  rewrite (C7_takeFoodToTable_steps waiter_at_work one_group_seated 0);
    reflexivity.
Defined.

(** C7 as the specification words it (the food-arrived signal comes after
    the release of the lock) fails on this run. *)
Lemma C7_signal_after_release_fails :
  exists r,
    run quiet 7 0 Waiter.takeFoodToTable waiter_at_work one_group_seated
      = Some r /\
    ~ precedes (Eup sh.mutex) (Eup (sh.foodArrived 0)) (r_trace r).
Proof.
  eexists; split; [vm_compute; reflexivity|].
  intros (i & j & Hlt & Hi & Hj). cbn in Hi, Hj.
  do 7 (try (destruct i as [|i]; simplify_eq/=));
  do 7 (try (destruct j as [|j]; simplify_eq/=)); lia.
Qed.

(** ** The group orders its food *)

(** C8, as the code has it: with the waiter permit and the state lock
    taken, the group first fills the request and writes it into the waiter
    mailbox, signals that a request is posted, only then sets its status to
    FOOD_REQUEST and persists the state, reads its table, releases the lock
    and waits on the order-received semaphore of that table. *)
Theorem C8_orderFood_steps (l : Group.gvars) (m : FULL_STAT)
    (a : list status) (t : Z) :
  aset (groupStat (st m)) (Group.n l) FOOD_REQUEST = Ok a ->
  aget (assignedTable m) (Group.n l) = Ok t ->
  let order := mkRequest FOODREQ (Group.n l) in
  let m' := set_groupStat a (set_waiterRequest order m) in
  run quiet 12 0 Group.orderFood l m =
    Some {| r_end := Ok (Group.set_table_id t (Group.set_req order l), m');
            r_trace :=
              [ Edown sh.waiterRequestPossible;
                Edown sh.mutex;
                Eacc Private;
                Eacc Private;
                Eacc (Store f_waiterRequest);
                Eup sh.waiterRequest;
                Eacc (Store (f_groupStat (Group.n l)));
                Esave m';
                Eacc (Load (f_assignedTable (Group.n l)));
                Eup sh.mutex;
                Edown (sh.requestReceived t) ];
            r_steps := 11 |}.
Proof.
  intros Ha Ht order m'. cbn. unfold Group.store_groupStat. cbn.
  rewrite Ha. cbn. unfold Group.load_table. cbn. rewrite Ht. reflexivity.
Qed.

(** C8 for the group [group_seated]. *)
Lemma C8_orderFood_steps_witness :
  r_end <$> run quiet 12 0 Group.orderFood group_seated one_group_at_reception
  = Some (Ok (Group.mkGvars 0 (mkRequest FOODREQ 0) 0,
              mkFULL_STAT (mkSTAT [FOOD_REQUEST] ASSIGNTABLE WAIT_FOR_REQUEST)
                1 [0] 0 (mkRequest TABLEREQ 0) (mkRequest FOODREQ 0) 0 0)).
Proof.
  rewrite (C8_orderFood_steps group_seated one_group_at_reception
             [FOOD_REQUEST] 0); reflexivity.
Defined.

(** C8 as the specification words it (status set and persisted before the
    request is written into the waiter mailbox) fails on this run. *)
Lemma C8_status_before_mailbox_fails :
  exists r,
    run quiet 12 0 Group.orderFood group_seated one_group_at_reception
      = Some r /\
    ~ precedes (Eacc (Store (f_groupStat 0))) (Eacc (Store f_waiterRequest))
        (r_trace r).
Proof.
  eexists; split; [vm_compute; reflexivity|].
  intros (i & j & Hlt & Hi & Hj). cbn in Hi, Hj.
  do 12 (try (destruct i as [|i]; simplify_eq/=));
  do 12 (try (destruct j as [|j]; simplify_eq/=)); lia.
Qed.

(** ** Program points *)

Section Conts.

Context {L : Type}.

Implicit Types p q c : prog L.

(** [conts p] is closed under [step]: a process started at [p] is always
    at one of these points. *)
Lemma conts_self p : p ∈ conts p.
Proof. destruct p; simpl; apply list_elem_of_here. Qed.

Lemma conts_step p c l m a c' l' m' :
  c ∈ conts p ->
  step c l m = Some (a, Ok (c', l', m')) ->
  c' ∈ conts p.
Proof.
  revert c c' a l m l' m'.
  induction p as [|n s k IH|n s k IH|n k IH|n ac f k IH|n k IH
                 |n cnd p1 IH1 p2 IH2|n cnd b IHb k IHk];
    intros c c' a l m l' m' Hin Hs; simpl in Hin.
  - apply list_elem_of_singleton in Hin as ->. done.
  - apply elem_of_cons in Hin as [->|Hin].
    + simpl in Hs. simplify_eq. simpl. right. apply conts_self.
    + simpl. right. eauto.
  - apply elem_of_cons in Hin as [->|Hin].
    + simpl in Hs. simplify_eq. simpl. right. apply conts_self.
    + simpl. right. eauto.
  - apply elem_of_cons in Hin as [->|Hin].
    + simpl in Hs. simplify_eq. simpl. right. apply conts_self.
    + simpl. right. eauto.
  - apply elem_of_cons in Hin as [->|Hin].
    + simpl in Hs. destruct (f l m) as [[??]|]; simplify_eq.
      simpl. right. apply conts_self.
    + simpl. right. eauto.
  - apply elem_of_cons in Hin as [->|Hin].
    + simpl in Hs. simplify_eq. simpl. right. apply conts_self.
    + simpl. right. eauto.
  - apply elem_of_cons in Hin as [->|Hin].
    + simpl in Hs. simplify_eq. simpl. right. apply elem_of_app.
      destruct (cnd l' m'); [left|right]; apply conts_self.
    + simpl. right. apply elem_of_app.
      apply elem_of_app in Hin as [Hin|Hin]; [left|right]; eauto.
  - assert (Hw : forall l0 m0 a0 c0 l1 m1,
               step (While n cnd b k) l0 m0 = Some (a0, Ok (c0, l1, m1)) ->
               c0 ∈ conts (While n cnd b k)).
    { intros l0 m0 a0 c0 l1 m1 H0. simpl in H0. simplify_eq. simpl. right.
      apply elem_of_app. destruct (cnd l1 m1).
      - left. apply list_elem_of_fmap. eexists; split; [done|]. apply conts_self.
      - right. apply conts_self. }
    apply elem_of_cons in Hin as [->|Hin]; [eauto|].
    apply elem_of_app in Hin as [Hin|Hin].
    + apply list_elem_of_fmap in Hin as (b' & -> & Hb').
      rewrite step_seq in Hs.
      destruct (step b' l m) as [[a0 [[[b'' l0] m0]|x]]|] eqn:Hb; simplify_eq.
      * simpl. right. apply elem_of_app. left.
        apply list_elem_of_fmap. eexists; split; [done|]. eauto.
      * eauto.
    + simpl. right. apply elem_of_app. right. eauto.
Qed.

End Conts.

(** ** Arrays *)

Ltac unfold_progs_in H :=
  cbn [conts pseq app map fmap list_fmap
       Group.life Group.goToRestaurant Group.checkInAtReception Group.orderFood
       Group.waitFood Group.eat Group.checkOutAtReception
       Receptionist.main Receptionist.service_loop Receptionist.turn
       Receptionist.waitForGroup Receptionist.provideTableOrWaitingRoom
       Receptionist.receivePayment
       Waiter.main Waiter.turn Waiter.waitForClientOrChef Waiter.informChef
       Waiter.takeFoodToTable
       semDown semUp stmt saveState usleep] in H.

Ltac comp_step H :=
  cbn [step line_of pseq
       Group.life Group.goToRestaurant Group.checkInAtReception Group.orderFood
       Group.waitFood Group.eat Group.checkOutAtReception
       Receptionist.main Receptionist.service_loop Receptionist.turn
       Receptionist.waitForGroup Receptionist.provideTableOrWaitingRoom
       Receptionist.receivePayment
       Waiter.main Waiter.turn Waiter.waitForClientOrChef Waiter.informChef
       Waiter.takeFoodToTable
       semDown semUp stmt saveState usleep] in H.

Ltac enum H :=
  unfold_progs_in H;
  repeat (apply elem_of_cons in H as [->|H]);
  [..|by apply elem_of_nil in H].

(** [aget] and [aset] in terms of [sel] and [upd]. *)
Lemma aget_sel {A} (a : list A) i v : aget a i = Ok v <-> sel a i = Some v.
Proof.
  rewrite aget_Ok. unfold sel. destruct (decide (0 <= i)); [|split; [lia|done]].
  split; [by intros [_ ?]|done].
Qed.

Lemma sel_Some_bound {A} (a : list A) i v :
  sel a i = Some v -> 0 <= i < Z.of_nat (length a).
Proof.
  unfold sel. destruct (decide (0 <= i)); [|done].
  intros H%lookup_lt_Some. lia.
Qed.

Lemma sel_is_Some {A} (a : list A) i :
  0 <= i < Z.of_nat (length a) -> exists v, sel a i = Some v.
Proof.
  intros [H1 H2]. unfold sel. rewrite decide_True by done.
  apply lookup_lt_is_Some_2. lia.
Qed.

Lemma aget_sel_ok {A} (a : list A) i :
  0 <= i < Z.of_nat (length a) -> exists v, aget a i = Ok v /\ sel a i = Some v.
Proof.
  intros H. destruct (sel_is_Some a i H) as [v Hv]. exists v.
  split; [by apply aget_sel|done].
Qed.

Lemma aset_upd {A} (a : list A) i v :
  0 <= i < Z.of_nat (length a) -> aset a i v = Ok (upd a i v).
Proof. apply aset_ok. Qed.

Lemma length_upd {A} (a : list A) i v : length (upd a i v) = length a.
Proof. apply length_insert. Qed.

Lemma sel_upd_eq {A} (a : list A) i v :
  0 <= i < Z.of_nat (length a) -> sel (upd a i v) i = Some v.
Proof.
  intros [H1 H2]. unfold sel, upd. rewrite decide_True by done.
  apply list_lookup_insert_eq. lia.
Qed.

Lemma sel_upd_ne {A} (a : list A) i j v :
  0 <= i -> i <> j -> sel (upd a i v) j = sel a j.
Proof.
  intros H1 H2. unfold sel, upd. destruct (decide (0 <= j)); [|done].
  apply list_lookup_insert_ne. lia.
Qed.

(** ** Steps of a group *)

(** A move of a process is a step of its program that is enabled. *)
Lemma move_live {L} (c : prog L) l m v p' m' v' :
  move (Live c l) m v = Some (p', m', v') ->
  exists a o, step c l m = Some (a, o) /\ enabled v a = true /\
    match o with
    | Ok (c', l', m1) => p' = Live c' l' /\ m' = m1 /\ v' = after v a
    | Crash x => p' = Dead x /\ m' = m /\ v' = v
    end.
Proof.
  unfold move. destruct (step c l m) as [[a o]|]; [|done].
  destruct (enabled v a) eqn:He; [|done].
  intros [= <- <- <-]%(inj Some) || intros H.
  all: exists a, o; split; [done|]; split; [done|].
  all: destruct o as [[[c' l'] m1]|x]; simplify_eq/=; done.
Qed.

(** The two array accesses of a group succeed within the bounds. *)
Lemma store_groupStat_ok x l m :
  0 <= Group.n l < Z.of_nat (length (groupStat (st m))) ->
  Group.store_groupStat x l m =
    Ok (l, set_groupStat (upd (groupStat (st m)) (Group.n l) x) m).
Proof. intros H. unfold Group.store_groupStat. by rewrite aset_upd. Qed.

Lemma load_table_ok l m :
  0 <= Group.n l < Z.of_nat (length (assignedTable m)) ->
  exists t, Group.load_table l m = Ok (Group.set_table_id t l, m).
Proof.
  intros H. unfold Group.load_table.
  destruct (aget_sel_ok (assignedTable m) (Group.n l) H) as (t & -> & _).
  by exists t.
Qed.

Ltac sem_ne := 
  unfold after; rewrite ?fn_lookup_insert_ne by discriminate; try reflexivity.

(** A step of group [i] leaves it at a point of its program, never ends
    it by a crash, and is one of the moves of [gmove]. *)
Lemma group_move c l m v p' m' v' i :
  c ∈ conts Group.life ->
  Group.n l = i ->
  0 <= i < Z.of_nat (length (groupStat (st m))) ->
  0 <= i < Z.of_nat (length (assignedTable m)) ->
  gassert (line_of c) l i m ->
  move (Live c l) m v = Some (p', m', v') ->
  exists c' l',
    p' = Live c' l' /\ c' ∈ conts Group.life /\ Group.n l' = i /\
    gassert (line_of c') l' i m' /\ frame m m' /\
    gmove i m v (phase_of (line_of c)) (phase_of (line_of c')) m' v'.
Proof.
  intros Hc Hn Hb1 Hb2 Hga Hm.
  apply move_live in Hm as (a & o & Hs & He & Ho).
  assert (Hcl : forall c' l' m1, o = Ok (c', l', m1) -> c' ∈ conts Group.life).
  { intros c' l' m1 ->. by eapply (conts_step _ _ _ _ _ _ _ _ Hc). }
  subst i.
  destruct (load_table_ok l m Hb2) as [t Ht].
  enum Hc; cbn [step line_of] in Hs;
    rewrite ?store_groupStat_ok in Hs by done; rewrite ?Ht in Hs;
    simplify_eq; destruct Ho as (-> & -> & ->);
    (eexists _, _; split; [reflexivity|]; split; [by eapply Hcl|]); clear Hcl;
    (split; [reflexivity|]);
    cbn [line_of phase_of gassert] in *.
  all: try (split; [first [exact I | done | by destruct (Group.req l)]|]).
  all: try (split; [repeat split; try reflexivity; cbn; by rewrite ?length_upd|]).
  all: try (by apply gm_quiet; [reflexivity|sem_ne..| intros; sem_ne]).
  all: cbn in He; try (apply Z.ltb_lt in He).
  all: try (apply gm_take; [tauto|done]).
  all: try (eapply gm_post; [tauto|done]).
  all: try (by apply gm_sit).
  all: try (rewrite Hga; eapply gm_write; tauto).
  all: cbn; rewrite Hga; split; [done|].
  all: split; [done|].
  all: by apply gm_quiet; [reflexivity|sem_ne..| intros; sem_ne].
Qed.

(** ** The protocol invariant under the steps of a group *)

(** [valid] and [Core] depend on the phases of the groups of the day and
    on the table semaphores only. *)
Lemma valid_ext ph ph' R N r :
  (forall i, 0 <= i < N -> ph' i = ph i) -> valid ph R N r -> valid ph' R N r.
Proof.
  intros H [Hr Hv]. split; [done|]. rewrite H by done. done.
Qed.

Lemma Core_ext N ph ph' rrp rr wft wft' mbox line rl :
  (forall i, 0 <= i < N -> ph' i = ph i) ->
  (forall i, wft' i = wft i) ->
  Core N ph rrp rr wft mbox line rl ->
  Core N ph' rrp rr wft' mbox line rl.
Proof.
  intros Hph Hw [c_len c_rass c_tok0 c_tok1 c_tok2 c_mbox c_hand c_sig c_rel].
  split.
  - done.
  - done.
  - done.
  - intros i Hi. rewrite Hph by done. eauto.
  - intros i j Hi Hj. rewrite !Hph by done. eauto.
  - intros H. eapply valid_ext; eauto.
  - intros r Hr. destruct (c_hand _ Hr). split; [|done]. eapply valid_ext; eauto.
  - intros i Hi. destruct (c_sig _ Hi) as (?&?&?&?).
    rewrite Hph, Hw by done. done.
  - intros i Hi. rewrite Hph, Hw by done. eauto.
Qed.

Lemma reading_rslot line : reading line = true -> rslot line = true.
Proof. unfold reading, rslot. repeat case_match; done. Qed.

Section GroupTransitions.

Context (N : Z) (ph : Z -> phase) (rrp rr : Z) (wft : Z -> Z)
  (mbox : request) (line : positive) (rl : Receptionist.rvars).

Context (i : Z) (Hi : 0 <= i < N).

Context (HC : Core N ph rrp rr wft mbox line rl).

(** A valid request stays valid when another group moves on. *)
Lemma valid_other r ph' :
  valid ph (Receptionist.groupRecord rl) N r ->
  ph i <> Queued -> ph i <> Leaving ->
  valid (<[i := ph']> ph) (Receptionist.groupRecord rl) N r.
Proof.
  intros [Hr Hv] H1 H2. split; [done|].
  destruct (decide (i = reqGroup r)) as [Heq|Hne].
  - rewrite <- Heq in Hv. destruct (reqType r); try done; by destruct Hv.
  - by rewrite fn_lookup_insert_ne.
Qed.

(** [Core] is kept when group [i] takes the request slot. *)
Lemma Core_take ph' :
  (ph i = Arriving /\ ph' = Asking) \/ (ph i = Seated /\ ph' = Paying) ->
  0 < rrp ->
  Core N (<[i := ph']> ph) (rrp - 1) rr wft mbox line rl.
Proof.
  intros Hph Hpos. destruct HC
    as [c_len c_rass c_tok0 c_tok1 c_tok2 c_mbox c_hand c_sig c_rel].
  assert (rrp = 1 /\ rr = 0 /\ rslot line = false) as (-> & -> & Hrs).
  { destruct (rslot line); lia. }
  assert (Hnone : forall j, 0 <= j < N -> holds_slot (ph j) = false).
  { intros j Hj. destruct (holds_slot (ph j)) eqn:E; [|done].
    destruct (c_tok1 j Hj E). lia. }
  assert (ph i <> Queued /\ ph i <> Leaving) as [??]
    by (split; intros Hq; rewrite Hq in Hph; intuition discriminate).
  split.
  - done.
  - done.
  - rewrite Hrs. lia.
  - intros j Hj Hh. done.
  - intros j k Hj Hk.
    destruct (decide (i = j)) as [<-|?], (decide (i = k)) as [<-|?];
      rewrite ?fn_lookup_insert, ?fn_lookup_insert_ne by done; try done.
    all: intros; rewrite Hnone in * by done; done.
  - intros [?|Hr]; [lia|]. apply reading_rslot in Hr. congruence.
  - intros r Hr. destruct (c_hand r Hr). split; [|lia]. by apply valid_other.
  - intros j Hj. destruct (c_sig j Hj) as (?&?&?&?).
    rewrite fn_lookup_insert_ne by congruence. done.
  - intros j Hj. destruct (decide (i = j)) as [<-|?].
    + rewrite fn_lookup_insert. specialize (c_rel i Hj).
      destruct Hph as [[Hp ->]|[Hp ->]]; rewrite Hp in c_rel; done.
    + rewrite fn_lookup_insert_ne by done. eauto.
Qed.

(** [Core] is kept when group [i] writes its request into the mailbox. *)
Lemma Core_write ph' k :
  (ph i = Asking /\ ph' = Asked /\ k = TABLEREQ) \/
  (ph i = Paying /\ ph' = Billed /\ k = BILLREQ) ->
  Core N (<[i := ph']> ph) rrp rr wft (mkRequest k i) line rl.
Proof.
  intros Hph. destruct HC
    as [c_len c_rass c_tok0 c_tok1 c_tok2 c_mbox c_hand c_sig c_rel].
  assert (holds_slot (ph i) = true) as Hh by (by destruct Hph as [[-> _]|[-> _]]).
  assert (holds_slot ph' = true) as Hh' by (intuition (subst; done)).
  destruct (c_tok1 i Hi Hh) as (-> & -> & Hrs).
  assert (ph i <> Queued /\ ph i <> Leaving) as [??]
    by (split; intros Hq; rewrite Hq in Hph; intuition discriminate).
  split.
  - done.
  - done.
  - done.
  - intros j Hj Hhj. done.
  - intros j k' Hj Hk.
    destruct (decide (i = j)) as [<-|?], (decide (i = k')) as [<-|?];
      rewrite ?fn_lookup_insert, ?fn_lookup_insert_ne by done; try done.
    all: intros; eauto.
  - intros [?|Hr]; [lia|]. apply reading_rslot in Hr. congruence.
  - intros r Hr. destruct (c_hand r Hr). split; [|lia]. by apply valid_other.
  - intros j Hj. destruct (c_sig j Hj) as (?&?&?&?).
    rewrite fn_lookup_insert_ne by congruence. done.
  - intros j Hj. destruct (decide (i = j)) as [<-|?].
    + rewrite fn_lookup_insert. specialize (c_rel i Hj).
      destruct Hph as [(Hp & -> & _)|(Hp & -> & _)]; rewrite Hp in c_rel; done.
    + rewrite fn_lookup_insert_ne by done. eauto.
Qed.

(** [Core] is kept when group [i] posts its request. *)
Lemma Core_post ph' k :
  (ph i = Asked /\ ph' = Queued /\ k = TABLEREQ) \/
  (ph i = Billed /\ ph' = Leaving /\ k = BILLREQ) ->
  mbox = mkRequest k i ->
  Core N (<[i := ph']> ph) rrp (rr + 1) wft mbox line rl.
Proof.
  intros Hph ->. destruct HC
    as [c_len c_rass c_tok0 c_tok1 c_tok2 c_mbox c_hand c_sig c_rel].
  assert (holds_slot (ph i) = true) as Hh by (by destruct Hph as [[-> _]|[-> _]]).
  assert (holds_slot ph' = false) as Hh' by (intuition (subst; done)).
  destruct (c_tok1 i Hi Hh) as (-> & -> & Hrs).
  assert (ph i <> Queued /\ ph i <> Leaving) as [??]
    by (split; intros Hq; rewrite Hq in Hph; intuition discriminate).
  pose proof (c_rel i Hi) as Hrel.
  split.
  - done.
  - done.
  - rewrite Hrs. lia.
  - intros j Hj. destruct (decide (i = j)) as [<-|?].
    + rewrite fn_lookup_insert. congruence.
    + rewrite fn_lookup_insert_ne by done. intros Hhj.
      destruct (c_tok2 i j); done.
  - intros j k' Hj Hk.
    destruct (decide (i = j)) as [<-|?], (decide (i = k')) as [<-|?];
      rewrite ?fn_lookup_insert, ?fn_lookup_insert_ne by done; try done;
      try congruence.
    eauto.
  - intros _. split; [done|]. simpl. rewrite fn_lookup_insert.
    destruct Hph as [(Hp & -> & ->)|(Hp & -> & ->)]; rewrite Hp in Hrel;
      simpl in Hrel; intuition.
  - intros r Hr. destruct (c_hand r Hr) as [Hv _]. split.
    + by apply valid_other.
    + intros _. simpl. intros Heq. destruct Hv as [_ Hv]. rewrite <- Heq in Hv.
      destruct (reqType r); try done; by destruct Hv.
  - intros j Hj. destruct (c_sig j Hj) as (?&?&?&?).
    rewrite fn_lookup_insert_ne by congruence. done.
  - intros j Hj. destruct (decide (i = j)) as [<-|?].
    + rewrite fn_lookup_insert.
      destruct Hph as [(Hp & -> & ->)|(Hp & -> & ->)]; rewrite Hp in Hrel;
        simpl in *; intuition.
    + rewrite fn_lookup_insert_ne by done. eauto.
Qed.

(** [Core] is kept when group [i] is let through by its table semaphore. *)
Lemma Core_sit :
  ph i = Queued ->
  0 < wft i ->
  Core N (<[i := Seated]> ph) rrp rr (<[i := wft i - 1]> wft) mbox line rl.
Proof.
  intros Hph Hpos. destruct HC
    as [c_len c_rass c_tok0 c_tok1 c_tok2 c_mbox c_hand c_sig c_rel].
  pose proof (c_rel i Hi) as Hrel. rewrite Hph in Hrel. simpl in Hrel.
  assert (sel (Receptionist.groupRecord rl) i = Some ATTABLE /\ wft i = 1 /\
          signalling line rl <> Some i) as (HR & Hw & Hsig)
    by (intuition lia).
  assert (Hval : forall r, valid ph (Receptionist.groupRecord rl) N r ->
            valid (<[i:=Seated]> ph) (Receptionist.groupRecord rl) N r).
  { intros r [Hr Hv]. split; [done|].
    destruct (decide (i = reqGroup r)) as [Heq|?].
    - rewrite <- Heq in *. destruct (reqType r); try done.
      + destruct Hv. rewrite HR in *. done.
      + destruct Hv. congruence.
    - by rewrite fn_lookup_insert_ne. }
  split.
  - done.
  - done.
  - done.
  - intros j Hj. destruct (decide (i = j)) as [<-|?].
    + rewrite fn_lookup_insert. done.
    + rewrite fn_lookup_insert_ne by done. eauto.
  - intros j k' Hj Hk.
    destruct (decide (i = j)) as [<-|?], (decide (i = k')) as [<-|?];
      rewrite ?fn_lookup_insert, ?fn_lookup_insert_ne by done; try done.
    eauto.
  - eauto.
  - intros r Hr. destruct (c_hand r Hr). split; eauto.
  - intros j Hj. destruct (c_sig j Hj) as (?&?&?&?).
    rewrite !fn_lookup_insert_ne by congruence. done.
  - intros j Hj. destruct (decide (i = j)) as [<-|?].
    + rewrite !fn_lookup_insert. simpl. split; [done|lia].
    + rewrite !fn_lookup_insert_ne by done. eauto.
Qed.

End GroupTransitions.

(** What a group knows of its request is not touched by a step that
    leaves the mailbox alone. *)
Lemma gassert_frame line l j m m' :
  (phase_of line = Asked \/ phase_of line = Billed ->
   receptionistRequest m' = receptionistRequest m) ->
  gassert line l j m -> gassert line l j m'.
Proof.
  unfold gassert, phase_of. intros H.
  repeat case_match; try done; rewrite H; auto.
Qed.

Lemma gphase_insert (gs : Z -> pstate Group.gvars) i p j :
  gphase ((<[i := p]> gs) j) = (<[i := gphase p]> (fun k => gphase (gs k))) j.
Proof.
  destruct (decide (i = j)) as [<-|?].
  - by rewrite !fn_lookup_insert.
  - by rewrite !fn_lookup_insert_ne.
Qed.

Lemma core_step_ext N ph ph' rrp rrp' rr rr' wft wft' mbox mbox' line rl :
  Core N ph rrp rr wft mbox line rl ->
  (forall j, 0 <= j < N -> ph' j = ph j) ->
  (forall j, wft' j = wft j) ->
  rrp' = rrp -> rr' = rr -> mbox' = mbox ->
  Core N ph' rrp' rr' wft' mbox' line rl.
Proof. intros HC H1 H2 -> -> ->. by eapply Core_ext. Qed.

Section Steps.

Variable NT : Z.

(** The protocol invariant is kept by the steps of the groups. *)
Lemma proto_group s rc rl i p' m' v' :
  Proto NT s rc rl ->
  0 <= i < nGroups (mem s) ->
  move (groups s i) (mem s) (sems s) = Some (p', m', v') ->
  Proto NT (mkState m' v' (receptionist s) (waiter s) (<[i := p']> (groups s)))
    rc rl.
Proof.
  intros [p_rec p_rc p_wtr p_N p_grp p_core] Hi Hm.
  destruct (p_grp i Hi) as (c & l & Hg & Hc & Hn & Hga).
  rewrite Hg in Hm.
  apply (group_move _ _ _ _ _ _ _ i) in Hm; [|done|done|lia|lia|done].
  destruct Hm as (c' & l' & -> & Hc' & Hn' & Hga' & (HfN & Hfa & Hfw & Hfl) & Hmv).
  set (ph := phase_of (line_of c)) in *.
  set (ph' := phase_of (line_of c')) in *.
  assert (Hphi : gphase (groups s i) = ph) by (by rewrite Hg).
  assert (Hmb : (forall j, 0 <= j < nGroups (mem s) -> j <> i ->
                   holds_slot (gphase (groups s j)) = false) \/
                receptionistRequest m' = receptionistRequest (mem s)).
  { inversion Hmv as [m1 v1 Hq1 Hq2 Hq3 Hq4 | ph1 Hph Hpos | ph1 k Hph
                     | ph1 k Hph Hmbx | Hph Hpos]; auto.
    left. intros j Hj Hne.
    destruct (holds_slot (gphase (groups s j))) eqn:E; [|done].
    destruct Hne. eapply (c_tok2 _ _ _ _ _ _ _ _ p_core); try done.
    rewrite Hphi. destruct Hph as [(-> & _)|(-> & _)]; done. }
  split; simpl.
  - done.
  - done.
  - done.
  - rewrite HfN, Hfa, Hfl. done.
  - rewrite HfN. intros j Hj. destruct (decide (i = j)) as [<-|Hne].
    + rewrite fn_lookup_insert. eauto 10.
    + rewrite fn_lookup_insert_ne by done.
      destruct (p_grp j Hj) as (cj & lj & Hgj & Hcj & Hnj & Hgaj).
      exists cj, lj. repeat split; try done.
      eapply gassert_frame; [|done]. intros Hph.
      destruct Hmb as [Hmb|Hmb]; [|done].
      specialize (Hmb j Hj). rewrite Hgj in Hmb. simpl in Hmb.
      assert (j <> i) as Hji by congruence. specialize (Hmb Hji).
      destruct Hph as [Hph|Hph]; rewrite Hph in Hmb; done.
  - rewrite HfN.
    inversion Hmv as [m1 v1 Hq1 Hq2 Hq3 Hq4 | ph1 Hph Hpos | ph1 k Hph
                     | ph1 k Hph Hmbx | Hph Hpos]; subst m' v'.
    + eapply core_step_ext; [exact p_core|..]; try done.
      intros j _. rewrite gphase_insert. destruct (decide (i = j)) as [<-|?].
      * rewrite fn_lookup_insert. simpl. fold ph'. congruence.
      * by rewrite fn_lookup_insert_ne.
    + eapply core_step_ext;
        [apply (Core_take _ _ _ _ _ _ _ _ i Hi p_core ph'); [by rewrite Hphi|done]|..].
      * intros j _. apply gphase_insert.
      * intros j. by rewrite fn_lookup_insert_ne.
      * by rewrite fn_lookup_insert.
      * by rewrite fn_lookup_insert_ne.
      * done.
    + eapply core_step_ext;
        [apply (Core_write _ _ _ _ _ _ _ _ i Hi p_core ph' k); by rewrite Hphi|..];
        try done.
      intros j _. apply gphase_insert.
    + eapply core_step_ext;
        [apply (Core_post _ _ _ _ _ _ _ _ i Hi p_core ph' k); [by rewrite Hphi|done]|..].
      * intros j _. apply gphase_insert.
      * intros j. by rewrite fn_lookup_insert_ne.
      * by rewrite fn_lookup_insert_ne.
      * by rewrite fn_lookup_insert.
      * done.
    + eapply core_step_ext;
        [apply (Core_sit _ _ _ _ _ _ _ _ i Hi p_core); [by rewrite Hphi|done]|..].
      * intros j _. rewrite gphase_insert. cbn [gphase]. fold ph'.
        by rewrite <- H.
      * intros j. destruct (decide (i = j)) as [<-|?].
        -- by rewrite !fn_lookup_insert.
        -- rewrite !fn_lookup_insert_ne; [done|done|congruence].
      * by rewrite fn_lookup_insert_ne.
      * by rewrite fn_lookup_insert_ne.
      * done.
Qed.

End Steps.

(** ** The protocol invariant under the steps of the waiter and of the
    chef *)

(** The protocol invariant is kept by every step that leaves the
    reception side alone. *)
Lemma proto_frame NT s s' rc rl :
  Proto NT s rc rl ->
  same_reception s s' ->
  match waiter s' with
  | Live c _ => c ∈ conts Waiter.main
  | Dead _ => True
  end ->
  Proto NT s' rc rl.
Proof.
  intros [p_rec p_rc p_wtr p_N p_grp p_core]
    (H1 & H2 & H3 & H4 & H5 & H6 & H7 & H8 & H9 & H10) Hw.
  split.
  - by rewrite H1.
  - done.
  - done.
  - by rewrite H3, H4, H7.
  - rewrite H2, H3. intros i Hi.
    destruct (p_grp i Hi) as (c & l & ? & ? & ? & ?).
    exists c, l. repeat split; try done. eapply gassert_frame; [|done]. done.
  - rewrite H2, H3, H6, H8, H9. eapply Core_ext; [done| |done].
    intros i. apply H10.
Qed.

(** A step of the waiter leaves the reception side alone. *)
Lemma waiter_move c l m v p' m' v' :
  c ∈ conts Waiter.main ->
  move (Live c l) m v = Some (p', m', v') ->
  match p' with
  | Live c' _ => c' ∈ conts Waiter.main
  | Dead _ => True
  end /\
  nGroups m' = nGroups m /\ assignedTable m' = assignedTable m /\
  groupsWaiting m' = groupsWaiting m /\
  receptionistRequest m' = receptionistRequest m /\
  length (groupStat (st m')) = length (groupStat (st m)) /\
  v' sh.receptionistRequestPossible = v sh.receptionistRequestPossible /\
  v' sh.receptionistReq = v sh.receptionistReq /\
  forall j, v' (sh.waitForTable j) = v (sh.waitForTable j).
Proof.
  intros Hc Hm.
  apply move_live in Hm as (a & o & Hs & He & Ho).
  destruct o as [[[c' l'] m1]|x]; destruct Ho as (-> & -> & ->); [|done].
  split; [by eapply (conts_step _ _ _ _ _ _ _ _ Hc)|].
  enum Hc; comp_step Hs;
    repeat match type of Hs with
      | context [obind ?x _] => destruct x; cbn [obind] in Hs
      end;
    simplify_eq; repeat split; try reflexivity; intros; sem_ne.
Qed.

(** ** decideTableOrWait and decideNextGroup *)

(** The inner loop of [decideTableOrWait] stops at the first group that
    holds [table], or at the end. *)
Lemma scanGroups_spec m table g todo :
  0 <= g ->
  g + Z.of_nat todo <= Z.of_nat (length (assignedTable m)) ->
  exists r, Receptionist.scanGroups m table g todo = Ok r /\
    g <= r <= g + Z.of_nat todo /\
    (forall j, g <= j < r -> sel (assignedTable m) j <> Some table) /\
    (r < g + Z.of_nat todo -> sel (assignedTable m) r = Some table).
Proof.
  revert g. induction todo as [|todo IH]; intros g Hg Hlen.
  - exists g. simpl. repeat split; try lia; intros; lia.
  - simpl.
    destruct (aget_sel_ok (assignedTable m) g) as (h & -> & Hh); [lia|].
    simpl. destruct (h =? table) eqn:E.
    + apply Z.eqb_eq in E as ->. exists g.
      repeat split; try lia; try done; intros; lia.
    + apply Z.eqb_neq in E.
      destruct (IH (g + 1)) as (r & -> & Hr & Hlow & Hhit); [lia|lia|].
      exists r. repeat split; try lia.
      * intros j Hj. destruct (decide (j = g)) as [->|?].
        -- rewrite Hh. congruence.
        -- apply Hlow. lia.
      * intros ?. apply Hhit. lia.
Qed.

(** The outer loop returns the first table that nobody holds, or -1. *)
Lemma scanTables_spec m t todo :
  0 <= nGroups m <= Z.of_nat (length (assignedTable m)) ->
  exists r, Receptionist.scanTables m t todo = Ok r /\
    ((r = -1 /\ forall t', t <= t' < t + Z.of_nat todo -> taken m t') \/
     (t <= r < t + Z.of_nat todo /\ ~ taken m r /\
      forall t', t <= t' < r -> taken m t')).
Proof.
  intros HN. revert t. induction todo as [|todo IH]; intros t.
  - exists (-1). split; [done|]. left. split; [done|]. intros; lia.
  - simpl.
    destruct (scanGroups_spec m t 0 (Z.to_nat (nGroups m)))
      as (r & -> & Hr & Hlow & Hhit); [lia|lia|].
    simpl. destruct (r =? nGroups m) eqn:E; simpl.
    + apply Z.eqb_eq in E as ->. exists t. split; [done|]. right.
      split; [lia|]. split.
      * intros (j & Hj & Hs). by apply (Hlow j).
      * intros; lia.
    + apply Z.eqb_neq in E.
      assert (taken m t) as Ht.
      { exists r. split; [lia|]. apply Hhit. lia. }
      destruct (IH (t + 1)) as (r' & -> & Hr').
      exists r'. split; [done|].
      destruct Hr' as [[-> Hall]|(Hr1 & Hr2 & Hr3)].
      * left. split; [done|]. intros t' Ht'.
        destruct (decide (t' = t)) as [->|?]; [done|]. apply Hall. lia.
      * right. split; [lia|]. split; [done|]. intros t' Ht'.
        destruct (decide (t' = t)) as [->|?]; [done|]. apply Hr3. lia.
Qed.

(** [decideTableOrWait] on a group whose record is below 2, within the
    bounds: the lowest free table, or -1. *)
Lemma decideTableOrWait_spec NT R m gid r :
  0 <= nGroups m <= Z.of_nat (length (assignedTable m)) ->
  sel R gid = Some r -> r < 2 ->
  exists t, Receptionist.decideTableOrWait NT R m gid = Ok t /\
            lowest_free NT m t.
Proof.
  intros HN HR Hr. unfold Receptionist.decideTableOrWait.
  apply aget_sel in HR. rewrite HR. simpl.
  rewrite (proj2 (Z.ltb_lt _ _) Hr).
  destruct (scanTables_spec m 0 (Z.to_nat NT) HN) as (t & -> & Ht).
  exists t. split; [done|]. unfold lowest_free.
  destruct Ht as [[-> H]|(H1 & H2 & H3)].
  - left. split; [done|]. intros t' Ht'. apply H. lia.
  - right. split; [lia|]. split; [done|]. intros t' Ht'. apply H3. lia.
Qed.

(** The loop of [decideNextGroup] stops at the first record equal to WAIT. *)
Lemma scanWaiting_spec R g todo :
  0 <= g ->
  g + Z.of_nat todo <= Z.of_nat (length R) ->
  exists w, Receptionist.scanWaiting R g todo = Ok w /\
    ((w = -1 /\ forall j, g <= j < g + Z.of_nat todo -> sel R j <> Some WAIT) \/
     (g <= w < g + Z.of_nat todo /\ sel R w = Some WAIT /\
      forall j, g <= j < w -> sel R j <> Some WAIT)).
Proof.
  revert g. induction todo as [|todo IH]; intros g Hg Hlen.
  - exists (-1). split; [done|]. left. split; [done|]. intros; lia.
  - simpl.
    destruct (aget_sel_ok R g) as (h & -> & Hh); [lia|].
    simpl. destruct (h =? WAIT) eqn:E.
    + apply Z.eqb_eq in E as ->. exists g. split; [done|]. right.
      split; [lia|]. split; [done|]. intros; lia.
    + apply Z.eqb_neq in E.
      destruct (IH (g + 1)) as (w & -> & Hw); [lia|lia|].
      exists w. split; [done|].
      destruct Hw as [[-> H]|(H1 & H2 & H3)].
      * left. split; [done|]. intros j Hj.
        destruct (decide (j = g)) as [->|?]; [rewrite Hh; congruence|].
        apply H. lia.
      * right. split; [lia|]. split; [done|]. intros j Hj.
        destruct (decide (j = g)) as [->|?]; [rewrite Hh; congruence|].
        apply H3. lia.
Qed.

(** [decideNextGroup]: the lowest waiting group, or -1. *)
Lemma decideNextGroup_spec R m :
  0 <= nGroups m <= Z.of_nat (length R) ->
  exists w, Receptionist.decideNextGroup R m = Ok w /\ lowest_waiting R m w.
Proof.
  intros HN. unfold Receptionist.decideNextGroup, lowest_waiting.
  destruct (groupsWaiting m <=? 0) eqn:E.
  - apply Z.leb_le in E. exists (-1). split; [done|]. left. auto.
  - apply Z.leb_gt in E.
    destruct (scanWaiting_spec R 0 (Z.to_nat (nGroups m)))
      as (w & -> & Hw); [lia|lia|].
    exists w. split; [done|].
    destruct Hw as [[-> H]|(H1 & H2 & H3)].
    + left. split; [done|]. right. intros j Hj. apply H. lia.
    + right. repeat split; try lia; try done.
Qed.

(** ** The protocol invariant under the steps of the receptionist *)

Ltac core_cbn :=
  cbn [line_of handling signalling rslot reading rassert
       Receptionist.groupRecord Receptionist.g Receptionist.nReq
       Receptionist.req Receptionist.ret Receptionist.group_id
       Receptionist.table_id Receptionist.new_group_id
       Receptionist.set_groupRecord Receptionist.set_g Receptionist.set_nReq
       Receptionist.set_req Receptionist.set_ret Receptionist.set_group_id
       Receptionist.set_table_id Receptionist.set_new_group_id
       nGroups assignedTable groupsWaiting receptionistRequest st groupStat
       set_receptionistStat set_assignedTable set_groupsWaiting] in *.

(** Records, requests and table semaphores when one record changes. *)
Lemma upd_same {A} (a : list A) i v : sel a i = Some v -> upd a i v = a.
Proof.
  unfold sel, upd. destruct (decide (0 <= i)); [|done]. apply list_insert_id.
Qed.

Lemma valid_upd ph R N r g x :
  valid ph R N r -> 0 <= g -> reqGroup r <> g -> valid ph (upd R g x) N r.
Proof.
  intros [Hr Hv] Hg Hne. split; [done|].
  rewrite sel_upd_ne by (done || congruence). done.
Qed.

Lemma grel_iff p r w (sig sig' : Prop) :
  (sig <-> sig') -> grel p r w sig -> grel p r w sig'.
Proof. intros H. destruct p; simpl; tauto. Qed.

Lemma rel_upd N (ph : Z -> phase) R (wft : Z -> Z) (sig sig' : Z -> Prop) g x :
  (forall i, 0 <= i < N -> grel (ph i) (sel R i) (wft i) (sig i)) ->
  0 <= g < Z.of_nat (length R) ->
  grel (ph g) (Some x) (wft g) (sig' g) ->
  (forall i, i <> g -> sig i <-> sig' i) ->
  forall i, 0 <= i < N -> grel (ph i) (sel (upd R g x) i) (wft i) (sig' i).
Proof.
  intros Hrel Hg Hnew Hsig i Hi. destruct (decide (i = g)) as [->|Hne].
  - by rewrite sel_upd_eq.
  - rewrite sel_upd_ne by (lia || congruence).
    eapply grel_iff; [by apply Hsig|]. by apply Hrel.
Qed.

Lemma grel_wft0 p r w sig :
  grel p (Some r) w sig -> r <> ATTABLE -> w = 0.
Proof.
  destruct p; simpl; intros H Hr; try (by destruct H).
  destruct H as [[_ ?]|[[_ ?]|[[= ?] _]]]; done.
Qed.

Lemma grel_WAIT p w sig : grel p (Some WAIT) w sig -> p = Queued.
Proof.
  destruct p; simpl; try done; intros H; exfalso; revert H;
    unfold TOARRIVE, WAIT, ATTABLE, DONE; intuition discriminate.
Qed.

Lemma valid_not_waiting ph R N r g :
  valid ph R N r -> sel R g = Some WAIT -> reqGroup r <> g.
Proof.
  intros [_ Hv] Hg <-. destruct (reqType r); try done;
    destruct Hv as [_ Hv]; rewrite Hv in Hg; done.
Qed.

(** The signal on the table semaphore of a group recorded as ATTABLE. *)
Lemma rel_signal N (ph : Z -> phase) R (v : sh.sem -> Z) g :
  (forall i, 0 <= i < N ->
     grel (ph i) (sel R i) (v (sh.waitForTable i)) (Some g = Some i)) ->
  ph g = Queued -> sel R g = Some ATTABLE -> v (sh.waitForTable g) = 0 ->
  forall i, 0 <= i < N ->
    grel (ph i) (sel R i)
      ((<[sh.waitForTable g := v (sh.waitForTable g) + 1]> v)
         (sh.waitForTable i))
      (None = Some i).
Proof.
  intros Hrel Hph HR Hw i Hi. destruct (decide (i = g)) as [->|Hne].
  - rewrite fn_lookup_insert, Hph, HR, Hw. simpl. right. right.
    split; [done|]. left. done.
  - rewrite fn_lookup_insert_ne by congruence.
    eapply grel_iff; [|by apply Hrel]. split; intros [=]; congruence.
Qed.

Ltac sems_simpl :=
  unfold after in *;
  repeat first
    [ rewrite fn_lookup_insert in *
    | rewrite fn_lookup_insert_ne in * by (discriminate || congruence) ].

Ltac rfinish Hs Ho Hcl p_grp N ph :=
  simplify_eq; destruct Ho as (-> & -> & ->);
  eexists _, _; split; [reflexivity|];
  split; cbn [mem sems receptionist waiter groups];
  [ done | by eapply Hcl | done
  | core_cbn; rewrite ?length_upd; done
  | let i := fresh "i" in let Hi := fresh "Hi" in
    intros i Hi; destruct (p_grp i Hi) as (c & l & ? & ? & ? & ?);
    exists c, l; repeat split; try done
  | clear Hcl; core_cbn; fold N; fold ph; split; core_cbn;
    rewrite ?length_upd; try done;
    try (intros; sem_ne; eauto; fail)].

Section RStep.

Variable NT : Z.

(** The protocol invariant is kept by the steps of the receptionist, and
    no step of the receptionist ends it by a crash: by cases on the line
    it is at. *)
Lemma proto_receptionist s rc rl p' m' v' :
  Proto NT s rc rl ->
  move (Live rc rl) (mem s) (sems s) = Some (p', m', v') ->
  exists rc' rl', p' = Live rc' rl' /\
    Proto NT (mkState m' v' p' (waiter s) (groups s)) rc' rl'.
Proof.
  intros [p_rec p_rc p_wtr p_N p_grp p_core] Hm.
  apply move_live in Hm as (a & o & Hs & He & Ho).
  assert (Hcl : forall c' l' m1, o = Ok (c', l', m1) ->
                  c' ∈ conts (Receptionist.main NT)).
  { intros c' l' m1 ->. by eapply (conts_step _ _ _ _ _ _ _ _ p_rc). }
  set (N := nGroups (mem s)) in *.
  set (ph := fun i => gphase (groups s i)) in *.
  destruct p_N as [HNa HNg].
  destruct p_core as [HClen HCrass HCtok0 HCtok1 HCtok2 HCmbox HChand HCsig HCrel].
  clear p_rec.
  assert (Hln : at_line (line_of rc)) by done.
  enum p_rc; comp_step Hs; core_cbn.
  all: try match type of Hs with
      | context [if ?c then _ else _] => destruct c eqn:Hcond
      end.
  all: try (by simplify_eq).
  all: try (rfinish Hs Ho Hcl p_grp N ph).
  (* 111 *)
  all: try (match goal with H : at_line 111 |- _ => idtac end;
            apply Z.ltb_lt in Hcond; destruct HCrass; split; [done|lia]).
  (* 121, 124 *)
  all: try (match goal with H : at_line 121 |- _ => idtac end;
            first [by apply bool_decide_eq_true in Hcond
                  |by apply bool_decide_eq_false in Hcond]).
  all: try (match goal with H : at_line 124 |- _ => idtac end;
            by apply bool_decide_eq_true in Hcond).
  (* 122, 125 *)
  all: try (match goal with H : at_line 122 |- _ => idtac end;
            intros r [= <-]; sems_simpl;
            destruct (HChand _ eq_refl) as [[? Hv] ?];
            rewrite HCrass in Hv; split; [split|]; done).
  all: try (match goal with H : at_line 125 |- _ => idtac end;
            intros r [= <-]; sems_simpl;
            destruct (HChand _ eq_refl) as [[? Hv] ?];
            rewrite HCrass in Hv; split; [split|]; done).
  (* 219 *)
  all: try (match goal with H : at_line 219 |- _ => idtac end;
            cbn in He; apply Z.ltb_lt in He; sems_simpl;
            first [ lia
                  | intros i Hi Hh; destruct (HCtok1 i Hi Hh); lia
                  | intros _; apply HCmbox; lia ]).
  (* 233 *)
  all: try (match goal with H : at_line 233 |- _ => idtac end;
            intros r [= <-]; sems_simpl; split; [apply HCmbox; by right|lia]).
  (* 241 *)
  all: try (match goal with H : at_line 241 |- _ => idtac end;
            sems_simpl;
            first [ lia
                  | intros i Hi Hh; by destruct (HCtok1 i Hi Hh) as (?&?&?) ]).
  (* 112 *)
  all: try (match goal with H : at_line 112 |- _ => idtac end;
            destruct HCrass as [Hz [Hg0 HgN]];
            destruct (sel_is_Some (Receptionist.groupRecord rl)
                        (Receptionist.g rl)) as [x Hx]; [lia|];
            pose proof (Hz _ _ Hx) as ->; change TOARRIVE with 0 in Hs;
            rewrite aset_upd in Hs by lia;
            rewrite (upd_same _ _ _ Hx) in Hs; cbn [obind] in Hs;
            rfinish Hs Ho Hcl p_grp N ph; split; [done|lia]).
  (* 269 *)
  all: try (match goal with H : at_line 269 |- _ => idtac end;
            destruct (HChand _ eq_refl) as [[Hr [Hph HR]] Hne]; simpl in Hr, HR;
            destruct (decideTableOrWait_spec NT _ (mem s) _ _
                        ltac:(fold N; lia) HR ltac:(done)) as (t & Ht & Hlow);
            rewrite Ht in Hs; cbn [obind] in Hs;
            rfinish Hs Ho Hcl p_grp N ph).
  (* 274, 278, 311: the record of the group being served *)
  all: try (match goal with
            | H : at_line 274 |- _ => idtac
            | H : at_line 278 |- _ => idtac
            | H : at_line 311 |- _ => idtac
            end;
            destruct (HChand _ eq_refl) as [[Hr [Hph HR]] Hne]; simpl in Hr, HR, Hph, Hne;
            rewrite aset_upd in Hs by lia; cbn [obind] in Hs;
            pose proof (HCrel _ Hr) as Hrel0; rewrite Hph, HR in Hrel0;
            rfinish Hs Ho Hcl p_grp N ph; sems_simpl;
            [ intros [Hrr|?]; [|done]; apply valid_upd;
              [apply HCmbox; by left | lia | by apply Hne]
            | .. ]).
  all: try (match goal with H : at_line 274 |- _ => idtac end;
            eapply (rel_upd _ _ _ _ _ _ _ _ HCrel); [lia| |done];
            apply grel_wft0 in Hrel0 as ->; [|done];
            rewrite Hph; simpl; auto).
  (* 279, 314, 326: the table of a group *)
  all: try (match goal with
            | H : at_line 279 |- _ => destruct (HCsig _ eq_refl) as (Hr & _)
            | H : at_line 314 |- _ => pose proof HCrass as Hr
            | H : at_line 326 |- _ => pose proof HCrass as Hr
            end;
            rewrite aset_upd in Hs by lia; cbn [obind] in Hs;
            rfinish Hs Ho Hcl p_grp N ph).
  (* 313 *)
  all: try (match goal with H : at_line 313 |- _ => idtac end;
            destruct (aget_sel_ok (assignedTable (mem s))
                        (Receptionist.group_id rl)) as (t & Ht & _); [lia|];
            rewrite Ht in Hs; cbn [obind] in Hs;
            rfinish Hs Ho Hcl p_grp N ph).
  (* 318 *)
  all: try (match goal with H : at_line 318 |- _ => idtac end;
            destruct (decideNextGroup_spec (Receptionist.groupRecord rl) (mem s))
              as (w & Hw & Hlow); [fold N; lia|];
            rewrite Hw in Hs; cbn [obind] in Hs;
            rfinish Hs Ho Hcl p_grp N ph).
  (* 278 *)
  all: try (match goal with H : at_line 278 |- _ => idtac end;
            apply grel_wft0 in Hrel0; [|done];
            first
              [ intros i [= <-]; rewrite sel_upd_eq by lia; done
              | eapply (rel_upd _ _ _ _ _ _ _ _ HCrel); [lia| |];
                [ rewrite Hph, Hrel0; simpl; right; right; split; [done|];
                  right; done
                | intros i Hi; split; intros [=]; congruence ] ]).
  (* 311 *)
  all: try (match goal with H : at_line 311 |- _ => idtac end;
            eapply (rel_upd _ _ _ _ _ _ _ _ HCrel); [lia| |done];
            rewrite Hph; simpl in *; destruct Hrel0; auto).
  (* 318, 319 *)
  all: try (match goal with H : at_line 318 |- _ => idtac end;
            intros Hw1; destruct Hlow as [[-> _]|(_ & ? & ? & _)];
            [lia|done]).
  all: try (match goal with H : at_line 319 |- _ => idtac end;
            apply Z.gtb_lt in Hcond; apply HCrass; lia).
  (* 320 *)
  all: try (match goal with H : at_line 320 |- _ => idtac end;
            destruct HCrass as [Hr HR];
            pose proof (HCrel _ Hr) as Hrel0; rewrite HR in Hrel0;
            pose proof (grel_WAIT _ _ _ Hrel0) as Hph;
            apply grel_wft0 in Hrel0; [|done];
            rewrite aset_upd in Hs by lia; cbn [obind] in Hs;
            rfinish Hs Ho Hcl p_grp N ph; sems_simpl;
            [ intros [Hrr|?]; [|done]; apply valid_upd;
              [apply HCmbox; by left | lia
              | eapply valid_not_waiting; [apply HCmbox; by left|done] ]
            | intros i [= <-]; rewrite sel_upd_eq by lia; done
            | eapply (rel_upd _ _ _ _ _ _ _ _ HCrel); [lia| |];
              [ rewrite Hph, Hrel0; simpl; right; right; split; [done|];
                right; done
              | intros i Hi; split; intros [=]; congruence ] ]).
  (* 280, 321 *)
  all: try (match goal with
            | H : at_line 280 |- _ => idtac
            | H : at_line 321 |- _ => idtac
            end;
            destruct (HCsig _ eq_refl) as (? & ? & ? & ?);
            first [ done | unfold after; by apply rel_signal ]).
Qed.

End RStep.

(** ** The protocol invariant holds in every reachable state *)

Section Reach.

Variables (NT MAXGROUPS : Z).

Lemma sel_replicate {A} (n : nat) (x : A) i v :
  sel (replicate n x) i = Some v -> v = x.
Proof.
  unfold sel. destruct (decide (0 <= i)); [|done].
  intros [-> _]%lookup_replicate. done.
Qed.

(** The protocol invariant holds at the start, is kept by every step and
    so holds in every reachable state. *)
Lemma Inv_initial s : initial NT MAXGROUPS s -> Inv NT s.
Proof.
  intros (HN & Ha & Hg & Hfree & Hgw & Hsem & (rl & Hr & HR) & (wl & Hw) & Hgrp).
  exists (Receptionist.main NT), rl.
  assert (Hph : forall i, 0 <= i < nGroups (mem s) ->
                  gphase (groups s i) = Arriving).
  { intros i Hi. destruct (Hgrp i Hi) as (l & -> & _). done. }
  split.
  - done.
  - apply conts_self.
  - rewrite Hw. apply conts_self.
  - lia.
  - intros i Hi. destruct (Hgrp i Hi) as (l & -> & Hn).
    exists Group.life, l. repeat split; try done. apply conts_self.
  - rewrite !Hsem. split; cbn.
    + rewrite HR, length_replicate. lia.
    + rewrite HR. intros j v. apply sel_replicate.
    + lia.
    + intros i Hi. by rewrite Hph.
    + intros i j Hi Hj. by rewrite Hph.
    + intros [?|?]; done.
    + done.
    + done.
    + intros i Hi. rewrite Hph by done. simpl. split; [|by rewrite Hsem].
      rewrite HR. destruct (sel_is_Some (replicate (Z.to_nat MAXGROUPS) 0) i)
        as [v Hv]; [rewrite length_replicate; lia|].
      rewrite Hv. by apply sel_replicate in Hv as ->.
Qed.

Lemma Inv_step s s' : Inv NT s -> sys_step s s' -> Inv NT s'.
Proof.
  intros (rc & rl & HP) Hstep.
  destruct Hstep as [p' m' v' Hm|p' m' v' Hm|i p' m' v' Hi Hm|s' Hchef].
  - rewrite (p_rec _ _ _ _ HP) in Hm.
    destruct (proto_receptionist NT s rc rl p' m' v' HP Hm)
      as (rc' & rl' & -> & HP').
    by exists rc', rl'.
  - exists rc, rl. pose proof (p_wtr _ _ _ _ HP) as Hw.
    destruct (waiter s) as [wc wl|] eqn:Ew; [|done].
    apply (waiter_move _ _ _ _ _ _ _ Hw) in Hm
      as (Hw' & H1 & H2 & H3 & H4 & H5 & H6 & H7 & H8).
    eapply proto_frame; [exact HP| |done].
    repeat split; done.
  - exists rc, rl. by apply proto_group.
  - exists rc, rl.
    destruct Hchef as (H1 & H2 & H3 & H4 & H5 & H6 & H7 & H8 & H9).
    eapply proto_frame; [exact HP| |].
    + repeat split; try done; try (by rewrite H4); try (by apply H9).
      intros j. by apply H9.
    + rewrite H2. apply (p_wtr _ _ _ _ HP).
Qed.

Lemma Inv_reachable s : reachable NT MAXGROUPS s -> Inv NT s.
Proof.
  intros (s0 & H0 & Hrtc). apply Inv_initial in H0.
  induction Hrtc; eauto using Inv_step.
Qed.

End Reach.

(** ** Tables and waiting count under the steps of the receptionist *)

(** The number of waiting records when one record changes. *)
Lemma countW_upd R i old v :
  sel R i = Some old ->
  countW (upd R i v) =
    countW R - (if decide (old = WAIT) then 1 else 0)
             + (if decide (v = WAIT) then 1 else 0).
Proof.
  unfold sel, upd, countW. destruct (decide (0 <= i)); [|done]. intros H.
  pose proof (lookup_lt_Some _ _ _ H) as Hlt.
  rewrite insert_take_drop by done.
  rewrite <- (take_drop_middle R (Z.to_nat i) old H) at 3.
  rewrite !filter_app, !filter_cons, !length_app.
  repeat case_decide; simpl; lia.
Qed.

(** Giving a group a table that nobody holds keeps the tables exclusive. *)
Lemma excl_upd N a g t :
  exclusive N a -> unheld N a t -> 0 <= g < Z.of_nat (length a) ->
  exclusive N (upd a g t).
Proof.
  intros He Hu Hg i j t' Hi Hj Hsi Hsj Ht.
  destruct (decide (i = g)) as [->|Hig], (decide (j = g)) as [->|Hjg];
    try done.
  - rewrite sel_upd_eq in Hsi by done. rewrite sel_upd_ne in Hsj by lia.
    simplify_eq. destruct Ht. by eapply (Hu j).
  - rewrite sel_upd_eq in Hsj by done. rewrite sel_upd_ne in Hsi by lia.
    simplify_eq. destruct Ht. by eapply (Hu i).
  - rewrite sel_upd_ne in Hsi, Hsj by lia. by eapply He.
Qed.

Lemma unheld_free N a : unheld N a (-1).
Proof. by intros j _ _. Qed.

(** The table a group gives back is held by nobody. *)
Lemma unheld_released N a g t :
  exclusive N a -> sel a g = Some t -> 0 <= g < N ->
  unheld N (upd a g (-1)) t.
Proof.
  intros He Hg Hr j Hj Hs. destruct (decide (j = g)) as [->|Hne].
  - pose proof (sel_Some_bound _ _ _ Hg).
    rewrite sel_upd_eq in Hs by done. congruence.
  - rewrite sel_upd_ne in Hs by lia.
    destruct (decide (t = -1)) as [|Ht]; [done|].
    destruct Hne. by eapply He.
Qed.

(** The table [decideTableOrWait] returns is held by nobody. *)
Lemma unheld_lowest_free NT m t :
  lowest_free NT m t -> unheld (nGroups m) (assignedTable m) t.
Proof.
  intros [[-> _]|(_ & Hfree & _)] j Hj Hs; [done|].
  destruct Hfree. by exists j.
Qed.

Ltac aux_cbn :=
  cbn [line_of updating tassert handling signalling rassert
       Receptionist.groupRecord Receptionist.g Receptionist.nReq
       Receptionist.req Receptionist.ret Receptionist.group_id
       Receptionist.table_id Receptionist.new_group_id
       Receptionist.set_groupRecord Receptionist.set_g Receptionist.set_nReq
       Receptionist.set_req Receptionist.set_ret Receptionist.set_group_id
       Receptionist.set_table_id Receptionist.set_new_group_id
       nGroups assignedTable groupsWaiting receptionistRequest st groupStat
       set_receptionistStat set_assignedTable set_groupsWaiting] in *.

Ltac afinish Hs Ho :=
  simplify_eq; destruct Ho as (Hp & -> & _); injection Hp as -> ->;
  aux_cbn; split; aux_cbn.

Section AuxStep.

Variable NT : Z.

(** The invariant of the tables and of the waiting count is kept by the
    steps of the receptionist: by cases on the line it is at. *)
Lemma aux_receptionist s rc rl rc' rl' m' v' :
  Proto NT s rc rl ->
  Aux (nGroups (mem s)) (assignedTable (mem s)) (groupsWaiting (mem s))
    (line_of rc) rl ->
  move (Live rc rl) (mem s) (sems s) = Some (Live rc' rl', m', v') ->
  Aux (nGroups m') (assignedTable m') (groupsWaiting m') (line_of rc') rl'.
Proof.
  intros [p_rec p_rc p_wtr p_N p_grp p_core] [Hex Htab Hcnt] Hm.
  apply move_live in Hm as (a & o & Hs & He & Ho).
  set (N := nGroups (mem s)) in *.
  destruct p_N as [HNa HNg].
  destruct p_core as [HClen HCrass _ _ _ _ HChand HCsig HCrel].
  clear p_rec p_grp p_wtr.
  assert (Hln : at_line (line_of rc)) by done.
  enum p_rc; comp_step Hs; aux_cbn.
  all: try match type of Hs with
      | context [if ?c then _ else _] => destruct c eqn:Hcond
      end.
  all: try (by simplify_eq).
  all: try (simplify_eq; destruct Ho as (Hp & -> & _); injection Hp as -> ->;
            aux_cbn; split; aux_cbn; (done || lia)).
  (* 112 *)
  all: try (match goal with H : at_line 112 |- _ => idtac end;
            destruct HCrass as [Hz [Hg0 HgN]];
            destruct (sel_is_Some (Receptionist.groupRecord rl)
                        (Receptionist.g rl)) as [x Hx]; [lia|];
            pose proof (Hz _ _ Hx) as ->; change TOARRIVE with 0 in Hs;
            rewrite aset_upd in Hs by lia;
            rewrite (upd_same _ _ _ Hx) in Hs; cbn [obind] in Hs;
            afinish Hs Ho; done).
  (* 269 *)
  all: try (match goal with H : at_line 269 |- _ => idtac end;
            destruct (HChand _ eq_refl) as [[Hr [Hph HR]] Hne]; simpl in Hr, HR;
            destruct (decideTableOrWait_spec NT _ (mem s) _ _
                        ltac:(fold N; lia) HR ltac:(done)) as (t & Ht & Hlow);
            rewrite Ht in Hs; cbn [obind] in Hs;
            afinish Hs Ho; [done| |done];
            by eapply unheld_lowest_free).
  (* 274, 278, 311 *)
  all: try (match goal with
            | H : at_line 274 |- _ => idtac
            | H : at_line 278 |- _ => idtac
            | H : at_line 311 |- _ => idtac
            end;
            destruct (HChand _ eq_refl) as [[Hr [Hph HR]] Hne];
            simpl in Hr, HR, Hph, Hne;
            rewrite aset_upd in Hs by lia; cbn [obind] in Hs;
            afinish Hs Ho; [done|done|];
            rewrite (countW_upd _ _ _ _ HR);
            unfold TOARRIVE, WAIT, ATTABLE, DONE;
            repeat case_decide; try done; lia).
  (* 279, 326 *)
  all: try (match goal with
            | H : at_line 279 |- _ => destruct (HCsig _ eq_refl) as (Hr & _)
            | H : at_line 326 |- _ => pose proof HCrass as Hr
            end;
            rewrite aset_upd in Hs by lia; cbn [obind] in Hs;
            afinish Hs Ho; [|done|done];
            apply excl_upd; [done|done|lia]).
  (* 313 *)
  all: try (match goal with H : at_line 313 |- _ => idtac end;
            destruct (aget_sel_ok (assignedTable (mem s))
                        (Receptionist.group_id rl)) as (t & Ht & Hsel); [lia|];
            rewrite Ht in Hs; cbn [obind] in Hs;
            afinish Hs Ho; done).
  (* 314 *)
  all: try (match goal with H : at_line 314 |- _ => idtac end;
            rewrite aset_upd in Hs by lia; cbn [obind] in Hs;
            afinish Hs Ho; [| |done];
            [ apply excl_upd; [done|apply unheld_free|lia]
            | by apply unheld_released ]).
  (* 318 *)
  all: try (match goal with H : at_line 318 |- _ => idtac end;
            destruct (decideNextGroup_spec (Receptionist.groupRecord rl) (mem s))
              as (w & Hw & Hlow); [fold N; lia|];
            rewrite Hw in Hs; cbn [obind] in Hs;
            afinish Hs Ho; done).
  (* 320 *)
  all: try (match goal with H : at_line 320 |- _ => idtac end;
            destruct HCrass as [Hr HR];
            rewrite aset_upd in Hs by lia; cbn [obind] in Hs;
            afinish Hs Ho; [done|done|];
            rewrite (countW_upd _ _ _ _ HR);
            unfold TOARRIVE, WAIT, ATTABLE, DONE;
            repeat case_decide; try done; lia).
Qed.

End AuxStep.

(** ** Tables and waiting count in every reachable state *)

Section Full.

Variables (NT MAXGROUPS : Z).

Lemma countW_replicate n : countW (replicate n 0) = 0.
Proof.
  unfold countW. induction n as [|n IH]; [done|]. simpl.
  rewrite filter_cons_False by done. done.
Qed.

(** Both invariants hold at the start, are kept by every step and so hold
    in every reachable state. *)
Lemma Full_initial s : initial NT MAXGROUPS s -> Full NT s.
Proof.
  intros Hi. destruct (Inv_initial _ _ _ Hi) as (rc & rl & HP).
  exists rc, rl. split; [done|].
  destruct Hi as (HN & Ha & Hg & Hfree & Hgw & Hsem & (rl0 & Hr & HR) & _).
  rewrite (p_rec _ _ _ _ HP) in Hr. injection Hr as -> ->.
  split.
  - intros i j t _ _ Hsi _ Ht. destruct Ht. apply Hfree.
    unfold sel in Hsi. destruct (decide (0 <= i)); [|done].
    by eapply list_elem_of_lookup_2.
  - done.
  - rewrite HR, countW_replicate, Hgw. done.
Qed.

Lemma Full_step s s' : Full NT s -> sys_step s s' -> Full NT s'.
Proof.
  intros (rc & rl & HP & HA) Hstep.
  destruct Hstep as [p' m' v' Hm|p' m' v' Hm|i p' m' v' Hi Hm|s' Hchef].
  - rewrite (p_rec _ _ _ _ HP) in Hm.
    destruct (proto_receptionist NT s rc rl p' m' v' HP Hm)
      as (rc' & rl' & -> & HP').
    exists rc', rl'. split; [done|]. simpl. exact (aux_receptionist NT s rc rl rc' rl' m' v' HP HA Hm).
  - exists rc, rl. pose proof (p_wtr _ _ _ _ HP) as Hw.
    destruct (waiter s) as [wc wl|] eqn:Ew; [|done].
    apply (waiter_move _ _ _ _ _ _ _ Hw) in Hm
      as (Hw' & H1 & H2 & H3 & H4 & H5 & H6 & H7 & H8).
    split.
    + eapply proto_frame; [exact HP| |done]. repeat split; done.
    + simpl. by rewrite H1, H2, H3.
  - exists rc, rl. split; [by apply proto_group|]. simpl.
    destruct (p_grp _ _ _ _ HP i Hi) as (c & l & Hg & Hc & Hn & Hga).
    rewrite Hg in Hm. destruct (p_N _ _ _ _ HP).
    apply (group_move _ _ _ _ _ _ _ i) in Hm; [|done|done|lia|lia|done].
    destruct Hm as (c' & l' & _ & _ & _ & _ & (H1 & H2 & H3 & _) & _).
    by rewrite H1, H2, H3.
  - exists rc, rl.
    destruct Hchef as (H1 & H2 & H3 & H4 & H5 & H6 & H7 & H8 & H9).
    split.
    + eapply proto_frame; [exact HP| |].
      * repeat split; try done; try (by rewrite H4); try (by apply H9).
        intros j. by apply H9.
      * rewrite H2. apply (p_wtr _ _ _ _ HP).
    + by rewrite H5, H6, H7.
Qed.

Lemma Full_reachable s : reachable NT MAXGROUPS s -> Full NT s.
Proof.
  intros (s0 & H0 & Hrtc). apply Full_initial in H0.
  induction Hrtc; eauto using Full_step.
Qed.

(** The receptionist updates under the lock only. *)
Lemma updating_critical line :
  critical line = false -> updating line = false.
Proof. unfold critical, updating. repeat case_match; done. Qed.

(** The receptionist never crashes: neither the assertion of
    [decideTableOrWait] nor an array bound ever fails. *)
Lemma receptionist_alive s :
  reachable NT MAXGROUPS s -> exists rc rl, receptionist s = Live rc rl.
Proof.
  intros (rc & rl & HP & _)%Full_reachable. exists rc, rl. apply HP.
Qed.

End Full.

(** ** Schedules *)

(** A schedule is a run of the system. *)
Lemma fire_step a s s' : fire a s = Some s' -> sys_step s s'.
Proof.
  destruct a as [| |i]; simpl.
  - destruct (move (receptionist s) _ _) as [[[p' m'] v']|] eqn:Hm; [|done].
    intros [= <-]. by constructor.
  - destruct (move (waiter s) _ _) as [[[p' m'] v']|] eqn:Hm; [|done].
    intros [= <-]. by constructor.
  - case_bool_decide; [|done].
    destruct (move (groups s i) _ _) as [[[p' m'] v']|] eqn:Hm; [|done].
    intros [= <-]. by constructor.
Qed.

Lemma fires_rtc sched s : rtc sys_step s (fires sched s).
Proof.
  revert s. induction sched as [|a sched IH]; intros s; [done|]. simpl.
  destruct (fire a s) as [s'|] eqn:Hf; simpl; [|done].
  eapply rtc_l; [by eapply fire_step|done].
Qed.

(** [opening] is an initial state, for one table and two places. *)
Lemma initial_opening : initial 1 2 opening.
Proof.
  unfold initial. split_and!; try done.
  - intros t Ht. simpl in Ht. set_solver.
  - by eexists.
  - by eexists.
  - intros i _. by eexists.
Qed.

Lemma fires_reachable sched : reachable 1 2 (fires sched opening).
Proof. exists opening. split; [apply initial_opening|apply fires_rtc]. Qed.

(** What the two states are. *)
Lemma deciding_view :
  line_at (receptionist deciding) = 269%positive /\
  line_at (groups deciding 0) = 226%positive /\
  Receptionist.groupRecord (vars_at no_vars (receptionist deciding)) = [0; 0].
Proof. vm_compute. done. Qed.

Lemma one_queued_view :
  line_at (receptionist one_queued) = 219%positive /\
  line_at (groups one_queued 0) = 226%positive /\
  line_at (groups one_queued 1) = 226%positive /\
  sems one_queued (sh.waitForTable 0) = 1 /\
  sems one_queued (sh.waitForTable 1) = 0 /\
  Receptionist.groupRecord (vars_at no_vars (receptionist one_queued)) =
    [ATTABLE; WAIT] /\
  assignedTable (mem one_queued) = [0; -1] /\
  groupsWaiting (mem one_queued) = 1.
Proof. vm_compute. done. Qed.

(** ** The service loops *)

Section Finishes.

Context {L : Type}.

Implicit Types (p q : prog L) (E : env) (l : L) (m : FULL_STAT).

(** [finishes], one step at a time. *)
Lemma finishes_step E (f i : nat) p l m Q :
  match step p l (interference E i m) with
  | None => Q l m []
  | Some (a, o) =>
      is_sem_op a && sem_fails E i = false ->
      match o with
      | Crash _ => True
      | Ok (p', l', m') =>
          finishes E f (S i) p' l' m' (fun l m tr => Q l m (event_of a ++ tr))
      end
  end ->
  finishes E (S f) i p l m Q.
Proof.
  unfold finishes. simpl.
  destruct (step p l (interference E i m)) as [[a o]|].
  - destruct (is_sem_op a && sem_fails E i).
    { intros _. eexists. split; [done|]. done. }
    intros H. specialize (H eq_refl).
    destruct o as [[[p' l'] m']|c].
    + destruct H as ([e tr j] & -> & HQ). eexists. split; [done|]. done.
    + eexists. split; [done|]. done.
  - intros H. eexists. split; [done|]. by intros ?? [= <- <-].
Qed.

(** More fuel, a weaker conclusion, and one program after another. *)
Lemma finishes_mono E (f f' i : nat) p l m Q :
  finishes E f i p l m Q -> (f <= f')%nat -> finishes E f' i p l m Q.
Proof.
  intros (res & Hr & HQ) Hle. exists res. split; [|done].
  by eapply run_fuel_mono.
Qed.

Lemma finishes_impl E (f i : nat) p l m (Q Q' : L -> FULL_STAT -> list event -> Prop) :
  finishes E f i p l m Q -> (forall l' m' tr, Q l' m' tr -> Q' l' m' tr) ->
  finishes E f i p l m Q'.
Proof. intros (res & Hr & HQ) H. exists res. split; [done|]. auto. Qed.

Lemma finishes_seq E (f1 f2 i : nat) p q l m Q :
  finishes E f1 i p l m (fun l1 m1 tr1 =>
    forall j, finishes E f2 j q l1 m1 (fun l2 m2 tr2 => Q l2 m2 (tr1 ++ tr2))) ->
  finishes E (f1 + f2) i (pseq p q) l m Q.
Proof.
  intros (r1 & Hr1 & H1).
  destruct (r_end r1) as [[l1 m1]|c] eqn:He.
  - destruct (H1 l1 m1 eq_refl (r_steps r1)) as (r2 & Hr2 & H2).
    eexists. split; [by eapply run_seq|]. simpl. done.
  - exists r1. split.
    + eapply run_fuel_mono; [by eapply run_seq_crash|lia].
    + intros l' m'. by rewrite He.
Qed.

End Finishes.

(** Requests taken along a trace in two parts. *)
Lemma downs_app s tr1 tr2 :
  downs s (tr1 ++ tr2) = (downs s tr1 + downs s tr2)%nat.
Proof.
  induction tr1 as [|e tr1 IH]; [done|].
  destruct e; simpl; try done. destruct (decide _); simpl; lia.
Qed.

Ltac fgo :=
  repeat first
    [ progress cbn [step pseq interference sem_fails is_sem_op event_of andb
                    app obind]
    | match goal with
      | |- finishes _ (S _) _ (if ?c then _ else _) _ _ _ => destruct c eqn:?
      | |- finishes _ (S _) _ _ _ _ _ => apply finishes_step
      | |- _ = false -> _ => intros _
      | |- True => exact I
      | |- context [obind ?x _] =>
          lazymatch x with
          | context [obind] => fail
          | _ => destruct x eqn:?
          end
      end ].

Ltac fdone HN := simplify_eq/=; repeat (rewrite HN; simpl); done.

Section Loops.

Variable E : env.

Hypothesis HN : forall i m, nGroups (interference E i m) = nGroups m.

(** One turn of the receptionist ends, counts one request and takes one
    from [receptionistReq]. *)
Lemma receptionist_turn_finishes NUMTABLES (i : nat) l m :
  finishes E 30 i (Receptionist.turn NUMTABLES) l m (fun l' m' tr =>
    Receptionist.nReq l' = Receptionist.nReq l + 1 /\
    nGroups m' = nGroups m /\
    downs sh.receptionistReq tr = 1%nat).
Proof.
  unfold Receptionist.turn, Receptionist.waitForGroup,
    Receptionist.provideTableOrWaitingRoom, Receptionist.receivePayment,
    semDown, semUp, stmt, saveState.
  fgo. all: fdone HN.
Qed.

(** One turn of the waiter ends, counts one request and takes one from
    [waiterRequest]. *)
Lemma waiter_turn_finishes (i : nat) l m :
  finishes E 30 i Waiter.turn l m (fun l' m' tr =>
    Waiter.nReq l' = Waiter.nReq l + 1 /\
    nGroups m' = nGroups m /\
    downs sh.waiterRequest tr = 1%nat).
Proof.
  unfold Waiter.turn, Waiter.waitForClientOrChef, Waiter.informChef,
    Waiter.takeFoodToTable, semDown, semUp, stmt, saveState.
  fgo. all: fdone HN.
Qed.

(** A loop [while (nReq < nGroups * 2) { turn }] with [k] turns left, each
    turn counting one request and taking it from [s]. *)
Lemma loop_finishes {L} (nReq : L -> Z) (s : sh.sem) (line : positive)
    (turn : prog L) :
  (forall (i : nat) l m,
     finishes E 30 i turn l m (fun l' m' tr =>
       nReq l' = nReq l + 1 /\ nGroups m' = nGroups m /\
       downs s tr = 1%nat)) ->
  forall (k i : nat) l m,
  nReq l + Z.of_nat k = nGroups m * 2 ->
  finishes E (k * 31 + 2) i
    (While line (fun l m => nReq l <? nGroups m * 2) turn Return) l m
    (fun l' m' tr => nReq l' = nGroups m * 2 /\ downs s tr = k).
Proof.
  intros Hturn k. induction k as [|k IH]; intros i l m Hk.
  - apply finishes_step. cbn [step]. rewrite HN.
    replace (nReq l <? nGroups m * 2) with false by lia.
    intros _. apply finishes_step. simpl. split; [lia|done].
  - replace (S k * 31 + 2)%nat with (S (30 + (k * 31 + 2)))%nat by lia.
    apply finishes_step. cbn [step]. rewrite HN.
    replace (nReq l <? nGroups m * 2) with true by lia.
    intros _. apply finishes_seq.
    destruct (Hturn (S i) l (interference E i m)) as (res & Hr & HQ).
    exists res. split; [done|]. intros l1 m1 He j.
    destruct (HQ _ _ He) as (Hn1 & Hg1 & Hd1). rewrite HN in Hg1.
    destruct (IH j l1 m1 ltac:(lia)) as (res2 & Hr2 & HQ2).
    exists res2. split; [done|]. intros l2 m2 He2.
    destruct (HQ2 _ _ He2) as [Hn2 Hd2]. split; [lia|].
    simpl. rewrite downs_app. lia.
Qed.

(** The two service loops. *)
Lemma receptionist_service_finishes NUMTABLES l m :
  0 <= nGroups m ->
  finishes E (S (Z.to_nat (2 * nGroups m) * 31 + 2)) 0
    (Receptionist.service_loop NUMTABLES) l m
    (fun l' m' tr =>
       Receptionist.nReq l' = 2 * nGroups m /\
       downs sh.receptionistReq tr = Z.to_nat (2 * nGroups m)).
Proof.
  intros Hn. apply finishes_step.
  cbn [step Receptionist.service_loop stmt pseq]. intros _.
  eapply finishes_impl;
    [apply (loop_finishes Receptionist.nReq sh.receptionistReq 118
              (Receptionist.turn NUMTABLES)
              (receptionist_turn_finishes NUMTABLES)
              (Z.to_nat (2 * nGroups m)) 1 _ (interference E 0 m));
      rewrite HN; simpl; lia|].
  intros l' m' tr [H1 H2]. rewrite HN in H1. simpl. split; [lia|done].
Qed.

Lemma waiter_service_finishes l m :
  0 <= nGroups m ->
  finishes E (S (Z.to_nat (2 * nGroups m) * 31 + 2)) 0 Waiter.main l m
    (fun l' m' tr =>
       Waiter.nReq l' = 2 * nGroups m /\
       downs sh.waiterRequest tr = Z.to_nat (2 * nGroups m)).
Proof.
  intros Hn. apply finishes_step.
  cbn [step Waiter.main stmt pseq]. intros _.
  eapply finishes_impl;
    [apply (loop_finishes Waiter.nReq sh.waiterRequest 102
              Waiter.turn
              waiter_turn_finishes
              (Z.to_nat (2 * nGroups m)) 1 _ (interference E 0 m));
      rewrite HN; simpl; lia|].
  intros l' m' tr [H1 H2]. rewrite HN in H1. simpl. split; [lia|done].
Qed.

(** The two loops as runs of one process, on a day with [n] groups: whatever
    the other processes do to the shared region apart from [nGroups], and
    whichever semaphore operation fails, when every [semDown] returns the
    service loop of the receptionist and the one of the waiter end within
    [62 * n + 3] steps, and a run that is not ended by a crash or by a
    failing semaphore operation has counted exactly [2 * n] requests and
    has taken exactly [2 * n] requests from its request semaphore. *)
Lemma service_loops_finish NUMTABLES (n : Z) lr lw m :
  nGroups m = n -> 0 <= n ->
  (exists res,
     run E (Z.to_nat (2 * n) * 31 + 3) 0
       (Receptionist.service_loop NUMTABLES) lr m = Some res /\
     forall l' m', r_end res = Ok (l', m') ->
       Receptionist.nReq l' = 2 * n /\
       downs sh.receptionistReq (r_trace res) = Z.to_nat (2 * n)) /\
  (exists res,
     run E (Z.to_nat (2 * n) * 31 + 3) 0 Waiter.main lw m = Some res /\
     forall l' m', r_end res = Ok (l', m') ->
       Waiter.nReq l' = 2 * n /\
       downs sh.waiterRequest (r_trace res) = Z.to_nat (2 * n)).
Proof.
  intros <- Hn.
  replace (Z.to_nat (2 * nGroups m) * 31 + 3)%nat
    with (S (Z.to_nat (2 * nGroups m) * 31 + 2)) by lia.
  split.
  - by apply receptionist_service_finishes.
  - by apply waiter_service_finishes.
Qed.

End Loops.

(** The two loops on the day [one_group_served]. *)
Lemma service_loops_finish_example :
  (exists res,
     run one_group_served 65 0 (Receptionist.service_loop 1)
       receptionist_at_start one_group_going = Some res /\
     forall l' m', r_end res = Ok (l', m') ->
       Receptionist.nReq l' = 2 /\
       downs sh.receptionistReq (r_trace res) = 2%nat) /\
  (exists res,
     run one_group_served 65 0 Waiter.main waiter_at_start one_group_going
       = Some res /\
     forall l' m', r_end res = Ok (l', m') ->
       Waiter.nReq l' = 2 /\
       downs sh.waiterRequest (r_trace res) = 2%nat).
Proof.
  apply (service_loops_finish one_group_served
           ltac:(intros i m; simpl; destruct (i <? 27)%nat; reflexivity)
           1 1 receptionist_at_start waiter_at_start one_group_going);
    [reflexivity | lia].
Qed.

(** On that day both loops run to their end. *)
Lemma service_loops_complete :
  (exists l' m',
     r_end <$> run one_group_served 65 0 (Receptionist.service_loop 1)
                 receptionist_at_start one_group_going = Some (Ok (l', m')) /\
     Receptionist.nReq l' = 2) /\
  (exists l' m',
     r_end <$> run one_group_served 65 0 Waiter.main waiter_at_start
                 one_group_going = Some (Ok (l', m')) /\
     Waiter.nReq l' = 2).
Proof.
  split; eexists _, _; (split; [vm_compute; reflexivity|reflexivity]).
Qed.

(** ** The life cycle of a group *)

Section Completes.

Context {L : Type}.

Implicit Types (p q : prog L) (E : env) (l : L) (m : FULL_STAT).

(** [completes], one step at a time. *)
Lemma completes_step E (f i : nat) p l m Q :
  match step p l (interference E i m) with
  | None => Q l m []
  | Some (a, o) =>
      is_sem_op a && sem_fails E i = false /\
      match o with
      | Crash _ => False
      | Ok (p', l', m') =>
          completes E f (S i) p' l' m' (fun l m tr => Q l m (event_of a ++ tr))
      end
  end ->
  completes E (S f) i p l m Q.
Proof.
  unfold completes. simpl.
  destruct (step p l (interference E i m)) as [[a o]|].
  - intros [-> H]. destruct o as [[[p' l'] m']|c]; [|done].
    destruct H as ([e tr j] & l1 & m1 & -> & He & HQ). simpl in *.
    eexists _, l1, m1. split; [done|]. done.
  - intros H. eexists _, l, m. split; [done|]. done.
Qed.

End Completes.

Section Lifecycle.

Variable E : env.

Variable g : nat.

Hypothesis Hsem : forall i, sem_fails E i = false.

Hypothesis Hstat : forall i m,
  groupStat (st (interference E i m)) !! g = groupStat (st m) !! g.

Hypothesis Hlen : forall i m,
  length (assignedTable (interference E i m)) = length (assignedTable m).

Ltac settle :=
  lazymatch goal with
  | |- completes _ _ _ _ _ ?M _ =>
      tryif is_var M then idtac else
      match goal with
      | Hs : groupStat (st ?m1) !! g = Some ?v,
        Ha : (g < length (assignedTable ?m1))%nat |- _ =>
          lazymatch M with context [m1] => idtac end;
          let Hs' := fresh "Hs" in
          let Ha' := fresh "Ha" in
          first
            [ assert (Hs' : groupStat (st M) !! g = Some v) by exact Hs
            | lazymatch M with
              | set_groupStat (upd _ _ ?V) _ =>
                  assert (Hs' : groupStat (st M) !! g = Some V)
                    by (unfold upd; simpl;
                        match goal with
                        | H : Group.n _ = _ |- _ => rewrite H
                        end;
                        rewrite Nat2Z.id;
                        apply list_lookup_insert_eq;
                        eapply lookup_lt_Some; exact Hs)
              end ];
          assert (Ha' : (g < length (assignedTable M))%nat) by exact Ha;
          generalize dependent M; intros ? ? ?
      end
  end.

Ltac interfere :=
  lazymatch goal with
  | |- context [interference E ?i ?m] =>
      match goal with
      | Hs : groupStat (st m) !! g = Some ?v,
        Ha : (g < length (assignedTable m))%nat |- _ =>
          let Hs' := fresh "Hs" in
          let Ha' := fresh "Ha" in
          pose proof (Hstat i m) as Hs'; rewrite Hs in Hs';
          assert (Ha' : (g < length (assignedTable (interference E i m)))%nat)
            by (rewrite Hlen; exact Ha);
          generalize dependent (interference E i m); intros ? ? ?
      end
  end.

Ltac bounds m :=
  simpl;
  match goal with H : Group.n _ = _ |- _ => rewrite H end;
  match goal with
  | H : groupStat (st m) !! g = Some _ |- _ =>
      pose proof (lookup_lt_Some _ _ _ H)
  end;
  match goal with
  | H : (g < length (assignedTable m))%nat |- _ => lia
  end.

Ltac cstep :=
  settle; apply completes_step; interfere;
  cbn [step pseq is_sem_op event_of andb app]; rewrite ?Hsem;
  split; [reflexivity|];
  try match goal with
  | |- context [Group.store_groupStat ?x ?l ?m] =>
      rewrite (store_groupStat_ok x l m) by bounds m
  | |- context [Group.load_table ?l ?m] =>
      let t := fresh "t" in
      let Ht := fresh "Ht" in
      destruct (load_table_ok l m) as [t Ht]; [bounds m | rewrite Ht]
  end;
  cbn [Group.set_req Group.set_table_id Group.n Group.req Group.table_id
       reqType reqGroup].

(** The life cycle of the group, statement by statement. *)
Lemma life_completes l m v0 :
  Group.n l = Z.of_nat g ->
  groupStat (st m) !! g = Some v0 ->
  (g < length (assignedTable m))%nat ->
  completes E 60 0 Group.life l m (fun _ _ tr =>
    persisted g tr =
      [ATRECEPTION; FOOD_REQUEST; WAIT_FOR_FOOD; EAT; CHECKOUT; LEAVING]).
Proof.
  intros Hn Hs Ha.
  unfold Group.life, Group.goToRestaurant, Group.checkInAtReception,
    Group.orderFood, Group.waitFood, Group.eat, Group.checkOutAtReception,
    semDown, semUp, stmt, saveState, usleep.
  cbn [pseq].
  do 50 cstep.
  apply completes_step. cbn [step persisted].
  repeat match goal with
         | H : groupStat (st ?f) !! g = Some _
           |- context [groupStat (st ?f) !! g] => rewrite H
         end.
  reflexivity.
Qed.

(** C4, as the code has it: a group that runs its life cycle to the end
    persists its status six times, and the statuses persisted are, in this
    order, ATRECEPTION, FOOD_REQUEST, WAIT_FOR_FOOD, EAT, CHECKOUT and
    LEAVING.  The other processes are any environment in which no
    semaphore operation fails, nobody else writes the status of this group
    and the table array keeps its length. *)
Theorem C4_persisted_statuses l m v0 :
  Group.n l = Z.of_nat g ->
  groupStat (st m) !! g = Some v0 ->
  (g < length (assignedTable m))%nat ->
  exists res,
    run E 60 0 Group.life l m = Some res /\
    (exists l' m', r_end res = Ok (l', m')) /\
    persisted g (r_trace res) =
      [ATRECEPTION; FOOD_REQUEST; WAIT_FOR_FOOD; EAT; CHECKOUT; LEAVING].
Proof.
  intros Hn Hs Ha.
  destruct (life_completes l m v0 Hn Hs Ha) as (res & l' & m' & Hr & He & HQ).
  exists res. split; [done|]. split; [by exists l', m'|done].
Qed.

End Lifecycle.

(** C4 for a group on its own. *)
Lemma C4_persisted_statuses_witness :
  exists res,
    run quiet 60 0 Group.life group_at_start one_group_going = Some res /\
    (exists l' m', r_end res = Ok (l', m')) /\
    persisted 0 (r_trace res) =
      [ATRECEPTION; FOOD_REQUEST; WAIT_FOR_FOOD; EAT; CHECKOUT; LEAVING].
Proof.
  apply (C4_persisted_statuses quiet 0 (fun _ => eq_refl)
           (fun _ _ => eq_refl) (fun _ _ => eq_refl)
           group_at_start one_group_going GOING);
    [reflexivity | reflexivity | simpl; lia].
Defined.

(** C4 as the specification words it (the sequence starts with GOING) fails
    on the run of a group on its own. *)
Lemma C4_going_not_persisted :
  exists res,
    run quiet 60 0 Group.life group_at_start one_group_going = Some res /\
    forall rest, persisted 0 (r_trace res) <> GOING :: rest.
Proof.
  eexists. split; [vm_compute; reflexivity|]. intros rest. simpl. discriminate.
Qed.

(** The scans read [assignedTable] and [nGroups] only. *)
Lemma scanGroups_ext m m' table g todo :
  assignedTable m' = assignedTable m ->
  Receptionist.scanGroups m' table g todo = Receptionist.scanGroups m table g todo.
Proof.
  intros Ha. revert g. induction todo as [|todo IH]; intros g; [done|].
  simpl. rewrite Ha. destruct (aget _ _); [|done]. simpl.
  by rewrite IH.
Qed.

Lemma scanTables_ext m m' t todo :
  assignedTable m' = assignedTable m -> nGroups m' = nGroups m ->
  Receptionist.scanTables m' t todo = Receptionist.scanTables m t todo.
Proof.
  intros Ha Hn. revert t. induction todo as [|todo IH]; intros t; [done|].
  simpl. rewrite Hn, (scanGroups_ext m m') by done.
  destruct (Receptionist.scanGroups _ _ _ _); [|done]. simpl.
  by rewrite IH.
Qed.

Lemma decideTableOrWait_ext NT R m m' gid :
  assignedTable m' = assignedTable m -> nGroups m' = nGroups m ->
  Receptionist.decideTableOrWait NT R m' gid =
  Receptionist.decideTableOrWait NT R m gid.
Proof.
  intros Ha Hn. unfold Receptionist.decideTableOrWait.
  destruct (aget R gid); [|done]. simpl.
  by rewrite (scanTables_ext m m').
Qed.

(** -1 is returned exactly when every table is held. *)
Lemma lowest_free_none NT m t :
  lowest_free NT m t ->
  (t = -1 <-> forall t', 0 <= t' < NT -> taken m t').
Proof.
  intros [[-> H]|(Ht & Hf & _)].
  - done.
  - split; [lia|]. intros H. destruct Hf. by apply H.
Qed.

Ltac qstep :=
  apply completes_step;
  cbn [step pseq is_sem_op event_of andb app interference sem_fails quiet];
  split; [reflexivity|].

(** ** The two operations of the receptionist, run under the lock *)

Ltac rcbn :=
  cbn [Receptionist.groupRecord Receptionist.group_id Receptionist.table_id
       Receptionist.new_group_id Receptionist.set_table_id
       Receptionist.set_groupRecord Receptionist.set_new_group_id
       assignedTable groupsWaiting nGroups set_receptionistStat
       set_assignedTable set_groupsWaiting obind].

Section Policy.

Variable NT : Z.

(** provideTableOrWaitingRoom, given what [decideTableOrWait] returns. *)
Lemma provide_completes (l : Receptionist.rvars) (m : FULL_STAT) (t : Z) :
  let R := Receptionist.groupRecord l in
  let gid := Receptionist.group_id l in
  0 <= gid < Z.of_nat (length R) ->
  gid < Z.of_nat (length (assignedTable m)) ->
  Receptionist.decideTableOrWait NT R m gid = Ok t ->
  (t = -1 \/ 0 <= t) ->
  completes quiet 10 0 (Receptionist.provideTableOrWaitingRoom NT) l m
    (fun l' m' tr =>
       nGroups m' = nGroups m /\
       (t = -1 ->
          groupsWaiting m' = groupsWaiting m + 1 /\
          Receptionist.groupRecord l' = upd R gid WAIT /\
          assignedTable m' = assignedTable m /\
          forall g, ups (sh.waitForTable g) tr = 0%nat) /\
       (t <> -1 ->
          groupsWaiting m' = groupsWaiting m /\
          Receptionist.groupRecord l' = upd R gid ATTABLE /\
          assignedTable m' = upd (assignedTable m) gid t /\
          ups (sh.waitForTable gid) tr = 1%nat)).
Proof.
  intros R gid HgR Hgid Hdec Ht.
  unfold Receptionist.provideTableOrWaitingRoom, semDown, semUp, stmt,
    saveState.
  cbn [pseq]. do 4 qstep.
  rewrite (decideTableOrWait_ext NT _ m) by done.
  fold R gid. rewrite Hdec. rcbn. qstep. rcbn.
  destruct (t <? 0) eqn:Hneg.
  - assert (t = -1) as -> by lia.
    qstep. qstep. rcbn. fold R gid. rewrite aset_upd by done. rcbn. qstep.
    apply completes_step. cbn [step]. split; [done|].
    split; [|done]. intros _. repeat split; done.
  - assert (t <> -1) by lia.
    qstep. rcbn. fold R gid. rewrite aset_upd by done. rcbn. qstep. rcbn.
    fold gid. rewrite aset_upd by lia. rcbn. qstep. qstep.
    apply completes_step. cbn [step]. split; [done|]. split; [done|].
    intros _. repeat split; try done.
    simpl. by rewrite decide_True.
Qed.

(** receivePayment, given what [decideNextGroup] returns. *)
Lemma payment_completes (l : Receptionist.rvars) (m : FULL_STAT) (t w : Z) :
  let R := Receptionist.groupRecord l in
  let gid := Receptionist.group_id l in
  let R1 := upd R gid DONE in
  let a1 := upd (assignedTable m) gid (-1) in
  gid < Z.of_nat (length R) ->
  sel (assignedTable m) gid = Some t ->
  Receptionist.decideNextGroup R1 m = Ok w ->
  (w = -1 \/
   0 <= w < Z.of_nat (length R) /\ w < Z.of_nat (length (assignedTable m)) /\
   0 < groupsWaiting m) ->
  completes quiet 16 0 Receptionist.receivePayment l m
    (fun l' m' tr =>
       nGroups m' = nGroups m /\
       Receptionist.table_id l' = t /\
       (w = -1 ->
          Receptionist.groupRecord l' = R1 /\
          assignedTable m' = a1 /\
          groupsWaiting m' = groupsWaiting m /\
          forall g, ups (sh.waitForTable g) tr = 0%nat) /\
       (w <> -1 ->
          Receptionist.groupRecord l' = upd R1 w ATTABLE /\
          assignedTable m' = upd a1 w t /\
          groupsWaiting m' = groupsWaiting m - 1 /\
          ups (sh.waitForTable w) tr = 1%nat) /\
       exists tr0,
         tr = tr0 ++ [Eup sh.mutex; Eup (sh.tableDone t)] /\
         ups (sh.tableDone t) tr0 = 0%nat).
Proof.
  intros R gid R1 a1 HgR Ht Hdec Hw.
  pose proof (sel_Some_bound _ _ _ Ht) as Hga.
  unfold Receptionist.receivePayment, semDown, semUp, stmt, saveState.
  cbn [pseq]. do 3 qstep. qstep. fold R gid.
  rewrite aset_upd by lia. fold R1. rcbn. qstep. rcbn. fold gid.
  apply aget_sel in Ht. rewrite Ht. rcbn. qstep. rcbn. fold gid.
  rewrite aset_upd by lia. fold a1. rcbn. qstep. rcbn.
  destruct (groupsWaiting m >? 0) eqn:Hgw.
  - qstep. rcbn.
    change (Receptionist.decideNextGroup R1 _)
      with (Receptionist.decideNextGroup R1 m).
    rewrite Hdec. rcbn. qstep. rcbn.
    destruct (w >? -1) eqn:Hw1.
    + destruct Hw as [->|(HwR & Hwa & _)]; [done|].
      qstep. rcbn. rewrite aset_upd by (unfold R1; rewrite length_upd; lia).
      rcbn. qstep. qstep. rcbn. qstep. rcbn.
      rewrite aset_upd by (unfold a1; rewrite length_upd; lia).
      rcbn. qstep. qstep. apply completes_step. cbn [step].
      split; [done|]. split; [done|]. split; [lia|]. split.
      { intros _. repeat split; try done.
        simpl. by rewrite decide_True. }
      eexists (_ :: _ :: _ :: _ :: _ :: _ :: _ :: _ :: _ :: _ :: [_]).
      split; [reflexivity|]. done.
    + assert (w = -1) as -> by lia.
      qstep. qstep. apply completes_step. cbn [step].
      split; [done|]. split; [done|]. split; [done|]. split; [done|].
      eexists (_ :: _ :: _ :: _ :: _ :: _ :: [_]).
      split; [reflexivity|]. done.
  - assert (w = -1) as -> by lia.
    qstep. qstep. apply completes_step. cbn [step].
    split; [done|]. split; [done|]. split; [done|]. split; [done|].
    eexists (_ :: _ :: _ :: _ :: _ :: [_]).
    split; [reflexivity|]. done.
Qed.

(** Range of the two results. *)
Lemma lowest_free_range m t : lowest_free NT m t -> t = -1 \/ 0 <= t.
Proof. intros [[-> _]|[? _]]; lia. Qed.

Lemma lowest_waiting_range R m w :
  nGroups m <= Z.of_nat (length R) ->
  lowest_waiting R m w ->
  w = -1 \/ 0 <= w < nGroups m /\ sel R w = Some WAIT /\ 0 < groupsWaiting m.
Proof. intros HN [[-> _]|(? & ? & ? & _)]; [by left|by right]. Qed.

(** C2: [decideTableOrWait] returns the lowest table of
    0 .. NUMTABLES-1 that no group holds, and -1 exactly when every table
    is held by some group.  On a request for a table
    (provideTableOrWaitingRoom), when the result is -1 the receptionist
    increments [groupsWaiting] and records the group as WAIT, leaves
    [assignedTable] as it is and signals no table semaphore; otherwise it
    records the group as ATTABLE, sets its entry of [assignedTable] to
    the table returned and signals the table semaphore of the group, once.
    The group is one whose record is below 2, as the assertion of
    [decideTableOrWait] asks. *)
Theorem C2_table_assignment (l : Receptionist.rvars) (m : FULL_STAT) (r : Z) :
  let R := Receptionist.groupRecord l in
  let gid := Receptionist.group_id l in
  0 <= nGroups m <= Z.of_nat (length (assignedTable m)) ->
  sel R gid = Some r -> r < 2 ->
  gid < Z.of_nat (length (assignedTable m)) ->
  exists t res l' m',
    Receptionist.decideTableOrWait NT R m gid = Ok t /\
    lowest_free NT m t /\
    (t = -1 <-> forall t', 0 <= t' < NT -> taken m t') /\
    run quiet 10 0 (Receptionist.provideTableOrWaitingRoom NT) l m = Some res /\
    r_end res = Ok (l', m') /\
    (t = -1 ->
       groupsWaiting m' = groupsWaiting m + 1 /\
       Receptionist.groupRecord l' = upd R gid WAIT /\
       assignedTable m' = assignedTable m /\
       forall g, ups (sh.waitForTable g) (r_trace res) = 0%nat) /\
    (t <> -1 ->
       groupsWaiting m' = groupsWaiting m /\
       Receptionist.groupRecord l' = upd R gid ATTABLE /\
       assignedTable m' = upd (assignedTable m) gid t /\
       ups (sh.waitForTable gid) (r_trace res) = 1%nat).
Proof.
  intros R gid HN HR Hr Hgid.
  destruct (decideTableOrWait_spec NT R m gid r HN HR Hr) as (t & Hdec & Hlow).
  pose proof (sel_Some_bound _ _ _ HR) as HgR.
  destruct (provide_completes l m t HgR Hgid Hdec (lowest_free_range _ _ Hlow))
    as (res & l' & m' & Hrun & He & _ & HQ).
  exists t, res, l', m'.
  split; [done|]. split; [done|]. split; [by apply lowest_free_none|]. done.
Qed.

End Policy.

(** C3: on a bill request of group [gid] (receivePayment) the receptionist
    records the group as DONE, keeps its table [t] and sets its entry of
    [assignedTable] to -1.  [decideNextGroup] then gives the lowest group
    whose record is WAIT when [groupsWaiting > 0] and there is one, and -1
    otherwise.  In the first case that group is recorded as ATTABLE, its
    table semaphore is signalled once, [groupsWaiting] is decremented and
    its entry of [assignedTable] becomes [t]; in the second case nothing
    else changes and no table semaphore is signalled.  The last two
    things the receptionist does are the release of the lock and, after
    it, the signal on the table-done semaphore of table [t]. *)
Theorem C3_payment (l : Receptionist.rvars) (m : FULL_STAT) (t : Z) :
  let R := Receptionist.groupRecord l in
  let gid := Receptionist.group_id l in
  let R1 := upd R gid DONE in
  let a1 := upd (assignedTable m) gid (-1) in
  0 <= nGroups m <= Z.of_nat (length R) ->
  nGroups m <= Z.of_nat (length (assignedTable m)) ->
  sel (assignedTable m) gid = Some t ->
  gid < Z.of_nat (length R) ->
  exists w res l' m',
    Receptionist.decideNextGroup R1 m = Ok w /\
    lowest_waiting R1 m w /\
    run quiet 16 0 Receptionist.receivePayment l m = Some res /\
    r_end res = Ok (l', m') /\
    Receptionist.table_id l' = t /\
    (w = -1 ->
       Receptionist.groupRecord l' = R1 /\
       assignedTable m' = a1 /\
       groupsWaiting m' = groupsWaiting m /\
       forall g, ups (sh.waitForTable g) (r_trace res) = 0%nat) /\
    (w <> -1 ->
       Receptionist.groupRecord l' = upd R1 w ATTABLE /\
       assignedTable m' = upd a1 w t /\
       groupsWaiting m' = groupsWaiting m - 1 /\
       ups (sh.waitForTable w) (r_trace res) = 1%nat) /\
    exists tr0,
      r_trace res = tr0 ++ [Eup sh.mutex; Eup (sh.tableDone t)] /\
      ups (sh.tableDone t) tr0 = 0%nat.
Proof.
  intros R gid R1 a1 HN HNa Ht HgR.
  destruct (decideNextGroup_spec R1 m) as (w & Hdec & Hlow).
  { unfold R1. by rewrite length_upd. }
  destruct (payment_completes l m t w HgR Ht Hdec)
    as (res & l' & m' & Hrun & He & _ & HQ).
  { destruct (lowest_waiting_range R1 m w) as [->|(Hw & _ & Hgw)];
      [unfold R1; rewrite length_upd; lia|done|by left|].
    right. fold R. lia. }
  exists w, res, l', m'. done.
Qed.

(** C2 when the only table is free. *)
Lemma C2_table_assignment_witness :
  exists t,
    Receptionist.decideTableOrWait 1 [0] one_group_going 0 = Ok t /\
    lowest_free 1 one_group_going t.
Proof.
  destruct (C2_table_assignment 1 receptionist_at_start one_group_going 0)
    as (t & res & l' & m' & Hd & Hl & _).
  - simpl. lia.
  - reflexivity.
  - lia.
  - simpl. lia.
  - exists t. split; [exact Hd|exact Hl].
Defined.

(** C3 when group 0 pays and group 1 waits. *)
Lemma C3_payment_witness :
  exists w,
    Receptionist.decideNextGroup [DONE; WAIT] one_group_queued = Ok w /\
    lowest_waiting [DONE; WAIT] one_group_queued w.
Proof.
  destruct (C3_payment receptionist_billing one_group_queued 0)
    as (w & res & l' & m' & Hd & Hl & _).
  - simpl. lia.
  - simpl. lia.
  - reflexivity.
  - simpl. lia.
  - exists w. split; [exact Hd|exact Hl].
Defined.

(** ** Tables, waiting count and assertion in every reachable state *)

Section Reachable.

Variables (NT MAXGROUPS : Z).

(** C1: in every reachable state no two distinct groups hold the same
    table: two entries of [assignedTable] below [nGroups] that are equal
    and not -1 are the entry of one group.  The state is reached by any
    interleaving of the statements of the receptionist (so it may be in
    the middle of one of its operations), of the waiter, of the groups and
    of the chef.  Moreover each of provideTableOrWaitingRoom and
    receivePayment, run under the lock from a state where no table is
    held twice, ends in such a state. *)
Theorem C1_tables_exclusive :
  (forall s,
     reachable NT MAXGROUPS s ->
     exclusive (nGroups (mem s)) (assignedTable (mem s))) /\
  (forall l m r,
     0 <= nGroups m <= Z.of_nat (length (assignedTable m)) ->
     sel (Receptionist.groupRecord l) (Receptionist.group_id l) = Some r ->
     r < 2 ->
     Receptionist.group_id l < Z.of_nat (length (assignedTable m)) ->
     exclusive (nGroups m) (assignedTable m) ->
     exists res l' m',
       run quiet 10 0 (Receptionist.provideTableOrWaitingRoom NT) l m
         = Some res /\
       r_end res = Ok (l', m') /\
       exclusive (nGroups m') (assignedTable m')) /\
  (forall l m t,
     nGroups m <= Z.of_nat (length (Receptionist.groupRecord l)) ->
     nGroups m <= Z.of_nat (length (assignedTable m)) ->
     0 <= Receptionist.group_id l < nGroups m ->
     sel (assignedTable m) (Receptionist.group_id l) = Some t ->
     exclusive (nGroups m) (assignedTable m) ->
     exists res l' m',
       run quiet 16 0 Receptionist.receivePayment l m = Some res /\
       r_end res = Ok (l', m') /\
       exclusive (nGroups m') (assignedTable m')).
Proof.
  split; [|split].
  - intros s (rc & rl & HP & HA)%Full_reachable. apply HA.
  - intros l m r HN HR Hr Hgid Hex.
    destruct (decideTableOrWait_spec NT _ m _ r HN HR Hr) as (t & Hdec & Hlow).
    pose proof (sel_Some_bound _ _ _ HR) as HgR.
    destruct (provide_completes NT l m t HgR Hgid Hdec
                (lowest_free_range _ _ _ Hlow))
      as (res & l' & m' & Hrun & He & HNm & H1 & H2).
    exists res, l', m'. split; [done|]. split; [done|]. rewrite HNm.
    destruct (decide (t = -1)) as [Ht|Ht].
    + destruct (H1 Ht) as (_ & _ & -> & _). done.
    + destruct (H2 Ht) as (_ & _ & -> & _).
      apply excl_upd; [done| |lia]. by eapply unheld_lowest_free.
  - intros l m t HNR HNa Hgid Ht Hex.
    pose proof (sel_Some_bound _ _ _ Ht) as Hga.
    set (R1 := upd (Receptionist.groupRecord l) (Receptionist.group_id l) DONE).
    destruct (decideNextGroup_spec R1 m) as (w & Hdec & Hlow).
    { unfold R1. rewrite length_upd. lia. }
    assert (HwR : w = -1 \/ 0 <= w < nGroups m /\ 0 < groupsWaiting m).
    { destruct (lowest_waiting_range R1 m w) as [->|(Hw & _ & Hgw)];
        [unfold R1; rewrite length_upd; lia|done|by left|by right]. }
    destruct (payment_completes l m t w ltac:(lia) Ht Hdec)
      as (res & l' & m' & Hrun & He & HNm & _ & H1 & H2 & _).
    { destruct HwR as [->|[Hw Hgw]]; [by left|right; lia]. }
    exists res, l', m'. split; [done|]. split; [done|]. rewrite HNm.
    assert (Hex1 : exclusive (nGroups m)
                     (upd (assignedTable m) (Receptionist.group_id l) (-1))).
    { apply excl_upd; [done|apply unheld_free|done]. }
    destruct (decide (w = -1)) as [Hw|Hw].
    + destruct (H1 Hw) as (_ & -> & _). done.
    + destruct (H2 Hw) as (_ & -> & _).
      destruct HwR as [?|[HwN _]]; [done|].
      apply excl_upd; [done| |rewrite length_upd; lia].
      by apply unheld_released.
Qed.

(** C5: in every reachable state in which the receptionist is outside its
    critical regions, [groupsWaiting] is the number of entries of
    [groupRecord] equal to WAIT.  Moreover each of the two operations, run
    under the lock from a state where the two are equal, ends in such a
    state: provideTableOrWaitingRoom for a group whose record is TOARRIVE,
    receivePayment for a group whose record is not WAIT. *)
Theorem C5_waiting_count :
  (forall s rc rl,
     reachable NT MAXGROUPS s ->
     receptionist s = Live rc rl ->
     critical (line_of rc) = false ->
     groupsWaiting (mem s) = countW (Receptionist.groupRecord rl)) /\
  (forall l m,
     0 <= nGroups m <= Z.of_nat (length (assignedTable m)) ->
     sel (Receptionist.groupRecord l) (Receptionist.group_id l)
       = Some TOARRIVE ->
     Receptionist.group_id l < Z.of_nat (length (assignedTable m)) ->
     groupsWaiting m = countW (Receptionist.groupRecord l) ->
     exists res l' m',
       run quiet 10 0 (Receptionist.provideTableOrWaitingRoom NT) l m
         = Some res /\
       r_end res = Ok (l', m') /\
       groupsWaiting m' = countW (Receptionist.groupRecord l')) /\
  (forall l m t r,
     0 <= nGroups m <= Z.of_nat (length (Receptionist.groupRecord l)) ->
     nGroups m <= Z.of_nat (length (assignedTable m)) ->
     sel (assignedTable m) (Receptionist.group_id l) = Some t ->
     sel (Receptionist.groupRecord l) (Receptionist.group_id l) = Some r ->
     r <> WAIT ->
     groupsWaiting m = countW (Receptionist.groupRecord l) ->
     exists res l' m',
       run quiet 16 0 Receptionist.receivePayment l m = Some res /\
       r_end res = Ok (l', m') /\
       groupsWaiting m' = countW (Receptionist.groupRecord l')).
Proof.
  split; [|split].
  - intros s rc rl (rc' & rl' & HP & HA)%Full_reachable Hr Hl.
    rewrite (p_rec _ _ _ _ HP) in Hr. injection Hr as -> ->.
    destruct HA as [_ _ Hc]. rewrite updating_critical in Hc by done. lia.
  - intros l m HN HR Hgid Heq.
    destruct (decideTableOrWait_spec NT _ m _ TOARRIVE HN HR ltac:(done))
      as (t & Hdec & Hlow).
    pose proof (sel_Some_bound _ _ _ HR) as HgR.
    destruct (provide_completes NT l m t HgR Hgid Hdec
                (lowest_free_range _ _ _ Hlow))
      as (res & l' & m' & Hrun & He & _ & H1 & H2).
    exists res, l', m'. split; [done|]. split; [done|].
    destruct (decide (t = -1)) as [Ht|Ht].
    + destruct (H1 Ht) as (-> & -> & _).
      rewrite (countW_upd _ _ _ _ HR). rewrite decide_False by done.
      rewrite decide_True by done. lia.
    + destruct (H2 Ht) as (-> & -> & _).
      rewrite (countW_upd _ _ _ _ HR). rewrite !decide_False by done. lia.
  - intros l m t r HN HNa Ht HR Hr Heq.
    pose proof (sel_Some_bound _ _ _ HR) as HgR.
    set (R1 := upd (Receptionist.groupRecord l) (Receptionist.group_id l) DONE).
    assert (HR1 : countW R1 = countW (Receptionist.groupRecord l)).
    { unfold R1. rewrite (countW_upd _ _ _ _ HR).
      rewrite !decide_False by done. lia. }
    destruct (decideNextGroup_spec R1 m) as (w & Hdec & Hlow).
    { unfold R1. rewrite length_upd. lia. }
    assert (HwR : w = -1 \/
              0 <= w < nGroups m /\ sel R1 w = Some WAIT /\
              0 < groupsWaiting m).
    { apply lowest_waiting_range; [|done].
      unfold R1. rewrite length_upd. lia. }
    destruct (payment_completes l m t w ltac:(lia) Ht Hdec)
      as (res & l' & m' & Hrun & He & _ & _ & H1 & H2 & _).
    { destruct HwR as [->|(Hw & _ & Hgw)]; [by left|right; lia]. }
    exists res, l', m'. split; [done|]. split; [done|].
    destruct (decide (w = -1)) as [Hw|Hw].
    + destruct (H1 Hw) as (-> & _ & -> & _). fold R1. lia.
    + destruct (H2 Hw) as (-> & _ & -> & _). fold R1.
      destruct HwR as [?|(_ & HwW & _)]; [done|].
      rewrite (countW_upd _ _ _ _ HwW). rewrite decide_True by done.
      rewrite decide_False by done. lia.
Qed.

(** C10: in every reachable state in which the receptionist is about to
    call [decideTableOrWait] (line 269), the record of the group it passes
    is TOARRIVE, hence below 2: the assertion holds and the call returns a
    table or -1. *)
Theorem C10_assertion_holds s rc rl :
  reachable NT MAXGROUPS s ->
  receptionist s = Live rc rl ->
  line_of rc = 269%positive ->
  exists r t,
    aget (Receptionist.groupRecord rl) (Receptionist.group_id rl) = Ok r /\
    r = TOARRIVE /\ r < 2 /\
    Receptionist.decideTableOrWait NT (Receptionist.groupRecord rl) (mem s)
      (Receptionist.group_id rl) = Ok t.
Proof.
  intros (rc' & rl' & HP & HA)%Full_reachable Hr Hl.
  rewrite (p_rec _ _ _ _ HP) in Hr. injection Hr as -> ->.
  destruct HP as [_ _ _ [HNa _] _ HC].
  destruct HC as [HClen _ _ _ _ _ HChand _ _].
  rewrite Hl in HChand. destruct (HChand _ eq_refl) as [[Hr [Hph HR]] _].
  simpl in *.
  destruct (decideTableOrWait_spec NT _ (mem s) _ _ ltac:(lia) HR ltac:(done))
    as (t & Ht & _).
  exists TOARRIVE, t. split; [by apply aget_sel|]. done.
Qed.

End Reachable.

(** C1 in the state [one_queued]. *)
Lemma C1_tables_exclusive_witness :
  exclusive (nGroups (mem one_queued)) (assignedTable (mem one_queued)).
Proof.
  apply (proj1 (C1_tables_exclusive 1 2)). apply fires_reachable.
Defined.

(** C5 in the state [one_queued], where one group waits. *)
Lemma C5_waiting_count_witness :
  groupsWaiting (mem one_queued) =
  countW (Receptionist.groupRecord (vars_at no_vars (receptionist one_queued))).
Proof.
  apply (proj1 (C5_waiting_count 1 2) one_queued
           (prog_at (receptionist one_queued))).
  - apply fires_reachable.
  - vm_compute. reflexivity.
  - vm_compute. reflexivity.
Defined.

(** C10 in the state [deciding]. *)
Lemma C10_assertion_holds_witness :
  exists r t,
    aget (Receptionist.groupRecord (vars_at no_vars (receptionist deciding)))
      (Receptionist.group_id (vars_at no_vars (receptionist deciding))) =
      Ok r /\
    r = TOARRIVE /\ r < 2 /\
    Receptionist.decideTableOrWait 1
      (Receptionist.groupRecord (vars_at no_vars (receptionist deciding)))
      (mem deciding)
      (Receptionist.group_id (vars_at no_vars (receptionist deciding))) = Ok t.
Proof.
  apply (C10_assertion_holds 1 2 deciding
           (prog_at (receptionist deciding))).
  - apply fires_reachable.
  - vm_compute. reflexivity.
  - vm_compute. reflexivity.
Defined.

(** ** The start of a group process *)

(** The process gives up at its start exactly when it writes a
    message. *)
Lemma startup_complains MAXGROUPS strtol argv os :
  Group.startup MAXGROUPS strtol argv os = None <->
  is_Some (startup_complaint MAXGROUPS strtol argv os).
Proof.
  unfold Group.startup, startup_complaint.
  repeat case_match; split; try done; try (intros _; by eexists).
  all: by intros [? ?].
Qed.



(** The conversion at work: the identification 4294967296, which is not
    below [MAXGROUPS], is accepted as group 0, and 4294967295 as group
    -1. *)
Lemma startup_accepts_wrapped :
  Group.startup 10 strtol_decimal
    ["group"; "4294967296"; "log"; "1234"; "err"]%string all_connected =
    Some 0 /\
  Group.startup 10 strtol_decimal
    ["group"; "4294967295"; "log"; "1234"; "err"]%string all_connected =
    Some (-1).
Proof. split; vm_compute; reflexivity. Qed.


(* ================================================================== *)
(** * Further properties *)

(** ** The lock, process by process *)

Ltac lock_cases Hc Hm :=
  apply move_live in Hm as (?a & ?o & Hs & He & Ho);
  enum Hc; comp_step Hs; try discriminate;
  injection Hs as <- <-;
  unfold Group.store_groupStat, Group.load_table in Ho; unfold obind in Ho;
  cbv beta iota in Ho;
  repeat match type of Ho with
         | context [match ?x with Ok _ => _ | Crash _ => _ end] =>
             lazymatch x with
             | context [match _ with Ok _ => _ | Crash _ => _ end] => fail
             | _ => destruct x; cbv beta iota in Ho
             end
         end;
  destruct Ho as (-> & -> & ->);
  (split; [reflexivity|]);
  cbn [line_of];
  try match goal with
      | |- context [if ?c then _ else _] => destruct c
      end;
  cbn [line_of group_critical waiter_critical critical];
  unfold lock_move, after; cbn [enabled] in He;
  rewrite ?fn_lookup_insert, ?fn_lookup_insert_ne by discriminate;
  try (apply Z.ltb_lt in He);
  first [ done
        | left; split_and!; done
        | right; left; split_and!; done
        | right; right; split_and!; done ].

Lemma group_lock_move c l m v p' m' v' :
  c ∈ conts Group.life ->
  move (Live c l) m v = Some (p', m', v') ->
  nGroups m' = nGroups m /\
  match p' with
  | Live c' _ =>
      lock_move (group_critical (line_of c)) (group_critical (line_of c')) v v'
  | Dead _ => v' = v
  end.
Proof. intros Hc Hm. lock_cases Hc Hm. Qed.

Lemma waiter_lock_move c l m v p' m' v' :
  c ∈ conts Waiter.main ->
  move (Live c l) m v = Some (p', m', v') ->
  nGroups m' = nGroups m /\
  match p' with
  | Live c' _ =>
      lock_move (waiter_critical (line_of c)) (waiter_critical (line_of c')) v v'
  | Dead _ => v' = v
  end.
Proof. intros Hc Hm. lock_cases Hc Hm. Qed.

Lemma receptionist_lock_move NT c l m v p' m' v' :
  c ∈ conts (Receptionist.main NT) ->
  move (Live c l) m v = Some (p', m', v') ->
  nGroups m' = nGroups m /\
  match p' with
  | Live c' _ =>
      lock_move (critical (line_of c)) (critical (line_of c')) v v'
  | Dead _ => v' = v
  end.
Proof. intros Hc Hm. lock_cases Hc Hm. Qed.

(** ** Mutual exclusion *)

Lemma holder_eq_dec (x y : holder) : {x = y} + {x <> y}.
Proof. decide equality. apply Z.eq_dec. Qed.

Lemma polite_sys_step s h s' h' :
  polite_step (s, h) (s', h') -> sys_step s s'.
Proof.
  inversion 1; subst; try by apply chef_moves. by eapply fire_step.
Qed.

(** One holder [x0] moves and the others stay as they are. *)
Lemma Mx_update s h s' h' x0 :
  Mx s h ->
  (forall y, y <> x0 -> holds s' h' y = holds s h y) ->
  lock_move (holds s h x0) (holds s' h' x0) (sems s) (sems s') \/
  (holds s' h' x0 = false /\ sems s' sh.mutex = sems s sh.mutex) ->
  Mx s' h'.
Proof.
  intros (Hv & Hz & Hu) Hoth Hx.
  assert (Hle : forall y, y <> x0 -> holds s' h' y = true ->
                          holds s h y = true).
  { intros y Hy. by rewrite Hoth. }
  destruct Hx as [[(Hb & Ha & Hpos & Hv') | [(Hb & Ha & Hv') | (Ha & Hv')]]
                 | (Ha & Hv')].
  - assert (Hone : sems s sh.mutex = 1) by lia.
    assert (Hnone : forall y, holds s h y = false).
    { intros y. destruct (holds s h y) eqn:Hy; [|done].
      apply Hz in Hy. lia. }
    assert (Honly : forall y, holds s' h' y = true -> y = x0).
    { intros y Hy. destruct (holder_eq_dec y x0) as [|Hne]; [done|].
      apply Hle in Hy; [|done]. by rewrite Hnone in Hy. }
    split_and!.
    + left. lia.
    + intros _ _. lia.
    + intros x y Hx Hy. by rewrite (Honly x Hx), (Honly y Hy).
  - assert (Hzero : sems s sh.mutex = 0) by by apply (Hz x0).
    assert (Hnone : forall y, holds s' h' y = false).
    { intros y. destruct (holds s' h' y) eqn:Hy; [|done].
      destruct (holder_eq_dec y x0) as [->|Hne]; [by rewrite Ha in Hy|].
      apply Hle in Hy; [|done]. by destruct (Hne (Hu y x0 Hy Hb)). }
    split_and!.
    + right. lia.
    + intros x Hx. by rewrite Hnone in Hx.
    + intros x y Hx. by rewrite Hnone in Hx.
  - assert (Hsame : forall y, holds s' h' y = holds s h y).
    { intros y. destruct (holder_eq_dec y x0) as [->|Hne]; [done|].
      by apply Hoth. }
    unfold Mx. rewrite Hv'. split_and!; [done| |].
    + intros x. rewrite Hsame. apply Hz.
    + intros x y. rewrite !Hsame. apply Hu.
  - assert (Hle' : forall y, holds s' h' y = true -> holds s h y = true).
    { intros y Hy. destruct (holder_eq_dec y x0) as [->|Hne];
        [by rewrite Ha in Hy|]. by apply Hle. }
    unfold Mx. rewrite Hv'. split_and!; [done| |].
    + intros x Hx. by apply (Hz x), Hle'.
    + intros x y Hx Hy. by apply Hu; apply Hle'.
Qed.

Lemma Mx_initial NT MAXGROUPS s : initial NT MAXGROUPS s -> Mx s false.
Proof.
  intros (_ & _ & _ & _ & _ & Hsem & (rl & Hr & _) & (wl & Hw) & Hg).
  assert (Hnone : forall x, holds s false x = false).
  { intros [| |i|]; simpl; [by rewrite Hr|by rewrite Hw| |done].
    case_bool_decide as Hi; [|done].
    destruct (Hg i Hi) as (l & -> & _). done. }
  split_and!.
  - right. by rewrite Hsem.
  - intros x. by rewrite Hnone.
  - intros x y. by rewrite Hnone.
Qed.

Section Exclusion.

Variables (NT MAXGROUPS : Z).

Lemma Mx_step s h s' h' :
  Full NT s -> Mx s h -> polite_step (s, h) (s', h') -> Mx s' h'.
Proof.
  intros (rc & rl & [p_rec p_rc p_wtr p_N p_grp p_core] & _) HM Hstep.
  inversion Hstep as [? ? a ? Hf | ? ? Hch Hpos Hv | ? ? Hch Hv
                     | ? ? ? Hch Hv]; subst.
  - destruct a as [| |i]; simpl in Hf.
    + destruct (move (receptionist s) (mem s) (sems s))
        as [[[p' m'] v']|] eqn:Hm; [|done].
      injection Hf as <-. rewrite p_rec in Hm.
      destruct (receptionist_lock_move NT _ _ _ _ _ _ _ p_rc Hm)
        as [HN Hl].
      apply (Mx_update s _ _ _ HReceptionist HM).
      * intros [| |j|] Hy; simpl; try done. by rewrite HN.
      * simpl. rewrite p_rec. simpl. destruct p'; [by left|right].
        by rewrite Hl.
    + destruct (move (waiter s) (mem s) (sems s))
        as [[[p' m'] v']|] eqn:Hm; [|done].
      injection Hf as <-.
      destruct (waiter s) as [wc wl|] eqn:Hw; [|done].
      destruct (waiter_lock_move _ _ _ _ _ _ _ p_wtr Hm) as [HN Hl].
      apply (Mx_update s _ _ _ HWaiter HM).
      * intros [| |j|] Hy; simpl; try done. by rewrite HN.
      * simpl. rewrite Hw. simpl. destruct p'; [by left|right].
        by rewrite Hl.
    + case_bool_decide as Hi; [|done].
      destruct (move (groups s i) (mem s) (sems s))
        as [[[p' m'] v']|] eqn:Hm; [|done].
      injection Hf as <-.
      destruct (p_grp i Hi) as (c & l & Hgi & Hc & _).
      rewrite Hgi in Hm.
      destruct (group_lock_move _ _ _ _ _ _ _ Hc Hm) as [HN Hl].
      apply (Mx_update s _ _ _ (HGroup i) HM).
      * intros [| |j|] Hy; simpl; try done. rewrite HN.
        rewrite fn_lookup_insert_ne; [done|]. intros ->. done.
      * simpl. rewrite HN, Hgi, fn_lookup_insert.
        rewrite !bool_decide_true by done. simpl.
        destruct p'; [by left|right]. by rewrite Hl.
  - destruct Hch as (Hr & Hw & Hg & _ & HN & _).
    apply (Mx_update s false _ _ HChef HM).
    + intros [| |j|] Hy; simpl; try done; by rewrite ?Hr, ?Hw, ?Hg, ?HN.
    + left. left. done.
  - destruct Hch as (Hr & Hw & Hg & _ & HN & _).
    apply (Mx_update s true _ _ HChef HM).
    + intros [| |j|] Hy; simpl; try done; by rewrite ?Hr, ?Hw, ?Hg, ?HN.
    + left. right. left. done.
  - destruct Hch as (Hr & Hw & Hg & _ & HN & _).
    apply (Mx_update s _ _ _ HChef HM).
    + intros [| |j|] Hy; simpl; try done; by rewrite ?Hr, ?Hw, ?Hg, ?HN.
    + left. right. right. done.
Qed.

Lemma Mx_rtc x y :
  rtc polite_step x y ->
  reachable NT MAXGROUPS x.1 -> Mx x.1 x.2 ->
  reachable NT MAXGROUPS y.1 /\ Mx y.1 y.2.
Proof.
  induction 1 as [|[s h] [s' h'] z Hst _ IH]; [done|].
  simpl. intros Hr HM. apply IH; simpl.
  - destruct Hr as (s0 & H0 & Hrtc). exists s0. split; [done|].
    eapply rtc_r; [done|]. by eapply polite_sys_step.
  - eapply Mx_step; [|done..]. by apply Full_reachable with MAXGROUPS.
Qed.

(** X1: Mutual exclusion: as long as the chef follows the locking
    convention, the lock is 0 or 1, it is 0 whenever the receptionist, the
    waiter, a group or the chef is inside a critical region, and no two of
    them are inside at once. *)
Theorem mutual_exclusion s chef_in :
  polite_reachable NT MAXGROUPS s chef_in ->
  (sems s sh.mutex = 0 \/ sems s sh.mutex = 1) /\
  (forall x, holds s chef_in x = true -> sems s sh.mutex = 0) /\
  (forall x y, holds s chef_in x = true -> holds s chef_in y = true ->
               x = y).
Proof.
  intros (s0 & H0 & Hrtc).
  apply (Mx_rtc _ _ Hrtc); simpl.
  - exists s0. by split.
  - by eapply Mx_initial.
Qed.

End Exclusion.

Lemma fires_polite sched s h : rtc polite_step (s, h) (fires sched s, h).
Proof.
  revert s. induction sched as [|a sched IH]; intros s; [done|]. simpl.
  destruct (fire a s) as [s'|] eqn:Hf; simpl; [|done].
  eapply rtc_l; [by eapply process_moves|done].
Qed.

Lemma fires_polite_reachable sched :
  polite_reachable 1 2 (fires sched opening) false.
Proof. exists opening. split; [apply initial_opening|apply fires_polite]. Qed.

(** In the state [deciding] the receptionist is inside, the lock is 0,
    and nobody else is. *)
Lemma mutual_exclusion_witness :
  holds deciding false HReceptionist = true /\
  sems deciding sh.mutex = 0 /\
  forall x, holds deciding false x = true -> x = HReceptionist.
Proof.
  assert (Hin : holds deciding false HReceptionist = true)
    by (vm_compute; reflexivity).
  destruct (mutual_exclusion 1 2 deciding false) as (_ & Hz & Hu).
  - apply fires_polite_reachable.
  - split; [exact Hin|]. split; [exact (Hz _ Hin)|].
    intros x Hx. exact (Hu _ _ Hx Hin).
Defined.

(** ** An invariant scheme for the receptionist *)

Section Scheme.

Variables (NT MAXGROUPS : Z).

Variable J : Z -> list Z -> positive -> Receptionist.rvars -> Prop.

Hypothesis J_initial : forall s rc rl,
  initial NT MAXGROUPS s -> receptionist s = Live rc rl ->
  J (nGroups (mem s)) (assignedTable (mem s)) (line_of rc) rl.

Hypothesis J_step : forall s rc rl rc' rl' m' v',
  Full NT s -> receptionist s = Live rc rl ->
  J (nGroups (mem s)) (assignedTable (mem s)) (line_of rc) rl ->
  move (Live rc rl) (mem s) (sems s) = Some (Live rc' rl', m', v') ->
  J (nGroups m') (assignedTable m') (line_of rc') rl'.

Lemma receptionist_invariant_step s s' :
  Full NT s ->
  (forall rc rl, receptionist s = Live rc rl ->
     J (nGroups (mem s)) (assignedTable (mem s)) (line_of rc) rl) ->
  sys_step s s' ->
  forall rc rl, receptionist s' = Live rc rl ->
    J (nGroups (mem s')) (assignedTable (mem s')) (line_of rc) rl.
Proof.
  intros HF IH Hstep rc rl Hr.
  pose proof HF as (rc0 & rl0 & HP & HA).
  pose proof (IH _ _ (p_rec _ _ _ _ HP)) as HJ.
  destruct Hstep as [p' m' v' Hm|p' m' v' Hm|i p' m' v' Hi Hm|s' Hchef].
  - simpl in Hr. subst p'. rewrite (p_rec _ _ _ _ HP) in Hm.
    eapply J_step; [done|apply HP|done|done].
  - simpl in Hr. rewrite (p_rec _ _ _ _ HP) in Hr. injection Hr as <- <-.
    pose proof (p_wtr _ _ _ _ HP) as Hw.
    destruct (waiter s) as [wc wl|] eqn:Ew; [|done].
    apply (waiter_move _ _ _ _ _ _ _ Hw) in Hm as (_ & H1 & H2 & _).
    simpl. by rewrite H1, H2.
  - simpl in Hr. rewrite (p_rec _ _ _ _ HP) in Hr. injection Hr as <- <-.
    destruct (p_grp _ _ _ _ HP i Hi) as (c & l & Hg & Hc & Hn & Hga).
    rewrite Hg in Hm. destruct (p_N _ _ _ _ HP).
    apply (group_move _ _ _ _ _ _ _ i) in Hm; [|done|done|lia|lia|done].
    destruct Hm as (c' & l' & _ & _ & _ & _ & (H1 & H2 & _) & _).
    simpl. by rewrite H1, H2.
  - destruct Hchef as (H1 & H2 & H3 & H4 & H5 & H6 & _).
    rewrite H1, (p_rec _ _ _ _ HP) in Hr. injection Hr as <- <-.
    by rewrite H5, H6.
Qed.

(** A property of the tables and of the receptionist that holds at the
    start and is kept by the steps of the receptionist holds in every
    reachable state: nobody else writes [nGroups] and [assignedTable]. *)
Lemma receptionist_invariant s rc rl :
  reachable NT MAXGROUPS s ->
  receptionist s = Live rc rl ->
  J (nGroups (mem s)) (assignedTable (mem s)) (line_of rc) rl.
Proof.
  intros (s0 & H0 & Hrtc). revert rc rl.
  assert (HF0 : Full NT s0) by by eapply Full_initial.
  assert (HJ0 : forall rc rl, receptionist s0 = Live rc rl ->
            J (nGroups (mem s0)) (assignedTable (mem s0)) (line_of rc) rl)
    by (intros; by apply J_initial).
  clear H0. induction Hrtc as [|s0 s1 s2 Hstep Hrtc IH]; [done|].
  apply IH; [by eapply Full_step|by eapply receptionist_invariant_step].
Qed.

End Scheme.

(** ** Tables within the restaurant *)

Lemma NoDup_filter_lookup {A} (P : A -> Prop) `{forall x, Decision (P x)}
    (l : list A) :
  (forall i j x, l !! i = Some x -> l !! j = Some x -> P x -> i = j) ->
  NoDup (filter P l).
Proof.
  induction l as [|x l IH]; intros Hinj; [constructor|].
  rewrite filter_cons. destruct (decide (P x)) as [HP|HP].
  - constructor.
    + intros [_ Hin]%list_elem_of_filter.
      apply list_elem_of_lookup in Hin as [j Hj].
      by specialize (Hinj 0%nat (S j) x eq_refl Hj HP).
    + apply IH. intros i j y Hi Hj Hy.
      by specialize (Hinj (S i) (S j) y Hi Hj Hy) as [= ->].
  - apply IH. intros i j y Hi Hj Hy.
    by specialize (Hinj (S i) (S j) y Hi Hj Hy) as [= ->].
Qed.

Lemma range_upd NT N a g v :
  (forall i t, 0 <= i < N -> sel a i = Some t -> in_range NT t) ->
  in_range NT v -> 0 <= g < Z.of_nat (length a) ->
  forall i t, 0 <= i < N -> sel (upd a g v) i = Some t -> in_range NT t.
Proof.
  intros Ha Hv Hg i t Hi. destruct (decide (i = g)) as [->|Hne].
  - rewrite sel_upd_eq by done. by intros [= <-].
  - rewrite sel_upd_ne by lia. by apply Ha.
Qed.

Lemma lowest_free_in_range NT m t : lowest_free NT m t -> in_range NT t.
Proof. intros [[-> _]|[? _]]; [by left|by right]. Qed.

Ltac rng_cbn :=
  cbn [line_of trange handling signalling rassert
       Receptionist.groupRecord Receptionist.g Receptionist.nReq
       Receptionist.req Receptionist.ret Receptionist.group_id
       Receptionist.table_id Receptionist.new_group_id
       Receptionist.set_groupRecord Receptionist.set_g Receptionist.set_nReq
       Receptionist.set_req Receptionist.set_ret Receptionist.set_group_id
       Receptionist.set_table_id Receptionist.set_new_group_id
       nGroups assignedTable groupsWaiting receptionistRequest st groupStat
       set_receptionistStat set_assignedTable set_groupsWaiting] in *.

Ltac rng_finish Ho :=
  simplify_eq; destruct Ho as (Hp & -> & _); injection Hp as -> ->;
  rng_cbn; split; rng_cbn.

Lemma rng_receptionist NT s rc rl rc' rl' m' v' :
  Full NT s -> receptionist s = Live rc rl ->
  Rng NT (nGroups (mem s)) (assignedTable (mem s)) (line_of rc) rl ->
  move (Live rc rl) (mem s) (sems s) = Some (Live rc' rl', m', v') ->
  Rng NT (nGroups m') (assignedTable m') (line_of rc') rl'.
Proof.
  intros (rc0 & rl0 & HP & _) Hrec [Hall Htab] Hm.
  rewrite (p_rec _ _ _ _ HP) in Hrec. injection Hrec as -> ->.
  destruct HP as [p_rec p_rc p_wtr p_N p_grp p_core].
  apply move_live in Hm as (a & o & Hs & He & Ho).
  set (N := nGroups (mem s)) in *.
  destruct p_N as [HNa HNg].
  destruct p_core as [HClen HCrass _ _ _ _ HChand HCsig HCrel].
  clear p_rec p_grp p_wtr.
  assert (Hln : at_line (line_of rc)) by done.
  enum p_rc; comp_step Hs; rng_cbn.
  all: try match type of Hs with
      | context [if ?c then _ else _] => destruct c eqn:Hcond
      end.
  all: try (by simplify_eq).
  all: try (rng_finish Ho; done).
  (* 112 *)
  all: try (match goal with H : at_line 112 |- _ => idtac end;
            destruct HCrass as [Hz [Hg0 HgN]];
            rewrite aset_upd in Hs by lia; cbn [obind] in Hs;
            rng_finish Ho; done).
  (* 269 *)
  all: try (match goal with H : at_line 269 |- _ => idtac end;
            destruct (HChand _ eq_refl) as [[Hr [Hph HR]] Hne]; simpl in Hr, HR;
            destruct (decideTableOrWait_spec NT _ (mem s) _ _
                        ltac:(fold N; lia) HR ltac:(done)) as (t & Ht & Hlow);
            rewrite Ht in Hs; cbn [obind] in Hs;
            rng_finish Ho; [done|];
            by eapply lowest_free_in_range).
  (* 272 *)
  all: try (match goal with H : at_line 272 |- _ => idtac end;
            rng_finish Ho; [done|];
            destruct Htab as [Ht|Ht]; [lia|done]).
  (* 274, 278, 311 *)
  all: try (match goal with
            | H : at_line 274 |- _ => idtac
            | H : at_line 278 |- _ => idtac
            | H : at_line 311 |- _ => idtac
            end;
            destruct (HChand _ eq_refl) as [[Hr [Hph HR]] Hne];
            simpl in Hr, HR, Hph, Hne;
            rewrite aset_upd in Hs by lia; cbn [obind] in Hs;
            rng_finish Ho; done).
  (* 279, 326 *)
  all: try (match goal with
            | H : at_line 279 |- _ => destruct (HCsig _ eq_refl) as (Hr & _)
            | H : at_line 326 |- _ => pose proof HCrass as Hr
            end;
            rewrite aset_upd in Hs by lia; cbn [obind] in Hs;
            rng_finish Ho; [|done];
            apply range_upd; [done| |lia]; first [by right|done]).
  (* 313 *)
  all: try (match goal with H : at_line 313 |- _ => idtac end;
            destruct (aget_sel_ok (assignedTable (mem s))
                        (Receptionist.group_id rl)) as (t & Ht & Hsel); [lia|];
            rewrite Ht in Hs; cbn [obind] in Hs;
            rng_finish Ho; [done|]; by eapply Hall).
  (* 314 *)
  all: try (match goal with H : at_line 314 |- _ => idtac end;
            rewrite aset_upd in Hs by lia; cbn [obind] in Hs;
            rng_finish Ho; [|done];
            apply range_upd; [done|by left|lia]).
  (* 318 *)
  all: try (match goal with H : at_line 318 |- _ => idtac end;
            destruct (decideNextGroup_spec (Receptionist.groupRecord rl) (mem s))
              as (w & Hw & Hlow); [fold N; lia|];
            rewrite Hw in Hs; cbn [obind] in Hs;
            rng_finish Ho; done).
  (* 320 *)
  all: try (match goal with H : at_line 320 |- _ => idtac end;
            destruct HCrass as [Hr HR];
            rewrite aset_upd in Hs by lia; cbn [obind] in Hs;
            rng_finish Ho; done).
Qed.

Section Range.

Variables (NT MAXGROUPS : Z).

Lemma rng_reachable s rc rl :
  reachable NT MAXGROUPS s ->
  receptionist s = Live rc rl ->
  Rng NT (nGroups (mem s)) (assignedTable (mem s)) (line_of rc) rl.
Proof.
  apply (receptionist_invariant NT MAXGROUPS (Rng NT)).
  - intros s0 rc0 rl0 (_ & _ & _ & Hfree & _ & _ & (l0 & Hl0 & _) & _) Hr0.
    rewrite Hl0 in Hr0. injection Hr0 as <- <-. split; [|done].
    intros j u _ Hu. left. apply Hfree.
    unfold sel in Hu. destruct (decide (0 <= j)); [|done].
    by eapply list_elem_of_lookup_2.
  - intros. by eapply rng_receptionist.
Qed.

(** X2: In every reachable state every entry of [assignedTable] of a group
    of the day is -1 or a table of the restaurant, 0 .. NUMTABLES-1. *)
Theorem tables_in_range s i t :
  reachable NT MAXGROUPS s ->
  0 <= i < nGroups (mem s) ->
  sel (assignedTable (mem s)) i = Some t ->
  t = -1 \/ 0 <= t < NT.
Proof.
  intros Hreach Hi Ht.
  destruct (receptionist_alive NT MAXGROUPS s Hreach) as (rc & rl & Hr).
  destruct (rng_reachable s rc rl Hreach Hr) as [Hall _]. by eapply Hall.
Qed.

(** X3: In every reachable state the groups that hold a table are at most
    NUMTABLES: the restaurant is never overbooked. *)
Theorem never_overbooked s :
  reachable NT MAXGROUPS s ->
  Z.of_nat (length (tables_held (mem s))) <= Z.max 0 NT.
Proof.
  intros Hreach.
  destruct (Full_reachable NT MAXGROUPS s Hreach) as (rc & rl & HP & HA).
  pose proof (x_excl _ _ _ _ _ HA) as Hex.
  assert (Hsub : tables_held (mem s) ⊆+ seqZ 0 (Z.max 0 NT)).
  { apply NoDup_submseteq.
    - apply NoDup_filter_lookup. intros i j x Hi Hj Hx.
      pose proof (lookup_lt_Some _ _ _ Hi) as Hli.
      pose proof (lookup_lt_Some _ _ _ Hj) as Hlj.
      rewrite length_take in Hli, Hlj.
      rewrite lookup_take_lt in Hi, Hj by lia.
      assert (Z.of_nat i = Z.of_nat j); [|lia].
      apply (Hex _ _ x); try lia; try done.
      + unfold sel. rewrite decide_True by lia. by rewrite Nat2Z.id.
      + unfold sel. rewrite decide_True by lia. by rewrite Nat2Z.id.
    - intros x [Hx Hin]%list_elem_of_filter.
      apply list_elem_of_lookup in Hin as [i Hi].
      pose proof (lookup_lt_Some _ _ _ Hi) as Hli.
      rewrite length_take in Hli. rewrite lookup_take_lt in Hi by lia.
      destruct (rng_reachable s rc rl Hreach (p_rec _ _ _ _ HP)) as [Hall _].
      destruct (Hall (Z.of_nat i) x); [lia| |done|].
      + unfold sel. rewrite decide_True by lia. by rewrite Nat2Z.id.
      + apply elem_of_seqZ. lia. }
  apply submseteq_length in Hsub. rewrite length_seqZ in Hsub. lia.
Qed.

End Range.

(** Group 0 sits at table 0 in the state [one_queued]. *)
Lemma tables_in_range_witness : 0 = -1 \/ 0 <= 0 < 1.
Proof.
  apply (tables_in_range 1 2 one_queued 0 0).
  - apply fires_reachable.
  - vm_compute. split; [discriminate|reflexivity].
  - vm_compute. reflexivity.
Defined.

(** One table, and one table held, in the state [one_queued]. *)
Lemma never_overbooked_witness :
  Z.of_nat (length (tables_held (mem one_queued))) <= Z.max 0 1.
Proof. apply (never_overbooked 1 2 one_queued). apply fires_reachable. Defined.

Lemma sel_upd_cases {A} (a : list A) g v i x :
  0 <= g < Z.of_nat (length a) ->
  sel (upd a g v) i = Some x ->
  (i = g /\ x = v) \/ (i <> g /\ sel a i = Some x).
Proof.
  intros Hg. destruct (decide (g = i)) as [->|Hne].
  - rewrite sel_upd_eq by done. intros [= <-]. by left.
  - rewrite sel_upd_ne by lia. intros H. right. split; [congruence|done].
Qed.

Lemma seated_upd_ne NT (a : list Z) g v i :
  0 <= g -> i <> g -> seated NT a i -> seated NT (upd a g v) i.
Proof.
  intros Hg Hi (t & Ht & Hr). exists t. split; [|done].
  rewrite sel_upd_ne by (lia || congruence). done.
Qed.

Lemma seated_upd_eq NT (a : list Z) g v :
  0 <= g < Z.of_nat (length a) -> 0 <= v < NT -> seated NT (upd a g v) g.
Proof. intros Hg Hv. exists v. split; [by apply sel_upd_eq|done]. Qed.

Ltac seat_cbn :=
  cbn [line_of trange tknown pending handling signalling rassert
       Receptionist.groupRecord Receptionist.g Receptionist.nReq
       Receptionist.req Receptionist.ret Receptionist.group_id
       Receptionist.table_id Receptionist.new_group_id
       Receptionist.set_groupRecord Receptionist.set_g Receptionist.set_nReq
       Receptionist.set_req Receptionist.set_ret Receptionist.set_group_id
       Receptionist.set_table_id Receptionist.set_new_group_id
       nGroups assignedTable groupsWaiting receptionistRequest st groupStat
       set_receptionistStat set_assignedTable set_groupsWaiting] in *.

Ltac seat_finish Ho :=
  simplify_eq; destruct Ho as (Hp & -> & _); injection Hp as -> ->;
  seat_cbn; split; seat_cbn.

Lemma seat_receptionist NT s rc rl rc' rl' m' v' :
  Full NT s -> receptionist s = Live rc rl ->
  Rng NT (nGroups (mem s)) (assignedTable (mem s)) (line_of rc) rl ->
  Seat NT (nGroups (mem s)) (assignedTable (mem s)) (line_of rc) rl ->
  move (Live rc rl) (mem s) (sems s) = Some (Live rc' rl', m', v') ->
  Seat NT (nGroups m') (assignedTable m') (line_of rc') rl'.
Proof.
  intros (rc0 & rl0 & HP & _) Hrec [Hall Htab] [Hseat Hkn] Hm.
  rewrite (p_rec _ _ _ _ HP) in Hrec. injection Hrec as -> ->.
  destruct HP as [p_rec p_rc p_wtr p_N p_grp p_core].
  apply move_live in Hm as (a & o & Hs & He & Ho).
  set (N := nGroups (mem s)) in *.
  destruct p_N as [HNa HNg].
  destruct p_core as [HClen HCrass _ _ _ _ HChand HCsig HCrel].
  clear p_rec p_grp p_wtr.
  assert (Hln : at_line (line_of rc)) by done.
  enum p_rc; comp_step Hs; seat_cbn.
  all: try match type of Hs with
      | context [if ?c then _ else _] => destruct c eqn:Hcond
      end.
  all: try (by simplify_eq).
  all: try (seat_finish Ho; done).
  all: try (seat_finish Ho; [intros i Hi HR Hp; by apply Hseat|done]).
  (* 112, 274 *)
  all: try (match goal with
            | H : at_line 112 |- _ => destruct HCrass as [Hz [Hg0 HgN]]
            | H : at_line 274 |- _ =>
                destruct (HChand _ eq_refl) as [[Hr _] _]; simpl in Hr
            end;
            rewrite aset_upd in Hs by lia; cbn [obind] in Hs;
            seat_finish Ho; [|done];
            intros i Hi [[-> HR]|[Hne HR]]%sel_upd_cases Hp; [done| |lia];
            by apply Hseat).
  (* 269 *)
  all: try (match goal with H : at_line 269 |- _ => idtac end;
            destruct (HChand _ eq_refl) as [[Hr [Hph HR]] Hne]; simpl in Hr, HR;
            destruct (decideTableOrWait_spec NT _ (mem s) _ _
                        ltac:(fold N; lia) HR ltac:(done)) as (t & Ht & Hlow);
            rewrite Ht in Hs; cbn [obind] in Hs;
            seat_finish Ho; [|done];
            intros i Hi HRi Hp; by apply Hseat).
  (* 278, 320 *)
  all: try (match goal with
            | H : at_line 278 |- _ =>
                destruct (HChand _ eq_refl) as [[Hr _] _]; simpl in Hr
            | H : at_line 320 |- _ => destruct HCrass as [Hr _]
            end;
            rewrite aset_upd in Hs by lia; cbn [obind] in Hs;
            seat_finish Ho; [|done];
            intros i Hi [[-> HR]|[Hne HR]]%sel_upd_cases Hp; [done| |lia];
            by apply Hseat).
  (* 279, 326 *)
  all: try (match goal with
            | H : at_line 279 |- _ => destruct (HCsig _ eq_refl) as (Hr & _)
            | H : at_line 326 |- _ => pose proof HCrass as Hr
            end;
            rewrite aset_upd in Hs by lia; cbn [obind] in Hs;
            seat_finish Ho; [|done];
            intros i Hi HRi _;
            match goal with
            | |- seated _ (upd _ ?g _) _ =>
                destruct (decide (i = g)) as [->|Hne];
                [apply seated_upd_eq; [lia|done]
                |apply seated_upd_ne; [lia|done|];
                 apply Hseat; [done|done|congruence]]
            end).
  (* 311 *)
  all: try (match goal with H : at_line 311 |- _ => idtac end;
            destruct (HChand _ eq_refl) as [[Hr [_ HR]] _]; simpl in Hr, HR;
            rewrite aset_upd in Hs by lia; cbn [obind] in Hs;
            seat_finish Ho;
            [intros i Hi [[-> HRi]|[Hne HRi]]%sel_upd_cases Hp; [done| |lia];
             by apply Hseat
            |split; [by apply Hseat|apply sel_upd_eq; lia]]).
  (* 313 *)
  all: try (match goal with H : at_line 313 |- _ => idtac end;
            destruct Hkn as [(t & Ht & Hr) Hd];
            apply aget_sel in Ht; rewrite Ht in Hs; cbn [obind] in Hs;
            seat_finish Ho; [|done];
            intros i Hi HRi Hp; by apply Hseat).
  (* 314 *)
  all: try (match goal with H : at_line 314 |- _ => idtac end;
            destruct Hkn as [Ht Hd];
            rewrite aset_upd in Hs by lia; cbn [obind] in Hs;
            seat_finish Ho; [|done];
            intros i Hi HRi Hp;
            apply seated_upd_ne; [lia| |by apply Hseat];
            intros ->; rewrite Hd in HRi; done).
  (* 318 *)
  all: try (match goal with H : at_line 318 |- _ => idtac end;
            destruct (decideNextGroup_spec (Receptionist.groupRecord rl) (mem s))
              as (w & Hw & Hlow); [fold N; lia|];
            rewrite Hw in Hs; cbn [obind] in Hs;
            seat_finish Ho; [|done];
            intros i Hi HRi Hp; by apply Hseat).
Qed.

Section Tables.

Variables (NT MAXGROUPS : Z).

Lemma seat_reachable s rc rl :
  reachable NT MAXGROUPS s ->
  receptionist s = Live rc rl ->
  Rng NT (nGroups (mem s)) (assignedTable (mem s)) (line_of rc) rl /\
  Seat NT (nGroups (mem s)) (assignedTable (mem s)) (line_of rc) rl.
Proof.
  apply (receptionist_invariant NT MAXGROUPS
           (fun N a line l => Rng NT N a line l /\ Seat NT N a line l)).
  - intros s0 rc0 rl0 (_ & _ & _ & Hfree & _ & _ & (l0 & Hl0 & Hrec) & _) Hr0.
    rewrite Hl0 in Hr0. injection Hr0 as <- <-. split; split; try done.
    + intros j u _ Hu. left. apply Hfree.
      unfold sel in Hu. destruct (decide (0 <= j)); [|done].
      by eapply list_elem_of_lookup_2.
    + intros i _ HR. rewrite Hrec in HR. unfold sel in HR.
      destruct (decide (0 <= i)); [|done].
      apply lookup_replicate in HR as [HR _]. done.
  - intros s0 rc0 rl0 rc' rl' m' v' HF Hr [HR HS] Hm. split.
    + by eapply rng_receptionist.
    + by eapply seat_receptionist.
Qed.

(** X4: The table the receptionist hands out or takes back is a table of the
    restaurant: when the receptionist is about to write [table_id] into
    [assignedTable] (lines 279 and 326) or to signal [tableDone[table_id]]
    (line 335), [table_id] is one of 0 .. NUMTABLES-1. *)
Theorem receptionist_table_valid s rc rl :
  reachable NT MAXGROUPS s ->
  receptionist s = Live rc rl ->
  uses_table (line_of rc) ->
  0 <= Receptionist.table_id rl < NT.
Proof.
  intros Hreach Hr Hl.
  destruct (seat_reachable s rc rl Hreach Hr) as [[_ Htab] [_ Hkn]].
  destruct Hl as [Hl | [Hl | Hl]]; rewrite Hl in Htab, Hkn; done.
Qed.

End Tables.

(** The receptionist gives table 0 to group 0, in the state [seating]. *)
Lemma receptionist_table_valid_witness :
  0 <= Receptionist.table_id (vars_at no_vars (receptionist seating)) < 1.
Proof.
  apply (receptionist_table_valid 1 2 seating
           (prog_at (receptionist seating))).
  - apply fires_reachable.
  - vm_compute. reflexivity.
  - left. vm_compute. reflexivity.
Defined.

(** ** The table a group reads *)

Lemma group_table_move c l m v c' l' m' v' :
  c ∈ conts Group.life ->
  move (Live c l) m v = Some (Live c' l', m', v') ->
  (reads_table (line_of c) /\
   sel (assignedTable m) (Group.n l) = Some (Group.table_id l')) \/
  (Group.table_id l' = Group.table_id l /\
   (knows_table (line_of c') = true -> knows_table (line_of c) = true)).
Proof.
  intros Hc Hm.
  apply move_live in Hm as (a & o & Hs & He & Ho).
  enum Hc; comp_step Hs; try discriminate;
  injection Hs as <- <-;
  unfold Group.store_groupStat, Group.load_table in Ho; unfold obind in Ho;
  cbv beta iota in Ho;
  repeat match type of Ho with
         | context [match ?x with Ok _ => _ | Crash _ => _ end] =>
             lazymatch x with
             | context [match _ with Ok _ => _ | Crash _ => _ end] => fail
             | _ => destruct x eqn:?; cbv beta iota in Ho
             end
         end;
  destruct Ho as (Hp & _ & _); try discriminate Hp; injection Hp as -> ->;
  cbn [line_of knows_table Group.table_id Group.set_table_id Group.set_req];
  first [ by right
        | left; split; [unfold reads_table; cbn [line_of]; auto|];
          by apply aget_sel ].
Qed.

Lemma pending_critical NT rc rl i :
  rc ∈ conts (Receptionist.main NT) ->
  pending (line_of rc) rl = Some i -> critical (line_of rc) = true.
Proof. intros Hc. enum Hc; cbn [line_of pending critical]; done. Qed.

Section GroupTables.

Variables (NT MAXGROUPS : Z).

(** What a group finds in [assignedTable] when it is inside a critical
    region and the receptionist has it recorded as ATTABLE. *)
Lemma seated_inside s h i c l :
  reachable NT MAXGROUPS s -> Mx s h ->
  0 <= i < nGroups (mem s) ->
  groups s i = Live c l ->
  reads_table (line_of c) ->
  exists t, sel (assignedTable (mem s)) i = Some t /\ 0 <= t < NT.
Proof.
  intros Hreach (_ & _ & Hu) Hi Hg Hline.
  destruct (Full_reachable NT MAXGROUPS s Hreach) as (rc & rl & HP & _).
  destruct HP as [p_rec p_rc p_wtr p_N p_grp p_core].
  destruct (seat_reachable NT MAXGROUPS s rc rl Hreach p_rec)
    as [_ [Hseat _]].
  assert (Hin : holds s h (HGroup i) = true).
  { simpl. rewrite bool_decide_true by done. rewrite Hg. simpl.
    by destruct Hline as [-> | [-> | ->]]. }
  apply Hseat; [done| |].
  - pose proof (c_rel _ _ _ _ _ _ _ _ p_core i Hi) as Hrel.
    simpl in Hrel. rewrite Hg in Hrel. simpl in Hrel.
    destruct Hline as [Hl | [Hl | Hl]]; rewrite Hl in Hrel; simpl in Hrel;
      by destruct Hrel.
  - intros Hp.
    assert (Hr : holds s h HReceptionist = true).
    { simpl. rewrite p_rec. simpl. by eapply pending_critical. }
    by specialize (Hu _ _ Hr Hin).
Qed.

Lemma GT_initial s : initial NT MAXGROUPS s -> GT NT s.
Proof.
  intros (_ & _ & _ & _ & _ & _ & _ & _ & Hg) i c l Hi Hgi.
  destruct (Hg i Hi) as (l0 & Hl0 & _). rewrite Hl0 in Hgi.
  by injection Hgi as <- <-.
Qed.

Lemma GT_step s h s' h' :
  reachable NT MAXGROUPS s -> Mx s h -> GT NT s ->
  polite_step (s, h) (s', h') -> GT NT s'.
Proof.
  intros Hreach HM HG Hstep.
  pose proof (Full_reachable NT MAXGROUPS s Hreach) as (rc & rl & HP & _).
  destruct HP as [p_rec p_rc p_wtr p_N p_grp p_core].
  inversion Hstep as [? ? a ? Hf | ? ? Hch Hpos Hv | ? ? Hch Hv
                     | ? ? ? Hch Hv]; subst.
  - destruct a as [| |j]; simpl in Hf.
    + destruct (move (receptionist s) (mem s) (sems s))
        as [[[p' m'] v']|] eqn:Hm; [|done].
      injection Hf as <-. rewrite p_rec in Hm.
      destruct (receptionist_lock_move NT _ _ _ _ _ _ _ p_rc Hm) as [HN _].
      intros i c l Hi Hgi. simpl in *. rewrite HN in Hi. by eapply HG.
    + destruct (move (waiter s) (mem s) (sems s))
        as [[[p' m'] v']|] eqn:Hm; [|done].
      injection Hf as <-.
      destruct (waiter s) as [wc wl|] eqn:Hw; [|done].
      destruct (waiter_lock_move _ _ _ _ _ _ _ p_wtr Hm) as [HN _].
      intros i c l Hi Hgi. simpl in *. rewrite HN in Hi. by eapply HG.
    + case_bool_decide as Hj; [|done].
      destruct (move (groups s j) (mem s) (sems s))
        as [[[p' m'] v']|] eqn:Hm; [|done].
      injection Hf as <-.
      destruct (p_grp j Hj) as (c0 & l0 & Hgj & Hc0 & Hn0 & _).
      rewrite Hgj in Hm.
      destruct (group_lock_move _ _ _ _ _ _ _ Hc0 Hm) as [HN _].
      intros i c l Hi Hgi. simpl in *. rewrite HN in Hi.
      destruct (decide (i = j)) as [->|Hne].
      * rewrite fn_lookup_insert in Hgi. subst p'.
        destruct (group_table_move _ _ _ _ _ _ _ _ Hc0 Hm)
          as [[Hline Hsel] | [Ht Hk]].
        -- destruct (seated_inside s _ j c0 l0 Hreach HM Hj Hgj Hline)
             as (t & Ht & Hr).
           rewrite Hn0, Ht in Hsel. injection Hsel as <-. by intros _.
        -- intros Hk'. rewrite Ht. by eapply HG; [done|done|apply Hk].
      * rewrite fn_lookup_insert_ne in Hgi by done. by eapply HG.
  - destruct Hch as (Hr & Hw & Hg & _ & HN & _).
    intros i c l Hi Hgi. rewrite HN in Hi. rewrite Hg in Hgi. by eapply HG.
  - destruct Hch as (Hr & Hw & Hg & _ & HN & _).
    intros i c l Hi Hgi. rewrite HN in Hi. rewrite Hg in Hgi. by eapply HG.
  - destruct Hch as (Hr & Hw & Hg & _ & HN & _).
    intros i c l Hi Hgi. rewrite HN in Hi. rewrite Hg in Hgi. by eapply HG.
Qed.

Lemma GT_rtc x y :
  rtc polite_step x y ->
  reachable NT MAXGROUPS x.1 -> Mx x.1 x.2 -> GT NT x.1 ->
  reachable NT MAXGROUPS y.1 /\ Mx y.1 y.2 /\ GT NT y.1.
Proof.
  induction 1 as [|[s h] [s' h'] z Hst _ IH]; [done|].
  simpl. intros Hr HM HG. apply IH; simpl.
  - destruct Hr as (s0 & H0 & Hrtc). exists s0. split; [done|].
    eapply rtc_r; [done|]. by eapply polite_sys_step.
  - eapply Mx_step; [|done..]. by apply Full_reachable with MAXGROUPS.
  - by eapply GT_step.
Qed.

Lemma polite_invariants s h :
  polite_reachable NT MAXGROUPS s h ->
  reachable NT MAXGROUPS s /\ Mx s h /\ GT NT s.
Proof.
  intros (s0 & H0 & Hrtc).
  apply (GT_rtc _ _ Hrtc); simpl.
  - exists s0. by split.
  - by eapply Mx_initial.
  - by apply GT_initial.
Qed.

(** X5: A group reads a table of the restaurant: as long as the chef follows
    the locking convention, whenever a group is about to read its entry of
    [assignedTable] (lines 276, 310 and 377), the entry is one of 0 ..
    NUMTABLES-1. The receptionist may have woken the group before it has
    written the entry (lines 321-326 of receivePayment), but it then still
    holds the lock. *)
Theorem group_reads_valid_table s chef_in i c l :
  polite_reachable NT MAXGROUPS s chef_in ->
  0 <= i < nGroups (mem s) ->
  groups s i = Live c l ->
  reads_table (line_of c) ->
  exists t, sel (assignedTable (mem s)) i = Some t /\ 0 <= t < NT.
Proof.
  intros (Hreach & HM & _)%polite_invariants Hi Hg Hline.
  by eapply seated_inside.
Qed.

(** X6: The semaphores a group waits on are those of a table of the
    restaurant: as long as the chef follows the locking convention, from the
    moment a group has read its table in orderFood, its [table_id], which
    indexes [requestReceived], [foodArrived] and [tableDone] at lines 284,
    319 and 394, is one of 0 .. NUMTABLES-1. *)
Theorem group_waits_at_valid_table s chef_in i c l :
  polite_reachable NT MAXGROUPS s chef_in ->
  0 <= i < nGroups (mem s) ->
  groups s i = Live c l ->
  knows_table (line_of c) = true ->
  0 <= Group.table_id l < NT.
Proof.
  intros (_ & _ & HG)%polite_invariants Hi Hg Hk. by eapply HG.
Qed.

End GroupTables.

(** Group 0 in the state [reading_table]. *)
Lemma group_reads_valid_table_witness :
  exists t, sel (assignedTable (mem reading_table)) 0 = Some t /\ 0 <= t < 1.
Proof.
  apply (group_reads_valid_table 1 2 reading_table false 0
           (prog_at (groups reading_table 0))
           (vars_at group_at_start (groups reading_table 0))).
  - apply fires_polite_reachable.
  - vm_compute. split; [discriminate|reflexivity].
  - vm_compute. reflexivity.
  - left. vm_compute. reflexivity.
Defined.

(** Group 0 in the state [order_placed], at its [semDown] of line 284. *)
Lemma group_waits_at_valid_table_witness :
  0 <= Group.table_id (vars_at group_at_start (groups order_placed 0)) < 1.
Proof.
  apply (group_waits_at_valid_table 1 2 order_placed false 0
           (prog_at (groups order_placed 0))).
  - apply fires_polite_reachable.
  - vm_compute. split; [discriminate|reflexivity].
  - vm_compute. reflexivity.
  - vm_compute. reflexivity.
Defined.

(** ** More of what holds in every reachable state *)

Section Everywhere.

Variables (NT MAXGROUPS : Z).

(** X7: The request slot of the receptionist holds one request at a time: of
    the slot-available semaphore, the request-posted semaphore, the groups
    that have taken the slot and not yet posted, and the receptionist
    between taking a request and giving the slot back, at most one is set.
    *)
Theorem one_request_at_a_time s rc rl :
  reachable NT MAXGROUPS s ->
  receptionist s = Live rc rl ->
  let rrp := sems s sh.receptionistRequestPossible in
  let rr := sems s sh.receptionistReq in
  let N := nGroups (mem s) in
  0 <= rrp /\ 0 <= rr /\
  rrp + rr + (if rslot (line_of rc) then 1 else 0) <= 1 /\
  (forall i, 0 <= i < N -> holds_slot (gphase (groups s i)) = true ->
     rrp = 0 /\ rr = 0 /\ rslot (line_of rc) = false) /\
  (forall i j, 0 <= i < N -> 0 <= j < N ->
     holds_slot (gphase (groups s i)) = true ->
     holds_slot (gphase (groups s j)) = true -> i = j).
Proof.
  intros (rc' & rl' & HP & _)%Full_reachable Hr.
  rewrite (p_rec _ _ _ _ HP) in Hr. injection Hr as -> ->.
  destruct (p_core _ _ _ _ HP) as [_ _ (H1 & H2 & H3) H4 H5 _ _ _ _].
  simpl. split_and!; try done.
Qed.

(** X8: No group is ever ended by a crash: every group of the day is at a
    point of its program and still knows its identification, so that none of
    its accesses to [groupStat] and [assignedTable] is out of bounds. *)
Theorem groups_never_crash s i :
  reachable NT MAXGROUPS s ->
  0 <= i < nGroups (mem s) ->
  exists c l, groups s i = Live c l /\ c ∈ conts Group.life /\
    Group.n l = i /\
    i < Z.of_nat (length (groupStat (st (mem s)))) /\
    i < Z.of_nat (length (assignedTable (mem s))).
Proof.
  intros (rc' & rl' & HP & _)%Full_reachable Hi.
  destruct (p_grp _ _ _ _ HP i Hi) as (c & l & Hg & Hc & Hn & _).
  destruct (p_N _ _ _ _ HP). exists c, l. split_and!; try done; lia.
Qed.

(** X9: The receptionist never reads a stale request: when it is about to
    read the mailbox (line 233), the request there is one a group of the day
    has posted and that has not been served: a request for a table from a
    group that waits at its table semaphore and is recorded as TOARRIVE, or
    a bill request from a group that has been seated. *)
Theorem request_read_is_fresh s rc rl :
  reachable NT MAXGROUPS s ->
  receptionist s = Live rc rl ->
  line_of rc = 233%positive ->
  let r := receptionistRequest (mem s) in
  0 <= reqGroup r < nGroups (mem s) /\
  ((reqType r = TABLEREQ /\
    gphase (groups s (reqGroup r)) = Queued /\
    sel (Receptionist.groupRecord rl) (reqGroup r) = Some TOARRIVE) \/
   (reqType r = BILLREQ /\
    gphase (groups s (reqGroup r)) = Leaving /\
    sel (Receptionist.groupRecord rl) (reqGroup r) = Some ATTABLE)).
Proof.
  intros (rc' & rl' & HP & _)%Full_reachable Hr Hl.
  rewrite (p_rec _ _ _ _ HP) in Hr. injection Hr as -> ->.
  destruct (p_core _ _ _ _ HP) as [_ _ _ _ _ Hmb _ _ _].
  rewrite Hl in Hmb. destruct (Hmb ltac:(by right)) as [Hg Hv].
  simpl. split; [done|]. destruct (reqType _); try done; [left|right]; done.
Qed.

(** X10: The table semaphore of a group is 0 or 1, and no wake-up is lost:
    it is 1 exactly when the group is recorded as ATTABLE, has been
    signalled and is still to pass its [semDown] of line 226. *)
Theorem table_semaphore_binary s rc rl i :
  reachable NT MAXGROUPS s ->
  receptionist s = Live rc rl ->
  0 <= i < nGroups (mem s) ->
  let w := sems s (sh.waitForTable i) in
  (w = 0 \/ w = 1) /\
  (w = 1 <->
   gphase (groups s i) = Queued /\
   sel (Receptionist.groupRecord rl) i = Some ATTABLE /\
   signalling (line_of rc) rl <> Some i).
Proof.
  intros (rc' & rl' & HP & _)%Full_reachable Hr Hi.
  rewrite (p_rec _ _ _ _ HP) in Hr. injection Hr as -> ->.
  destruct (p_core _ _ _ _ HP) as [_ _ _ _ _ _ _ _ Hrel].
  specialize (Hrel i Hi). simpl in *.
  destruct (gphase (groups s i)); simpl in Hrel; split.
  all: try (destruct Hrel as [_ ->]; first [by left | split; [done|by intros [? _]]]).
  - destruct Hrel as [[_ ->]|[[_ ->]|[_ [[-> _]|[-> _]]]]]; auto.
  - destruct Hrel as [[Hr ->]|[[Hr ->]|[Hr [[-> Hs]|[-> Hs]]]]].
    + split; [done|]. intros (_ & H & _). by rewrite Hr in H.
    + split; [done|]. intros (_ & H & _). by rewrite Hr in H.
    + done.
    + split; [done|]. intros (_ & _ & H). done.
Qed.

(** X11: The record the receptionist keeps of a group never runs ahead of
    the group: it is TOARRIVE until the group has posted its request for a
    table, WAIT only while the group waits at its table semaphore, ATTABLE
    while the group is at its table, and DONE only once the group has posted
    its bill request. *)
Theorem record_follows_group s rc rl i :
  reachable NT MAXGROUPS s ->
  receptionist s = Live rc rl ->
  0 <= i < nGroups (mem s) ->
  let r := sel (Receptionist.groupRecord rl) i in
  match gphase (groups s i) with
  | Arriving | Asking | Asked => r = Some TOARRIVE
  | Queued => r = Some TOARRIVE \/ r = Some WAIT \/ r = Some ATTABLE
  | Seated | Paying | Billed => r = Some ATTABLE
  | Leaving => r = Some ATTABLE \/ r = Some DONE
  end.
Proof.
  intros (rc' & rl' & HP & _)%Full_reachable Hr Hi.
  rewrite (p_rec _ _ _ _ HP) in Hr. injection Hr as -> ->.
  destruct (p_core _ _ _ _ HP) as [_ _ _ _ _ _ _ _ Hrel].
  specialize (Hrel i Hi). simpl in *.
  destruct (gphase (groups s i)); simpl in Hrel; intuition.
Qed.

(** X12: The mailbox of the receptionist is not overwritten between the
    moment a group has written its request and the moment it signals it:
    when a group is about to signal (line 215 for the table, line 383 for
    the bill), the request in the mailbox is its own. *)
Theorem request_posted_is_own s i c l :
  reachable NT MAXGROUPS s ->
  0 <= i < nGroups (mem s) ->
  groups s i = Live c l ->
  (line_of c = 215%positive ->
   receptionistRequest (mem s) = mkRequest TABLEREQ i) /\
  (line_of c = 383%positive ->
   receptionistRequest (mem s) = mkRequest BILLREQ i).
Proof.
  intros (rc' & rl' & HP & _)%Full_reachable Hi Hg.
  destruct (p_grp _ _ _ _ HP i Hi) as (c0 & l0 & Hg0 & _ & _ & Ha).
  rewrite Hg in Hg0. injection Hg0 as <- <-.
  split; intros Hl; rewrite Hl in Ha; exact Ha.
Qed.

(** X13: The receptionist is never ended by a crash: it is always at a point
    of its program, and [groupRecord] has an entry for every group of the
    day, so that none of its array accesses is out of bounds and its
    assertion never fails. *)
Theorem receptionist_never_crashes s :
  reachable NT MAXGROUPS s ->
  exists rc rl, receptionist s = Live rc rl /\
    rc ∈ conts (Receptionist.main NT) /\
    0 <= nGroups (mem s) <= Z.of_nat (length (Receptionist.groupRecord rl)) /\
    nGroups (mem s) <= Z.of_nat (length (assignedTable (mem s))).
Proof.
  intros (rc & rl & HP & _)%Full_reachable.
  exists rc, rl. destruct (p_N _ _ _ _ HP).
  split_and!; [apply HP|apply HP|apply (p_core _ _ _ _ HP)..|done].
Qed.

End Everywhere.

(** The request slot in the state [one_queued]. *)
Lemma one_request_at_a_time_witness :
  sems one_queued sh.receptionistRequestPossible +
  sems one_queued sh.receptionistReq +
  (if rslot (line_of (prog_at (receptionist one_queued))) then 1 else 0) <= 1.
Proof.
  destruct (one_request_at_a_time 1 2 one_queued
              (prog_at (receptionist one_queued))
              (vars_at no_vars (receptionist one_queued)))
    as (_ & _ & H & _).
  - apply fires_reachable.
  - vm_compute. reflexivity.
  - exact H.
Defined.

(** Group 1 in the state [one_queued]. *)
Lemma groups_never_crash_witness :
  exists c l, groups one_queued 1 = Live c l /\ c ∈ conts Group.life /\
    Group.n l = 1 /\
    1 < Z.of_nat (length (groupStat (st (mem one_queued)))) /\
    1 < Z.of_nat (length (assignedTable (mem one_queued))).
Proof.
  apply (groups_never_crash 1 2 one_queued 1).
  - apply fires_reachable.
  - vm_compute. split; [discriminate|reflexivity].
Defined.

(** The first request of the day, in the state [reading_request]. *)
Lemma request_read_is_fresh_witness :
  reqType (receptionistRequest (mem reading_request)) = TABLEREQ /\
  gphase (groups reading_request
            (reqGroup (receptionistRequest (mem reading_request)))) = Queued.
Proof.
  destruct (request_read_is_fresh 1 2 reading_request
              (prog_at (receptionist reading_request))
              (vars_at no_vars (receptionist reading_request)))
    as (_ & [(H1 & H2 & _) | (H1 & _)]).
  - apply fires_reachable.
  - vm_compute. reflexivity.
  - vm_compute. reflexivity.
  - split; [exact H1|exact H2].
  - vm_compute in H1. discriminate H1.
Defined.

(** Group 0 in the state [one_queued]: it has been given the table and
    has not yet passed its [semDown]. *)
Lemma table_semaphore_binary_witness :
  sems one_queued (sh.waitForTable 0) = 0 \/
  sems one_queued (sh.waitForTable 0) = 1.
Proof.
  destruct (table_semaphore_binary 1 2 one_queued
              (prog_at (receptionist one_queued))
              (vars_at no_vars (receptionist one_queued)) 0) as [H _].
  - apply fires_reachable.
  - vm_compute. reflexivity.
  - vm_compute. split; [discriminate|reflexivity].
  - exact H.
Defined.

(** Group 1 in the state [one_queued]: it waits, and is recorded as
    waiting. *)
Lemma record_follows_group_witness :
  let r := sel (Receptionist.groupRecord
                  (vars_at no_vars (receptionist one_queued))) 1 in
  match gphase (groups one_queued 1) with
  | Arriving | Asking | Asked => r = Some TOARRIVE
  | Queued => r = Some TOARRIVE \/ r = Some WAIT \/ r = Some ATTABLE
  | Seated | Paying | Billed => r = Some ATTABLE
  | Leaving => r = Some ATTABLE \/ r = Some DONE
  end.
Proof.
  apply (record_follows_group 1 2 one_queued
           (prog_at (receptionist one_queued))).
  - apply fires_reachable.
  - vm_compute. reflexivity.
  - vm_compute. split; [discriminate|reflexivity].
Defined.

(** Group 0 in the state [posting]. *)
Lemma request_posted_is_own_witness :
  receptionistRequest (mem posting) = mkRequest TABLEREQ 0.
Proof.
  destruct (request_posted_is_own 1 2 posting 0
              (prog_at (groups posting 0))
              (vars_at group_at_start (groups posting 0))) as [H _].
  - apply fires_reachable.
  - vm_compute. split; [discriminate|reflexivity].
  - vm_compute. reflexivity.
  - apply H. vm_compute. reflexivity.
Defined.

(** The receptionist in the state [one_queued]. *)
Lemma receptionist_never_crashes_witness :
  exists rc rl, receptionist one_queued = Live rc rl /\
    rc ∈ conts (Receptionist.main 1) /\
    0 <= nGroups (mem one_queued)
      <= Z.of_nat (length (Receptionist.groupRecord rl)) /\
    nGroups (mem one_queued) <=
      Z.of_nat (length (assignedTable (mem one_queued))).
Proof.
  apply (receptionist_never_crashes 1 2 one_queued). apply fires_reachable.
Defined.

(** ** Disciplines of a trace *)

Lemma observe_app {Q} (rule : Q -> event -> option Q) q tr1 tr2 :
  observe rule q (tr1 ++ tr2) =
    match observe rule q tr1 with
    | Some q1 => observe rule q1 tr2
    | None => None
    end.
Proof.
  revert q. induction tr1 as [|e tr1 IH]; intros q; [done|]. simpl.
  destruct (rule q e); [apply IH|done].
Qed.

Section Follows.

Context {Q L : Type} (rule : Q -> event -> option Q).

Implicit Types (p k : prog L) (q : Q).

(** A run of [p ;; k] is a run of [p] that crashes, or a run of [p]
    followed by a run of [k]. *)
Lemma run_seq_inv E (f i : nat) p k l m res :
  run E f i (pseq p k) l m = Some res ->
  (exists c, run E f i p l m = Some res /\ r_end res = Crash c) \/
  (exists r1 l1 m1 (f2 : nat) r2,
     run E f i p l m = Some r1 /\ r_end r1 = Ok (l1, m1) /\ (f2 <= f)%nat /\
     run E f2 (r_steps r1) k l1 m1 = Some r2 /\
     r_end res = r_end r2 /\ r_trace res = r_trace r1 ++ r_trace r2).
Proof.
  revert i p l m res. induction f as [|f IH]; intros i p l m res; [done|].
  intros Hrun. pose proof Hrun as Hrun0. simpl in Hrun. rewrite step_seq in Hrun.
  simpl. destruct (step p l (interference E i m)) as [[a o]|] eqn:Hs.
  - destruct o as [[[p' l'] m']|c].
    + destruct (is_sem_op a && sem_fails E i).
      { left. exists ExitFailure. by simplify_eq. }
      destruct (run E f (S i) (pseq p' k) l' m') as [[e tr j]|] eqn:Hr; [|done].
      simplify_eq. destruct (IH _ _ _ _ _ Hr) as [(c & H1 & H2)|H].
      * left. exists c. rewrite H1. done.
      * destruct H as (r1 & l1 & m1 & f2 & r2 & H1 & H2 & H3 & H4 & H5 & H6).
        right. rewrite H1. destruct r1 as [e1 tr1 j1]. simpl in *.
        eexists _, l1, m1, f2, r2. split_and!; try done; [lia|].
        simpl. by rewrite H6, app_assoc.
    + destruct (is_sem_op a && sem_fails E i).
      { left. exists ExitFailure. by simplify_eq. }
      left. exists c. by simplify_eq.
  - destruct p; simplify_eq/=. right.
    eexists _, l, m, (Datatypes.S f), res. split_and!; done.
Qed.

Lemma follows_Return q : follows rule (@Return L) q q.
Proof.
  intros E [|f] i l m res; [done|]. intros [= <-]. exists q. split; [done|].
  done.
Qed.

(** One node: the rule accepts its event, and the rest follows. *)
Lemma follows_step p q q1 qf :
  (forall l m, exists a o,
     step p l m = Some (a, o) /\ observe rule q (event_of a) = Some q1 /\
     forall p' l' m', o = Ok (p', l', m') -> follows rule p' q1 qf) ->
  follows rule p q qf.
Proof.
  intros H E [|f] i l m res; [done|]. simpl.
  destruct (H l (interference E i m)) as (a & o & -> & Ha & Hk).
  destruct (is_sem_op a && sem_fails E i).
  { intros [= <-]. exists q. done. }
  destruct o as [[[p' l'] m']|c].
  - destruct (run E f (Datatypes.S i) p' l' m') as [[e tr j]|] eqn:Hr; [|done].
    intros [= <-]. simpl.
    destruct (Hk _ _ _ eq_refl _ _ _ _ _ _ Hr) as (q' & Hq & Hf).
    exists q'. by rewrite observe_app, Ha.
  - intros [= <-]. exists q1. done.
Qed.

Lemma follows_SemDown n s k q q1 qf :
  (forall l, rule q (Edown (s l)) = Some q1) ->
  follows rule k q1 qf -> follows rule (SemDown n s k) q qf.
Proof.
  intros H Hk. apply (follows_step _ _ q1). intros l m.
  eexists _, _. split; [done|]. simpl. rewrite H. split; [done|].
  by intros ??? [= <- _ _].
Qed.

Lemma follows_SemUp n s k q q1 qf :
  (forall l, rule q (Eup (s l)) = Some q1) ->
  follows rule k q1 qf -> follows rule (SemUp n s k) q qf.
Proof.
  intros H Hk. apply (follows_step _ _ q1). intros l m.
  eexists _, _. split; [done|]. simpl. rewrite H. split; [done|].
  by intros ??? [= <- _ _].
Qed.

Lemma follows_SaveState n k q q1 qf :
  (forall m, rule q (Esave m) = Some q1) ->
  follows rule k q1 qf -> follows rule (SaveState n k) q qf.
Proof.
  intros H Hk. apply (follows_step _ _ q1). intros l m.
  eexists _, _. split; [done|]. simpl. rewrite H. split; [done|].
  by intros ??? [= <- _ _].
Qed.

Lemma follows_Stmt n a f k q q1 qf :
  (forall l, rule q (Eacc (a l)) = Some q1) ->
  follows rule k q1 qf -> follows rule (Stmt n a f k) q qf.
Proof.
  intros H Hk. apply (follows_step _ _ q1). intros l m.
  eexists _, _. split; [done|]. simpl. rewrite H. split; [done|].
  intros p' l' m'. destruct (f l m) as [[??]|?]; [|done]. by intros [= <- _ _].
Qed.

Lemma follows_Usleep n k q q1 qf :
  rule q Esleep = Some q1 ->
  follows rule k q1 qf -> follows rule (Usleep n k) q qf.
Proof.
  intros H Hk. apply (follows_step _ _ q1). intros l m.
  eexists _, _. split; [done|]. simpl. rewrite H. split; [done|].
  by intros ??? [= <- _ _].
Qed.

Lemma follows_If n c p1 p2 q qf :
  follows rule p1 q qf -> follows rule p2 q qf ->
  follows rule (If n c p1 p2) q qf.
Proof.
  intros H1 H2. apply (follows_step _ _ q). intros l m.
  eexists _, _. split; [done|]. split; [done|].
  intros ??? [= <- _ _]. by destruct (c l m).
Qed.

(** One program after another. *)
Lemma follows_seq p k q q1 qf :
  follows rule p q q1 -> follows rule k q1 qf ->
  follows rule (pseq p k) q qf.
Proof.
  intros Hp Hk E f i l m res Hrun.
  destruct (run_seq_inv _ _ _ _ _ _ _ _ Hrun) as [(c & H1 & H2)|H].
  - destruct (Hp _ _ _ _ _ _ H1) as (q' & Hq & _). exists q'.
    split; [done|]. intros l' m'. by rewrite H2.
  - destruct H as (r1 & l1 & m1 & f2 & r2 & H1 & H2 & H3 & H4 & H5 & H6).
    destruct (Hp _ _ _ _ _ _ H1) as (q' & Hq & Hf).
    rewrite (Hf _ _ H2) in Hq.
    destruct (Hk _ _ _ _ _ _ H4) as (q2 & Hq2 & Hf2).
    exists q2. rewrite H6, observe_app, Hq, H5. done.
Qed.

(** A loop whose body keeps the state of the rule. *)
Lemma follows_While n c b k q qf :
  follows rule b q q -> follows rule k q qf ->
  follows rule (While n c b k) q qf.
Proof.
  intros Hb Hk E f. induction (lt_wf f) as [f _ IH].
  intros i l m res. destruct f as [|f]; [done|]. simpl.
  destruct (c l (interference E i m)).
  - destruct (run E f (Datatypes.S i) (pseq b (While n c b k)) l
                (interference E i m)) as [[e tr j]|] eqn:Hr; [|done].
    intros [= <-]. simpl.
    destruct (run_seq_inv _ _ _ _ _ _ _ _ Hr) as [(x & H1 & H2)|H].
    + destruct (Hb _ _ _ _ _ _ H1) as (q' & Hq & _). exists q'.
      split; [done|]. intros l' m'. simpl in H2. by rewrite H2.
    + destruct H as (r1 & l1 & m1 & f2 & r2 & H1 & H2 & H3 & H4 & H5 & H6).
      destruct (Hb _ _ _ _ _ _ H1) as (q' & Hq & Hf).
      rewrite (Hf _ _ H2) in Hq.
      destruct (IH f2 ltac:(lia) _ _ _ _ H4) as (q2 & Hq2 & Hf2).
      exists q2. simpl in H5, H6. rewrite H6, observe_app, Hq, H5. done.
  - destruct (run E f (Datatypes.S i) k l (interference E i m))
      as [[e tr j]|] eqn:Hr; [|done].
    intros [= <-]. simpl. by apply (Hk _ _ _ _ _ _ Hr).
Qed.

End Follows.

Ltac follow :=
  repeat first
    [ apply follows_Return
    | eapply follows_SemDown; [intros; cbv; reflexivity|]
    | eapply follows_SemUp; [intros; cbv; reflexivity|]
    | eapply follows_SaveState; [intros; cbv; reflexivity|]
    | eapply follows_Stmt; [intros; cbv; reflexivity|]
    | eapply follows_Usleep; [cbv; reflexivity|]
    | apply follows_If
    | apply follows_While ].

Ltac unfold_sources :=
  unfold Group.life, Group.goToRestaurant, Group.checkInAtReception,
    Group.orderFood, Group.waitFood, Group.eat, Group.checkOutAtReception,
    Receptionist.main, Receptionist.service_loop, Receptionist.turn,
    Receptionist.waitForGroup, Receptionist.provideTableOrWaitingRoom,
    Receptionist.receivePayment,
    Waiter.main, Waiter.turn, Waiter.waitForClientOrChef, Waiter.informChef,
    Waiter.takeFoodToTable, semDown, semUp, stmt, saveState, usleep;
  cbn [pseq].

(** ** The lock and the log in the three sources *)

(** X14: The life cycle of a group follows the discipline of the lock, in
    every environment and also when it is cut short by a crash or by a
    failing semaphore operation; at its end the lock is released. *)
Theorem group_lock_discipline E (f i : nat) l m res :
  run E f i Group.life l m = Some res ->
  exists held, observe lock_rule false (r_trace res) = Some held /\
    forall l' m', r_end res = Ok (l', m') -> held = false.
Proof.
  revert E f i l m res. change (follows lock_rule Group.life false false).
  unfold_sources. follow.
Qed.

(** ** The conditions that read the shared region *)

Ltac test_cases Hc Ht Hrd :=
  enum Hc; cbn [test_of] in Ht; try discriminate Ht;
  injection Ht as <-; cbn [line_of critical waiter_critical];
  first [ done | by left | by right; left | by right; right | by right
        | exfalso; destruct Hrd as (l0 & m0 & m1 & Hne); by apply Hne ].

(** X15: The receptionist, from the initialisation of [groupRecord] to
    the end of its service loop, follows the discipline of the lock in
    its statements.  Of the conditions it evaluates, those that read the
    shared region are evaluated inside a critical region, but for the
    tests of the two loops of [main]: lines 111 and 118 read [nGroups]
    with the lock not held. *)
Theorem receptionist_lock_discipline NUMTABLES :
  follows lock_rule (Receptionist.main NUMTABLES) false false /\
  (forall c t,
     c ∈ conts (Receptionist.main NUMTABLES) ->
     test_of c = Some t -> reads_shared t ->
     critical (line_of c) = true \/
     line_of c = 111%positive \/ line_of c = 118%positive) /\
  (forall line, line = 111%positive \/ line = 118%positive ->
     critical line = false /\
     exists c t, c ∈ conts (Receptionist.main NUMTABLES) /\
       line_of c = line /\ test_of c = Some t /\ reads_shared t).
Proof.
  split; [|split].
  - unfold_sources. follow.
  - intros c t Hc Ht Hrd. test_cases Hc Ht Hrd.
  - intros line [-> | ->]; (split; [reflexivity|]).
    + destruct (conts (Receptionist.main NUMTABLES) !! 1%nat) as [c|] eqn:Hc;
        [|discriminate Hc].
      exists c. apply list_elem_of_lookup_2 in Hc as Hin.
      injection Hc as <-. eexists. split; [done|].
      split; [reflexivity|]. split; [reflexivity|].
      exists receptionist_at_start, one_group_queued, one_group_going. done.
    + destruct (conts (Receptionist.main NUMTABLES) !! 5%nat) as [c|] eqn:Hc;
        [|discriminate Hc].
      exists c. apply list_elem_of_lookup_2 in Hc as Hin.
      injection Hc as <-. eexists. split; [done|].
      split; [reflexivity|]. split; [reflexivity|].
      exists receptionist_billing, one_group_queued, one_group_going. done.
Qed.

(** X16: The waiter follows the discipline of the lock in its
    statements.  The only condition it evaluates that reads the shared
    region is the test of the loop of [main]: line 102 reads [nGroups]
    with the lock not held. *)
Theorem waiter_lock_discipline :
  follows lock_rule Waiter.main false false /\
  (forall c t,
     c ∈ conts Waiter.main -> test_of c = Some t -> reads_shared t ->
     line_of c = 102%positive) /\
  waiter_critical 102 = false /\
  exists c t, c ∈ conts Waiter.main /\
    line_of c = 102%positive /\ test_of c = Some t /\ reads_shared t.
Proof.
  split; [|split; [|split]].
  - unfold_sources. follow.
  - intros c t Hc Ht Hrd. test_cases Hc Ht Hrd.
  - reflexivity.
  - destruct (conts Waiter.main !! 1%nat) as [c|] eqn:Hc; [|discriminate Hc].
    exists c. apply list_elem_of_lookup_2 in Hc as Hin.
    injection Hc as <-. eexists. split; [done|].
    split; [reflexivity|]. split; [reflexivity|].
    exists (Waiter.set_nReq 3 waiter_at_start), one_group_queued,
      one_group_going. done.
Qed.

(** X17: A group saves the state right after each write of its status. *)
Theorem group_log_discipline E (f i : nat) l m res :
  run E f i Group.life l m = Some res ->
  exists dirty, observe log_rule false (r_trace res) = Some dirty /\
    forall l' m', r_end res = Ok (l', m') -> dirty = false.
Proof.
  revert E f i l m res. change (follows log_rule Group.life false false).
  unfold_sources. follow.
Qed.

(** X18: The receptionist saves the state right after each write of its
    status. *)
Theorem receptionist_log_discipline NUMTABLES E (f i : nat) l m res :
  run E f i (Receptionist.main NUMTABLES) l m = Some res ->
  exists dirty, observe log_rule false (r_trace res) = Some dirty /\
    forall l' m', r_end res = Ok (l', m') -> dirty = false.
Proof.
  revert E f i l m res.
  change (follows log_rule (Receptionist.main NUMTABLES) false false).
  unfold_sources. follow.
Qed.

(** X19: The waiter saves the state right after each write of its status. *)
Theorem waiter_log_discipline E (f i : nat) l m res :
  run E f i Waiter.main l m = Some res ->
  exists dirty, observe log_rule false (r_trace res) = Some dirty /\
    forall l' m', r_end res = Ok (l', m') -> dirty = false.
Proof.
  revert E f i l m res. change (follows log_rule Waiter.main false false).
  unfold_sources. follow.
Qed.

(** The day of one group, when no semaphore makes it wait. *)
Lemma group_lock_discipline_witness :
  exists res,
    run quiet 80 0 Group.life group_at_start one_group_going = Some res /\
    exists held, observe lock_rule false (r_trace res) = Some held /\
      forall l' m', r_end res = Ok (l', m') -> held = false.
Proof.
  destruct (run quiet 80 0 Group.life group_at_start one_group_going) as [res|] eqn:H.
  - exists res. split; [reflexivity|].
    exact (group_lock_discipline _ _ _ _ _ _ H).
  - vm_compute in H. discriminate H.
Defined.

(** The day of a receptionist with one group to serve. *)
Lemma receptionist_lock_discipline_witness :
  exists res,
    run one_group_served 80 0 (Receptionist.main 1) receptionist_at_start
      one_group_going = Some res /\
    exists held, observe lock_rule false (r_trace res) = Some held /\
      forall l' m', r_end res = Ok (l', m') -> held = false.
Proof.
  destruct (run one_group_served 80 0 (Receptionist.main 1)
              receptionist_at_start one_group_going) as [res|] eqn:H.
  - exists res. split; [reflexivity|].
    exact (proj1 (receptionist_lock_discipline 1) _ _ _ _ _ _ H).
  - vm_compute in H. discriminate H.
Defined.

(** The day of a waiter with one group to serve. *)
Lemma waiter_lock_discipline_witness :
  exists res,
    run one_group_served 80 0 Waiter.main waiter_at_start one_group_going
      = Some res /\
    exists held, observe lock_rule false (r_trace res) = Some held /\
      forall l' m', r_end res = Ok (l', m') -> held = false.
Proof.
  destruct (run one_group_served 80 0 Waiter.main waiter_at_start
              one_group_going) as [res|] eqn:H.
  - exists res. split; [reflexivity|].
    exact (proj1 waiter_lock_discipline _ _ _ _ _ _ H).
  - vm_compute in H. discriminate H.
Defined.

(** The log of the day of one group. *)
Lemma group_log_discipline_witness :
  exists res,
    run quiet 80 0 Group.life group_at_start one_group_going = Some res /\
    exists dirty, observe log_rule false (r_trace res) = Some dirty /\
      forall l' m', r_end res = Ok (l', m') -> dirty = false.
Proof.
  destruct (run quiet 80 0 Group.life group_at_start one_group_going) as [res|] eqn:H.
  - exists res. split; [reflexivity|].
    exact (group_log_discipline _ _ _ _ _ _ H).
  - vm_compute in H. discriminate H.
Defined.

(** The log of the day of a receptionist with one group to serve. *)
Lemma receptionist_log_discipline_witness :
  exists res,
    run one_group_served 80 0 (Receptionist.main 1) receptionist_at_start one_group_going = Some res /\
    exists dirty, observe log_rule false (r_trace res) = Some dirty /\
      forall l' m', r_end res = Ok (l', m') -> dirty = false.
Proof.
  destruct (run one_group_served 80 0 (Receptionist.main 1) receptionist_at_start one_group_going) as [res|] eqn:H.
  - exists res. split; [reflexivity|].
    exact (receptionist_log_discipline 1 _ _ _ _ _ _ H).
  - vm_compute in H. discriminate H.
Defined.

(** The log of the day of a waiter with one group to serve. *)
Lemma waiter_log_discipline_witness :
  exists res,
    run one_group_served 80 0 Waiter.main waiter_at_start one_group_going = Some res /\
    exists dirty, observe log_rule false (r_trace res) = Some dirty /\
      forall l' m', r_end res = Ok (l', m') -> dirty = false.
Proof.
  destruct (run one_group_served 80 0 Waiter.main waiter_at_start one_group_going) as [res|] eqn:H.
  - exists res. split; [reflexivity|].
    exact (waiter_log_discipline _ _ _ _ _ _ H).
  - vm_compute in H. discriminate H.
Defined.

(** ** Taking a request *)

Ltac estep Hsem :=
  apply completes_step;
  cbn [step pseq is_sem_op event_of andb app]; rewrite ?Hsem;
  split; [reflexivity|].

(** X20: waitForGroup, in an environment in which no semaphore operation
    fails and nobody overwrites the mailbox of the receptionist: it returns
    the request that is in the mailbox, having waited once on the
    request-posted semaphore; it reads the request before it gives the slot
    back, which it does once. *)
Theorem waitForGroup_returns_request E l m :
  (forall i, sem_fails E i = false) ->
  (forall i m, receptionistRequest (interference E i m) =
               receptionistRequest m) ->
  exists res l' m',
    run E 10 0 Receptionist.waitForGroup l m = Some res /\
    r_end res = Ok (l', m') /\
    Receptionist.ret l' = receptionistRequest m /\
    Receptionist.groupRecord l' = Receptionist.groupRecord l /\
    downs sh.receptionistReq (r_trace res) = 1%nat /\
    ups sh.receptionistRequestPossible (r_trace res) = 1%nat /\
    precedes (Eacc (Load f_receptionistRequest))
      (Eup sh.receptionistRequestPossible) (r_trace res).
Proof.
  intros Hsem Hmb.
  cut (completes E 10 0 Receptionist.waitForGroup l m (fun l' m' tr =>
         Receptionist.ret l' = receptionistRequest m /\
         Receptionist.groupRecord l' = Receptionist.groupRecord l /\
         downs sh.receptionistReq tr = 1%nat /\
         ups sh.receptionistRequestPossible tr = 1%nat /\
         precedes (Eacc (Load f_receptionistRequest))
           (Eup sh.receptionistRequestPossible) tr)).
  { intros (res & l' & m' & H1 & H2 & H3). by exists res, l', m'. }
  unfold Receptionist.waitForGroup, semDown, semUp, stmt, saveState.
  cbn [pseq]. do 9 estep Hsem. apply completes_step. cbn [step].
  split_and!; try done.
  - cbn. repeat (rewrite Hmb; cbn). done.
  - exists 6%nat, 8%nat. split; [lia|]. done.
Qed.

(** X21: waitForClientOrChef, likewise, for the mailbox of the waiter. *)
Theorem waitForClientOrChef_returns_request E l m :
  (forall i, sem_fails E i = false) ->
  (forall i m, waiterRequest (interference E i m) = waiterRequest m) ->
  exists res l' m',
    run E 10 0 Waiter.waitForClientOrChef l m = Some res /\
    r_end res = Ok (l', m') /\
    Waiter.ret l' = waiterRequest m /\
    downs sh.waiterRequest (r_trace res) = 1%nat /\
    ups sh.waiterRequestPossible (r_trace res) = 1%nat /\
    precedes (Eacc (Load f_waiterRequest))
      (Eup sh.waiterRequestPossible) (r_trace res).
Proof.
  intros Hsem Hmb.
  cut (completes E 10 0 Waiter.waitForClientOrChef l m (fun l' m' tr =>
         Waiter.ret l' = waiterRequest m /\
         downs sh.waiterRequest tr = 1%nat /\
         ups sh.waiterRequestPossible tr = 1%nat /\
         precedes (Eacc (Load f_waiterRequest))
           (Eup sh.waiterRequestPossible) tr)).
  { intros (res & l' & m' & H1 & H2 & H3). by exists res, l', m'. }
  unfold Waiter.waitForClientOrChef, semDown, semUp, stmt, saveState.
  cbn [pseq]. do 9 estep Hsem. apply completes_step. cbn [step].
  split_and!; try done.
  - cbn. repeat (rewrite Hmb; cbn). done.
  - exists 6%nat, 8%nat. split; [lia|]. done.
Qed.

(** ** The waiter takes an order to the chef *)

(** X22: informChef for a group whose table is [t]: under the lock the
    waiter sets its status to INFORM_CHEF, persists the state, fills the
    mailbox of the chef with the order and the group, and reads the table of
    the group; it releases the lock, and only then signals that the request
    has been received at that table and that an order waits; last it waits
    for the chef to take the order. *)
Theorem informChef_steps (l : Waiter.wvars) (m : FULL_STAT) (t : Z) :
  aget (assignedTable m) (Waiter.group_id l) = Ok t ->
  let m1 := set_waiterStat INFORM_CHEF m in
  let m' := set_foodGroup (Waiter.group_id l) (set_foodOrder 1 m1) in
  run quiet 11 0 Waiter.informChef l m =
    Some {| r_end := Ok (Waiter.set_table_id t l, m');
            r_trace :=
              [ Edown sh.mutex;
                Eacc (Store f_waiterStat);
                Esave m1;
                Eacc (Store f_foodOrder);
                Eacc (Store f_foodGroup);
                Eacc (Load (f_assignedTable (Waiter.group_id l)));
                Eup sh.mutex;
                Eup (sh.requestReceived t);
                Eup sh.waitOrder;
                Edown sh.orderReceived ];
            r_steps := 10 |}.
Proof. intros H m1 m'. cbn. rewrite H. reflexivity. Qed.

(** ** A request for a table from a group that has one *)

(** X23: provideTableOrWaitingRoom for a group whose record is 2 or more
    (ATTABLE or DONE): the assertion of [decideTableOrWait] fails. The
    receptionist is stopped while it holds the lock, after it has set and
    persisted its status and before any change to [groupsWaiting],
    [assignedTable] or [groupRecord]. *)
Theorem table_request_repeated_aborts NUMTABLES (l : Receptionist.rvars)
    (m : FULL_STAT) (r : Z) :
  sel (Receptionist.groupRecord l) (Receptionist.group_id l) = Some r ->
  2 <= r ->
  run quiet 10 0 (Receptionist.provideTableOrWaitingRoom NUMTABLES) l m =
    Some {| r_end := Crash AssertionFailed;
            r_trace :=
              [ Edown sh.mutex;
                Eacc (Store f_receptionistStat);
                Esave (set_receptionistStat ASSIGNTABLE m);
                Eacc Scan ];
            r_steps := 4 |}.
Proof.
  intros HR Hr. apply aget_sel in HR. cbn.
  unfold Receptionist.decideTableOrWait. rewrite HR. cbn.
  replace (r <? 2) with false by lia. reflexivity.
Qed.

(** The receptionist takes the request for a table of group 0. *)
Lemma waitForGroup_returns_request_witness :
  exists res l' m',
    run quiet 10 0 Receptionist.waitForGroup receptionist_at_start
      one_group_at_reception = Some res /\
    r_end res = Ok (l', m') /\
    Receptionist.ret l' = mkRequest TABLEREQ 0 /\
    Receptionist.groupRecord l' = [0] /\
    downs sh.receptionistReq (r_trace res) = 1%nat /\
    ups sh.receptionistRequestPossible (r_trace res) = 1%nat /\
    precedes (Eacc (Load f_receptionistRequest))
      (Eup sh.receptionistRequestPossible) (r_trace res).
Proof.
  apply (waitForGroup_returns_request quiet receptionist_at_start
           one_group_at_reception (fun _ => eq_refl) (fun _ _ => eq_refl)).
Defined.

(** The waiter takes the request of the chef for group 0. *)
Lemma waitForClientOrChef_returns_request_witness :
  exists res l' m',
    run quiet 10 0 Waiter.waitForClientOrChef waiter_at_start
      one_group_seated = Some res /\
    r_end res = Ok (l', m') /\
    Waiter.ret l' = mkRequest FOODREADY 0 /\
    downs sh.waiterRequest (r_trace res) = 1%nat /\
    ups sh.waiterRequestPossible (r_trace res) = 1%nat /\
    precedes (Eacc (Load f_waiterRequest))
      (Eup sh.waiterRequestPossible) (r_trace res).
Proof.
  apply (waitForClientOrChef_returns_request quiet waiter_at_start
           one_group_seated (fun _ => eq_refl) (fun _ _ => eq_refl)).
Defined.

(** The order of group 0, seated at table 0. *)
Lemma informChef_steps_witness :
  run quiet 11 0 Waiter.informChef waiter_at_work one_group_seated =
    Some {| r_end :=
              Ok (Waiter.set_table_id 0 waiter_at_work,
                  set_foodGroup 0
                    (set_foodOrder 1
                       (set_waiterStat INFORM_CHEF one_group_seated)));
            r_trace :=
              [ Edown sh.mutex;
                Eacc (Store f_waiterStat);
                Esave (set_waiterStat INFORM_CHEF one_group_seated);
                Eacc (Store f_foodOrder);
                Eacc (Store f_foodGroup);
                Eacc (Load (f_assignedTable 0));
                Eup sh.mutex;
                Eup (sh.requestReceived 0);
                Eup sh.waitOrder;
                Edown sh.orderReceived ];
            r_steps := 10 |}.
Proof.
  apply (informChef_steps waiter_at_work one_group_seated 0). reflexivity.
Defined.

(** Group 0, who sits at table 0, asks for a table again. *)
Lemma table_request_repeated_aborts_witness :
  run quiet 10 0 (Receptionist.provideTableOrWaitingRoom 1)
    (Receptionist.set_group_id 0 receptionist_billing) one_group_queued =
    Some {| r_end := Crash AssertionFailed;
            r_trace :=
              [ Edown sh.mutex;
                Eacc (Store f_receptionistStat);
                Esave (set_receptionistStat ASSIGNTABLE one_group_queued);
                Eacc Scan ];
            r_steps := 4 |}.
Proof.
  apply (table_request_repeated_aborts 1
           (Receptionist.set_group_id 0 receptionist_billing)
           one_group_queued ATTABLE).
  - reflexivity.
  - vm_compute. discriminate.
Defined.

(** ** Requests of a kind that is not served *)

(** X24: The [switch] of the receptionist has no default case: a request
    that is neither TABLEREQ nor BILLREQ is taken from the mailbox and
    counted like any other, and nothing is done for it; the group it names
    is neither recorded nor signalled. *)
Theorem receptionist_drops_other_request NUMTABLES
    (l : Receptionist.rvars) (m : FULL_STAT) :
  reqType (receptionistRequest m) <> TABLEREQ ->
  reqType (receptionistRequest m) <> BILLREQ ->
  let m' := set_receptionistStat WAIT_FOR_REQUEST m in
  let r := receptionistRequest m in
  run quiet 15 0 (Receptionist.turn NUMTABLES) l m =
    Some {| r_end :=
              Ok (Receptionist.set_nReq (Receptionist.nReq l + 1)
                    (Receptionist.set_req r (Receptionist.set_ret r l)), m');
            r_trace :=
              [ Edown sh.mutex;
                Eacc (Store f_receptionistStat);
                Esave m';
                Eup sh.mutex;
                Edown sh.receptionistReq;
                Edown sh.mutex;
                Eacc (Load f_receptionistRequest);
                Eup sh.mutex;
                Eup sh.receptionistRequestPossible;
                Eacc Private; Eacc Private ];
            r_steps := 13 |}.
Proof.
  intros H1 H2 m' r. subst m' r.
  destruct m as [s N a gw [k g] wr fo fg]. simpl in H1, H2.
  destruct k; try done; reflexivity.
Qed.

(** A request for food in the mailbox of the receptionist. *)
Lemma receptionist_drops_other_request_witness :
  exists res l',
    run quiet 15 0 (Receptionist.turn 1) receptionist_at_start stray_order =
      Some res /\
    r_end res = Ok (l', set_receptionistStat WAIT_FOR_REQUEST stray_order) /\
    Receptionist.nReq l' = 1 /\
    Receptionist.groupRecord l' = [0].
Proof.
  eexists _, _. split.
  - apply (receptionist_drops_other_request 1 receptionist_at_start
             stray_order); discriminate.
  - split; [reflexivity|split; reflexivity].
Defined.

(** X25: The [switch] of the waiter has no default case either: a request
    that is neither FOODREQ nor FOODREADY is taken from the mailbox and
    counted, and nothing is done for it. *)
Theorem waiter_drops_other_request (l : Waiter.wvars) (m : FULL_STAT) :
  reqType (waiterRequest m) <> FOODREQ ->
  reqType (waiterRequest m) <> FOODREADY ->
  let m' := set_waiterStat WAIT_FOR_REQUEST m in
  let r := waiterRequest m in
  run quiet 15 0 Waiter.turn l m =
    Some {| r_end :=
              Ok (Waiter.set_nReq (Waiter.nReq l + 1)
                    (Waiter.set_req r (Waiter.set_ret r l)), m');
            r_trace :=
              [ Edown sh.mutex;
                Eacc (Store f_waiterStat);
                Esave m';
                Eup sh.mutex;
                Edown sh.waiterRequest;
                Edown sh.mutex;
                Eacc (Load f_waiterRequest);
                Eup sh.mutex;
                Eup sh.waiterRequestPossible;
                Eacc Private; Eacc Private ];
            r_steps := 13 |}.
Proof.
  intros H1 H2 m' r. subst m' r.
  destruct m as [s N a gw rr [k g] fo fg]. simpl in H1, H2.
  destruct k; try done; reflexivity.
Qed.

(** A bill in the mailbox of the waiter. *)
Lemma waiter_drops_other_request_witness :
  exists res l',
    run quiet 15 0 Waiter.turn waiter_at_start stray_bill = Some res /\
    r_end res = Ok (l', set_waiterStat WAIT_FOR_REQUEST stray_bill) /\
    Waiter.nReq l' = 1.
Proof.
  eexists _, _. split.
  - apply (waiter_drops_other_request waiter_at_start stray_bill);
      discriminate.
  - split; reflexivity.
Defined.

(** ** The initialisation of groupRecord *)

(** [main] is the initialisation followed by the service loop. *)
Lemma main_init NUMTABLES :
  Receptionist.main NUMTABLES =
  (init_groupRecord ;; Receptionist.service_loop NUMTABLES).
Proof. reflexivity. Qed.

Lemma completes_impl {L} E (f i : nat) (p : prog L) l m
    (Q Q' : L -> FULL_STAT -> list event -> Prop) :
  completes E f i p l m Q -> (forall l' m' tr, Q l' m' tr -> Q' l' m' tr) ->
  completes E f i p l m Q'.
Proof.
  intros (res & l' & m' & Hr & He & HQ) H. exists res, l', m'. auto.
Qed.


Section Init.

Variable E : env.

Hypothesis HN : forall i m, nGroups (interference E i m) = nGroups m.

(** The loop with [k] entries left to set. *)
Lemma init_loop_completes (k : nat) : forall (i : nat) l m,
  0 <= Receptionist.g l ->
  Receptionist.g l + Z.of_nat k = nGroups m ->
  nGroups m <= Z.of_nat (length (Receptionist.groupRecord l)) ->
  completes E (2 * k + 2) i
    (While 111 (fun l m => Receptionist.g l <? nGroups m)
       (stmt 112 (fun _ => Private)
          (fun l m =>
             obind (aset (Receptionist.groupRecord l) (Receptionist.g l)
                      TOARRIVE)
               (fun r =>
                  Ok (Receptionist.set_g (Receptionist.g l + 1)
                        (Receptionist.set_groupRecord r l), m))))
       Return) l m
    (fun l' m' tr =>
       length (Receptionist.groupRecord l') =
         length (Receptionist.groupRecord l) /\
       forall j,
         sel (Receptionist.groupRecord l') j =
           if bool_decide (Receptionist.g l <= j < nGroups m)
           then Some TOARRIVE
           else sel (Receptionist.groupRecord l) j).
Proof.
  induction k as [|k IH]; intros i l m Hg Hk HR.
  - apply completes_step. cbn [step]. rewrite HN.
    replace (Receptionist.g l <? nGroups m) with false by lia.
    split; [done|]. apply completes_step. cbn [step]. split; [done|].
    intros j. rewrite bool_decide_eq_false_2 by lia. done.
  - replace (2 * S k + 2)%nat with (S (S (2 * k + 2))) by lia.
    apply completes_step. cbn [step stmt pseq]. rewrite HN.
    replace (Receptionist.g l <? nGroups m) with true by lia.
    split; [done|]. apply completes_step. cbn [step].
    rewrite aset_upd by lia. cbn [obind]. split; [done|].
    eapply completes_impl.
    { apply IH; cbn [Receptionist.g Receptionist.set_g
                       Receptionist.groupRecord Receptionist.set_groupRecord];
        rewrite ?HN, ?length_upd; first [lia | exact HR]. }
    cbn [Receptionist.g Receptionist.set_g
         Receptionist.groupRecord Receptionist.set_groupRecord].
    rewrite !HN. intros l' m' tr [Hlen Hsel]. rewrite length_upd in Hlen.
    split; [done|]. intros j. rewrite Hsel.
    destruct (decide (j = Receptionist.g l)) as [->|Hne].
    + rewrite bool_decide_eq_false_2 by lia.
      rewrite bool_decide_eq_true_2 by lia. rewrite sel_upd_eq by lia. done.
    + rewrite sel_upd_ne by lia.
      destruct (decide (Receptionist.g l + 1 <= j < nGroups m)).
      * rewrite !bool_decide_eq_true_2 by lia. done.
      * rewrite !bool_decide_eq_false_2 by lia. done.
Qed.

(** X26: Lines 110-113: when the number of groups of the day is within the
    length of [groupRecord] ([MAXGROUPS]), the loop ends after [2 * nGroups
    + 3] steps, has set the entries of the groups of the day to TOARRIVE and
    has left the other entries as they were. *)
Theorem init_groupRecord_sets l m :
  0 <= nGroups m <= Z.of_nat (length (Receptionist.groupRecord l)) ->
  exists res l' m',
    run E (2 * Z.to_nat (nGroups m) + 3) 0 init_groupRecord l m = Some res /\
    r_end res = Ok (l', m') /\
    length (Receptionist.groupRecord l') =
      length (Receptionist.groupRecord l) /\
    forall j,
      sel (Receptionist.groupRecord l') j =
        if bool_decide (0 <= j < nGroups m) then Some TOARRIVE
        else sel (Receptionist.groupRecord l) j.
Proof.
  intros HR.
  cut (completes E (S (2 * Z.to_nat (nGroups m) + 2)) 0 init_groupRecord l m
         (fun l' m' tr =>
            length (Receptionist.groupRecord l') =
              length (Receptionist.groupRecord l) /\
            forall j,
              sel (Receptionist.groupRecord l') j =
                if bool_decide (0 <= j < nGroups m) then Some TOARRIVE
                else sel (Receptionist.groupRecord l) j)).
  { replace (2 * Z.to_nat (nGroups m) + 3)%nat
      with (S (2 * Z.to_nat (nGroups m) + 2)) by lia. done. }
  apply completes_step. unfold init_groupRecord. cbn [step stmt pseq].
  split; [done|]. eapply completes_impl.
  { apply init_loop_completes;
      cbn [Receptionist.g Receptionist.set_g Receptionist.groupRecord];
      rewrite ?HN; lia. }
  cbn [Receptionist.g Receptionist.set_g Receptionist.groupRecord].
  rewrite !HN. done.
Qed.


End Init.

(** One group on the day, one entry in [groupRecord]. *)
Lemma init_groupRecord_sets_witness :
  exists res l' m',
    run quiet 5 0 init_groupRecord receptionist_billing one_group_going =
      Some res /\
    r_end res = Ok (l', m') /\
    length (Receptionist.groupRecord l') = 2%nat /\
    forall j,
      sel (Receptionist.groupRecord l') j =
        if bool_decide (0 <= j < 1) then Some TOARRIVE
        else sel [ATTABLE; WAIT] j.
Proof.
  apply (init_groupRecord_sets quiet (fun _ _ => eq_refl)
           receptionist_billing one_group_going).
  simpl. lia.
Defined.


(** ** How a group process ends *)

(** X28: A group whose identification passes the checks of lines 66-100 and
    is not negative, in an environment in which no semaphore operation
    fails, nobody else writes its status and the table array keeps its
    length, runs its life cycle to the end and persists its six statuses; it
    exits with [EXIT_SUCCESS] when the shared region can be detached and
    with [EXIT_FAILURE] when it cannot. *)
Theorem group_exit_status (MAXGROUPS : Z) (strtol : string -> Z * string)
    (E : env) (argv : list string) (os : Group.ipc) (m : FULL_STAT)
    (n : Z) (v0 : status) :
  (forall i, sem_fails E i = false) ->
  (forall i m, groupStat (st (interference E i m)) !! Z.to_nat n =
               groupStat (st m) !! Z.to_nat n) ->
  (forall i m, length (assignedTable (interference E i m)) =
               length (assignedTable m)) ->
  Group.startup MAXGROUPS strtol argv os = Some n ->
  0 <= n ->
  groupStat (st m) !! Z.to_nat n = Some v0 ->
  (Z.to_nat n < length (assignedTable m))%nat ->
  exists tr,
    Group.main MAXGROUPS strtol E 60 argv os m =
      Some (Group.Exit (if Group.shmemDettach os then Group.EXIT_SUCCESS
                        else Group.EXIT_FAILURE), tr) /\
    persisted (Z.to_nat n) tr =
      [ATRECEPTION; FOOD_REQUEST; WAIT_FOR_FOOD; EAT; CHECKOUT; LEAVING].
Proof.
  intros Hsem Hstat Hlen Hstart Hn Hs Ha. unfold Group.main. rewrite Hstart.
  destruct (life_completes E (Z.to_nat n) Hsem Hstat Hlen
              (Group.mkGvars n (mkRequest TABLEREQ 0) 0) m v0)
    as (res & l' & m' & -> & He & HQ); [simpl; lia|done|done|].
  exists (r_trace res). by rewrite He.
Qed.


(** X30: When the access key is not a number read to its end, or one of the
    three connection calls fails, the group process exits with
    [EXIT_FAILURE] and has done nothing on the shared region and on the
    semaphores. *)
Theorem startup_rejects_connection (MAXGROUPS : Z)
    (strtol : string -> Z * string) (E : env) (fuel : nat)
    (argv : list string) (os : Group.ipc) (m : FULL_STAT) :
  (strtol (default EmptyString (argv !! 3%nat))).2 <> EmptyString \/
  Group.semConnect os = false \/ Group.shmemConnect os = false \/
  Group.shmemAttach os = false ->
  Group.main MAXGROUPS strtol E fuel argv os m =
    Some (Group.Exit Group.EXIT_FAILURE, []).
Proof.
  intros H. unfold Group.main, Group.startup.
  destruct (bool_decide (length argv = 5%nat)); [|done].
  destruct (strtol (default EmptyString (argv !! 1%nat))) as [v tinp].
  destruct (negb (bool_decide (tinp = EmptyString)) ||
            (Group.to_int v >=? MAXGROUPS)); [done|].
  destruct (strtol (default EmptyString (argv !! 3%nat))) as [k tinp'].
  simpl in H. destruct (bool_decide (tinp' = EmptyString)) eqn:Hk; [|done].
  apply bool_decide_eq_true in Hk. simpl.
  destruct H as [H | [-> | [-> | ->]]]; [done|done| |].
  - by destruct (Group.semConnect os).
  - by destruct (Group.semConnect os), (Group.shmemConnect os).
Qed.

(** Group 0 on a day of its own, with every call to the system
    succeeding. *)
Lemma group_exit_status_witness :
  exists tr,
    Group.main 10 strtol_decimal quiet 60
      ["group"; "0"; "log"; "1234"; "err"]%string all_connected
      day_of_one_group =
      Some (Group.Exit Group.EXIT_SUCCESS, tr) /\
    persisted 0 tr =
      [ATRECEPTION; FOOD_REQUEST; WAIT_FOR_FOOD; EAT; CHECKOUT; LEAVING].
Proof.
  apply (group_exit_status 10 strtol_decimal quiet
           ["group"; "0"; "log"; "1234"; "err"]%string all_connected
           day_of_one_group 0 GOING (fun _ => eq_refl)
           (fun _ _ => eq_refl) (fun _ _ => eq_refl)).
  - vm_compute. reflexivity.
  - lia.
  - reflexivity.
  - simpl. lia.
Defined.


(** The shared region cannot be attached. *)
Lemma startup_rejects_connection_witness :
  Group.main 10 strtol_decimal quiet 60
    ["group"; "0"; "log"; "1234"; "err"]%string
    (Group.mkIpc true true false true) day_of_one_group =
  Some (Group.Exit Group.EXIT_FAILURE, []).
Proof.
  apply startup_rejects_connection. right. right. right. reflexivity.
Defined.

(* ================================================================== *)
(** * The service loops in the executions of the system *)












Section Counts.

Variables (NT MAXGROUPS : Z).




End Counts.





Section ServiceLoops.

Variables (NT MAXGROUPS : Z).


End ServiceLoops.

(** ** A day with one group, from start to end *)




